(** * app-reply-bot: review ingestion scheduler, vendor connectors, rate limiter

    A shallow embedding of the TypeScript sources
    - [src/utils/rateLimiter.ts]                      (module [RateLimiter])
    - [src/services/llmService.ts]                    (module [LLMService])
    - [src/services/supabase.ts] and the SQL schema   (module [SupabaseService])
    - [src/services/playStoreClient.ts], Play Store   (module [PlayStoreClient])
    - the App Store Connect client, which follows it  (module [AppStoreClient])
    - the scheduler [ReviewScheduler]                 (module [ReviewScheduler])
    followed by the properties of the specification, stated over these
    definitions, and by further properties of the same code: the manual
    poll, the markup of notifications, the life cycle of the scheduler and
    the total the [/poll] command of [src/bot.ts] reports are in module
    [ReviewScheduler] with the scheduler.

    Conventions.  JavaScript numbers that hold lengths, counters and
    millisecond timestamps are integers [Z]; a [Date] is its epoch-millisecond
    value; [T | null] and [T | undefined] are [option T]; a thrown [Error] is
    its message; mutable objects (the bucket map, the database tables, the
    scheduler's fields) are threaded explicitly.

    Environment.  The two vendors are oracles: what they answer to the
    [page]-th request of a listing is a parameter of every function that
    calls them, and a listing may go on for ever.  The database answers
    every statement; the only failures it reports are the constraint
    violations of the [reviews] table; the order in which it lists rows
    that tie in an [ORDER BY] is a parameter.  What node-cron makes of a
    cron expression is a parameter too.  A message handed to Telegram is
    recorded when it is sent (a failed send is swallowed by the sender).
    The clock does not move inside one uninterrupted stretch of code. *)

From stdpp Require Import gmap strings list pretty sorting.
From Stdlib Require Import ZArith Ascii Floats.SpecFloat.

Local Open Scope Z_scope.

(** The two vendor kinds: the string-literal union ['app_store' | 'play_store']. *)
Inductive Store := app_store | play_store.

#[global] Instance Store_eq_dec : EqDecision Store.
Proof. solve_decision. Defined.

(* ===================================================================== *)
(** * JavaScript primitives used by the sources                           *)
(* ===================================================================== *)

Module JS.

(** What an [async] call can do: return, throw, or still be awaiting a
    vendor when the observation budget (a number of HTTP round trips) is
    used up. *)
Inductive outcome (A : Type) : Type :=
| Returned (a : A)
| Thrown (message : string)
| Pending.
Arguments Returned {A} a.
Arguments Thrown {A} message.
Arguments Pending {A}.

(** [xs.slice(0, e)] for arrays and strings: a negative [e] counts from
    the end, and the result never reaches past the end. *)
Definition slice0 {A} (xs : list A) (e : Z) : list A :=
  if e <? 0 then take (Z.to_nat (Z.of_nat (length xs) + e)) xs
  else take (Z.to_nat e) xs.

(** Text that the sources cut by position is a list of characters. *)
Abbreviation chars := (list Ascii.ascii).

Fixpoint lastIndexOf_from (c : Ascii.ascii) (xs : chars) (i found : Z) : Z :=
  match xs with
  | [] => found
  | x :: rest =>
      lastIndexOf_from c rest (i + 1) (if decide (x = c) then i else found)
  end.

(** [xs.lastIndexOf(c)]: the greatest index holding [c], or [-1]. *)
Definition lastIndexOf (xs : chars) (c : Ascii.ascii) : Z := lastIndexOf_from c xs 0 (-1).

(** [s.includes(sub)] *)
Fixpoint includes (s sub : string) : bool :=
  String.prefix sub s ||
  match s with
  | EmptyString => false
  | String _ rest => includes rest sub
  end.

(** [x || d] on a nullable string: [null], [undefined] and [''] are falsy. *)
Definition or_else (x : option string) (d : string) : string :=
  match x with
  | Some s => if decide (s = EmptyString) then d else s
  | None => d
  end.

(** [x || undefined] on a nullable string. *)
Definition or_undefined (x : option string) : option string :=
  match x with
  | Some s => if decide (s = EmptyString) then None else Some s
  | None => None
  end.

Definition truthy (x : option string) : bool :=
  match or_undefined x with Some _ => true | None => false end.

(** Numbers are IEEE-754 doubles.  Integers are embedded exactly (below
    2^53); the only non-integral arithmetic in the sources is the product
    of a length with the literals 0.7 and 0.8, computed here with the
    double-precision rounding of [SpecFloat]. *)
Definition prec : Z := 53.
Definition emax : Z := 1024.
Definition number (z : Z) : spec_float := binary_normalize prec emax z 0 false.
(** The doubles nearest to 0.7 and 0.8: 0x1.6666666666666p-1 and
    0x1.999999999999ap-1. *)
Definition lit_0_7 : spec_float := S754_finite false 6305039478318694 (-53).
Definition lit_0_8 : spec_float := S754_finite false 7205759403792794 (-53).

(** [a > b * k] for integers [a], [b] and a double literal [k]. *)
Definition gt_times (a b : Z) (k : spec_float) : bool :=
  SFltb (SFmul prec emax (number b) k) (number a).

(** [text.replace(/c/g, replacement)] for a pattern that is one literal
    character: every occurrence is replaced, left to right. *)
Fixpoint replace_all (c : Ascii.ascii) (replacement text : string) : string :=
  match text with
  | EmptyString => EmptyString
  | String x rest =>
      if decide (x = c) then replacement +:+ replace_all c replacement rest
      else String x (replace_all c replacement rest)
  end.

End JS.

(* ===================================================================== *)
(** * src/utils/rateLimiter.ts                                            *)
(* ===================================================================== *)

Module RateLimiter.

Record RateLimitState := { count : Z; resetAt : Z }.

Record RateLimitResult := { allowed : bool; remaining : Z; result_resetAt : Z }.

(** The private fields of the class. *)
Record t := { limit : Z; windowMs : Z; buckets : gmap string RateLimitState }.

(** [constructor(limit, windowMs)] *)
Definition new (limit0 windowMs0 : Z) : t :=
  {| limit := Z.max 0 limit0; windowMs := windowMs0; buckets := ∅ |}.

Definition set_bucket (key : string) (st : RateLimitState) (rl : t) : t :=
  {| limit := limit rl; windowMs := windowMs rl;
     buckets := <[key := st]> (buckets rl) |}.

(** [tryConsume(key)]; [now] is the value read from [Date.now()].
    [fresh] is the branch taken when [!existing || now >= existing.resetAt]. *)
Definition tryConsume (now : Z) (key : string) (rl : t) : RateLimitResult * t :=
  let existing := buckets rl !! key in
  let fresh :=
    let resetAt' := now + windowMs rl in
    let remaining' := Z.max (limit rl - 1) 0 in
    ({| allowed := 0 <? limit rl; remaining := remaining';
        result_resetAt := resetAt' |},
     set_bucket key {| count := 1; resetAt := resetAt' |} rl) in
  match existing with
  | None => fresh
  | Some existing =>
      if now >=? resetAt existing then fresh
      else
        let nextCount := count existing + 1 in
        let allowed' := nextCount <=? limit rl in
        let remaining' := if allowed' then limit rl - nextCount else 0 in
        ({| allowed := allowed'; remaining := remaining';
            result_resetAt := resetAt existing |},
         if allowed'
         then set_bucket key {| count := nextCount; resetAt := resetAt existing |} rl
         else rl)
  end.

(** The fixed-window reference semantics, following the specification's
    wording (section 4.4): the window of a key is open while a bucket is
    stored for it and [now] has not reached its reset time. *)
Definition open_window (now : Z) (key : string) (rl : t) : option RateLimitState :=
  match buckets rl !! key with
  | Some st => if now <? resetAt st then Some st else None
  | None => None
  end.

Definition fixed_window_reference (now : Z) (key : string) (rl : t)
  : RateLimitResult * t :=
  match open_window now key rl with
  | None =>
      (* first consumption, or the window has elapsed: open a new window,
         set the count to 1 and allow *)
      ({| allowed := true; remaining := limit rl - 1;
          result_resetAt := now + windowMs rl |},
       set_bucket key {| count := 1; resetAt := now + windowMs rl |} rl)
  | Some st =>
      (* within an open window: allow iff the incremented count does not
         exceed the limit; a rejected attempt is not charged *)
      if count st + 1 <=? limit rl then
        ({| allowed := true; remaining := limit rl - (count st + 1);
            result_resetAt := resetAt st |},
         set_bucket key {| count := count st + 1; resetAt := resetAt st |} rl)
      else
        ({| allowed := false; remaining := 0; result_resetAt := resetAt st |}, rl)
  end.

(** Consuming the same key at a list of instants, oldest first; returns
    the [allowed] flags. *)
Fixpoint consume_all (key : string) (times : list Z) (rl : t) : list bool * t :=
  match times with
  | [] => ([], rl)
  | now :: rest =>
      let '(r, rl1) := tryConsume now key rl in
      let '(bs, rl2) := consume_all key rest rl1 in
      (allowed r :: bs, rl2)
  end.

End RateLimiter.

(* ===================================================================== *)
(** * src/services/llmService.ts                                          *)
(* ===================================================================== *)

Module LLMService.
Import JS.

Definition dots : chars := ["."; "."; "."]%char.

(** The part of [generateReviewResponse] that follows the completion
    request: [generatedText] is the trimmed content of the first choice
    (or the empty string), [maxLength] the option of the same name, which
    defaults to 350 for the Play Store and 5000 for the App Store. *)
Definition generateReviewResponse
    (store : Store) (maxLength : option Z) (generatedText : chars) : chars :=
  let maxLength :=
    match maxLength with
    | Some m => m
    | None => match store with play_store => 350 | app_store => 5000 end
    end in
  if Z.of_nat (length generatedText) >? maxLength then
    let truncated := slice0 generatedText (maxLength - 3) in
    let lastPeriod := lastIndexOf truncated "."%char in
    let lastSpace := lastIndexOf truncated " "%char in
    if gt_times lastPeriod maxLength lit_0_7 then
      slice0 truncated (lastPeriod + 1)
    else if gt_times lastSpace maxLength lit_0_8 then
      slice0 truncated lastSpace ++ dots
    else truncated ++ dots
  else generatedText.

(** [refineResponse] cuts the refined text hard. *)
Definition refineResponse (maxLength : option Z) (refined : chars) : chars :=
  slice0 refined (default 350 maxLength).

End LLMService.

(* ===================================================================== *)
(** * src/services/supabase.ts and supabase/.../schema.template.sql       *)
(* ===================================================================== *)

Module SupabaseService.
Import JS.

Inductive ReviewStatus := pending | notified | approved | responded | rejected | failed.

(** Rows keep the columns the scheduler and the connectors read or write. *)
Record User := {
  user_id : string;
  telegram_id : Z;
  user_is_active : bool }.

Record Account := {
  account_id : string;
  credential_data : string;
  apple_key_id : option string;
  apple_issuer_id : option string;
  is_valid : bool;
  validation_error : option string }.

Record App := {
  app_id : string;
  app_user_id : string;
  app_account_id : string;
  app_name : string;
  store_id : string;
  store : Store;
  is_active : bool;
  last_poll_at : option Z }.

(** [AppWithAccount]: the row with its embedded [account] (PostgREST
    yields [null] when the join finds none). *)
Record AppWithAccount := { app : App; account : option Account }.

Record Review := {
  review_app_id : string;
  review_user_id : string;
  review_store : Store;
  external_review_id : string;
  rating : Z;
  title : option string;
  body : string;
  reviewer_name : option string;
  review_date : option Z;
  territory : option string;
  app_version : option string;
  status : ReviewStatus }.

Record Database := {
  users : list User;
  accounts : list Account;
  apps : list App;
  reviews : list Review }.

(** [.single()]: the row when the query selects exactly one, else [null]. *)
Definition single {A} (rows : list A) : option A :=
  match rows with
  | [row] => Some row
  | _ => None
  end.

Definition getUserById (userId : string) (d : Database) : option User :=
  single (filter (λ u, user_id u = userId) (users d)).

Definition with_account (d : Database) (a : App) : AppWithAccount :=
  {| app := a;
     account := single (filter (λ acc, account_id acc = app_account_id a) (accounts d)) |}.

(** [app.account?.is_valid] *)
Definition account_is_valid (a : AppWithAccount) : bool :=
  match account a with
  | Some acc => is_valid acc
  | None => false
  end.

Definition getAllActiveAppsWithAccounts (d : Database) : list AppWithAccount :=
  filter (λ a, account_is_valid a = true)
         (with_account d <$> filter (λ a, is_active a = true) (apps d)).

Definition set_last_poll_at (t : Z) (a : App) : App :=
  {| app_id := app_id a; app_user_id := app_user_id a;
     app_account_id := app_account_id a; app_name := app_name a;
     store_id := store_id a; store := store a; is_active := is_active a;
     last_poll_at := Some t |}.

(** [updateAppLastPoll(appId)]; [now] is the value of [new Date()]. *)
Definition updateAppLastPoll (now : Z) (appId : string) (d : Database) : Database :=
  {| users := users d; accounts := accounts d;
     apps := (λ a, if decide (app_id a = appId) then set_last_poll_at now a else a)
               <$> apps d;
     reviews := reviews d |}.

(** The SQL function [invalidate_account(p_account_id, p_error)]. *)
Definition invalidate (errorMessage : string) (acc : Account) : Account :=
  {| account_id := account_id acc; credential_data := credential_data acc;
     apple_key_id := apple_key_id acc; apple_issuer_id := apple_issuer_id acc;
     is_valid := false; validation_error := Some errorMessage |}.

Definition invalidateAccount (accountId errorMessage : string) (d : Database) : Database :=
  {| users := users d;
     accounts := (λ acc, if decide (account_id acc = accountId)
                         then invalidate errorMessage acc else acc) <$> accounts d;
     apps := apps d; reviews := reviews d |}.

Definition same_key (st : Store) (externalId : string) (r : Review) : Prop :=
  review_store r = st ∧ external_review_id r = externalId.

#[global] Instance same_key_dec st externalId r : Decision (same_key st externalId r).
Proof. unfold same_key. apply _. Defined.

Definition getReviewByExternalId (st : Store) (externalId : string) (d : Database)
  : option Review :=
  single (filter (same_key st externalId) (reviews d)).

(** The message of the error PostgREST reports for a row that fails
    [CHECK (rating BETWEEN 1 AND 5)] (SQLSTATE 23514). *)
Definition rating_check_violation : string :=
  "new row for relation reviews violates check constraint reviews_rating_check".

(** [createReview(reviewData)]: the insert checks the row constraints, then
    [UNIQUE(store, external_review_id)]; a unique violation (23505) is
    answered with [null], any other error is thrown ([inl]). *)
Definition createReview (row : Review) (d : Database)
  : (string + option Review) * Database :=
  if negb ((1 <=? rating row) && (rating row <=? 5)) then
    (inl rating_check_violation, d)
  else if decide (Exists (same_key (review_store row) (external_review_id row)) (reviews d)) then
    (inr None, d)
  else
    (inr (Some row),
     {| users := users d; accounts := accounts d; apps := apps d;
        reviews := reviews d ++ [row] |}).

(** [getAppsByUser(userId)]: the owner's active apps, newest first.  A
    table lists its rows in the order of their insertion, which is the
    order of [created_at] (the column defaults to [NOW()] and no statement
    writes it); [order('created_at', { ascending: false })] reverses it. *)
Definition getAppsByUser (userId : string) (d : Database) : list App :=
  reverse (filter (λ a, app_user_id a = userId ∧ is_active a = true) (apps d)).

(** [getAppWithAccount(appId)] *)
Definition getAppWithAccount (appId : string) (d : Database) : option AppWithAccount :=
  with_account d <$> single (filter (λ a, app_id a = appId) (apps d)).

(** [.in('status', ['pending', 'notified'])] *)
Definition awaits_decision (r : Review) : bool :=
  match status r with
  | pending | notified => true
  | _ => false
  end.

(** [review_date] descending, nulls last. *)
Definition date_desc (r1 r2 : Review) : Prop :=
  match review_date r1, review_date r2 with
  | Some t1, Some t2 => t2 ≤ t1
  | Some _, None => True
  | None, Some _ => False
  | None, None => True
  end.

#[global] Instance date_desc_dec : RelDecision date_desc.
Proof.
  intros r1 r2. unfold date_desc.
  destruct (review_date r1), (review_date r2); apply _.
Defined.

(** The rows the query of [getPendingReviewsByUser] selects, before its
    [.order(..)]: the filter on [app_id] is added only for a non-empty
    [appIds]. *)
Definition pending_selection (userId : string) (appIds : option (list string))
    (d : Database) : list Review :=
  let rows :=
    filter (λ r, review_user_id r = userId ∧ awaits_decision r = true) (reviews d) in
  match appIds with
  | Some (appId :: others) => filter (λ r, review_app_id r ∈ appId :: others) rows
  | _ => rows
  end.

(** [.order('review_date', { ascending: false, nullsFirst: false })] fixes
    the order of the rows up to ties only: rows of one [review_date], and
    rows without one, come in an order of the database's choosing, which
    may differ from one statement to the next.  An [Ordering] tells in
    which order the database lists the selected rows for the [n]-th
    statement of a call. *)
Definition Ordering := nat → list Review → list Review.

(** [.range(from, to)]: the rows at the positions [from] to [to], both
    included. *)
Definition range {A} (from to : Z) (rows : list A) : list A :=
  take (Z.to_nat (to - from + 1)) (drop (Z.to_nat from) rows).

Definition pageSize : Z := 1000.

(** The [while (hasMore)] loop of [getPendingReviewsByUser], entered with
    [offset] and the rows collected so far, before its [statement]-th
    query; the budget counts statements. *)
Fixpoint pending_pages (fuel : nat) (ordering : Ordering) (userId : string)
    (appIds : option (list string)) (d : Database) (statement : nat) (offset : Z)
    (allReviews : list Review) : outcome (list Review) :=
  match fuel with
  | O => Pending
  | S fuel' =>
      let reviews :=
        range offset (offset + pageSize - 1)
              (ordering statement (pending_selection userId appIds d)) in
      let allReviews := allReviews ++ reviews in
      if Z.of_nat (length reviews) <? pageSize then Returned allReviews
      else pending_pages fuel' ordering userId appIds d (S statement)
                         (offset + pageSize) allReviews
  end.

(** [getPendingReviewsByUser(userId, appIds)] *)
Definition getPendingReviewsByUser (fuel : nat) (ordering : Ordering) (userId : string)
    (appIds : option (list string)) (d : Database) : outcome (list Review) :=
  pending_pages fuel ordering userId appIds d 0 0 [].

(** [toggleAppActive(appId, isActive)] *)
Definition set_is_active (isActive : bool) (a : App) : App :=
  {| app_id := app_id a; app_user_id := app_user_id a;
     app_account_id := app_account_id a; app_name := app_name a;
     store_id := store_id a; store := store a; is_active := isActive;
     last_poll_at := last_poll_at a |}.

Definition toggleAppActive (appId : string) (isActive : bool) (d : Database) : Database :=
  {| users := users d; accounts := accounts d;
     apps := (λ a, if decide (app_id a = appId) then set_is_active isActive a else a)
               <$> apps d;
     reviews := reviews d |}.

End SupabaseService.

(* ===================================================================== *)
(** * The world the services act on                                       *)
(* ===================================================================== *)

Module Env.
Import JS SupabaseService.

(** The two messages the scheduler sends through [bot.telegram.sendMessage]. *)
Inductive message :=
| SummaryMessage (newReviewCount : Z)
| CredentialErrorMessage (appName error : string).

(** The query of the App Store [customerReviews] request. *)
Record ReviewsQuery := {
  query_appId : string;
  query_limit : Z;
  query_sort : string;
  exists_publishedResponse : option bool }.

(** HTTP requests issued to the vendors; [page] counts the pages of one
    listing, following the continuation the vendor handed out. *)
Inductive request :=
| PlayReviewsList (packageName : string) (maxResults : Z) (page : nat)
| PlayReviewsReply (packageName reviewId : string) (replyText : chars)
| AppStoreReviewsGet (query : ReviewsQuery) (page : nat)
| AppStoreResponsePost (reviewId : string) (responseBody : chars).

(** The database, the clock read by [new Date()], the messages sent to
    Telegram ([telegramId], message) and the vendor requests issued, the
    last two oldest first. *)
Record World := {
  clock : Z;
  db : Database;
  outbox : list (Z * message);
  requests : list request }.

Definition with_db (f : Database → Database) (w : World) : World :=
  {| clock := clock w; db := f (db w); outbox := outbox w; requests := requests w |}.

Definition send (telegramId : Z) (m : message) (w : World) : World :=
  {| clock := clock w; db := db w; outbox := outbox w ++ [(telegramId, m)];
     requests := requests w |}.

Definition issue (r : request) (w : World) : World :=
  {| clock := clock w; db := db w; outbox := outbox w;
     requests := requests w ++ [r] |}.

End Env.

(* ===================================================================== *)
(** * src/services/playStoreClient.ts                                     *)
(* ===================================================================== *)

Module PlayStoreClient.
Import JS SupabaseService Env.

(** The parts of [androidpublisher_v3.Schema$Review] that are read. *)
Record UserComment := {
  text : option string;
  lastModified_seconds : option Z;
  starRating : option Z;
  reviewerLanguage : option string;
  appVersionName : option string }.

Record Comment := { userComment : option UserComment; developerComment : bool }.

Record Review := {
  reviewId : option string;
  authorName : option string;
  comments : option (list Comment) }.

Record ReviewsListResponse := {
  reviews : option (list Review);
  nextPageToken : option string }.

(** The Android Publisher service as the client sees it: [createClient]
    throws on a credential it cannot use; a listing answers its [page]-th
    request with a page or an error; a reply succeeds or throws. *)
Record Androidpublisher := {
  createClient_error : string → option string;
  reviews_list : string → string → nat → Z → string + ReviewsListResponse;
  reviews_reply_error : string → string → chars → string → option string }.

(** [ParsedPlayStoreReview], without [androidOsVersion], [appVersionCode]
    and [device], which nothing reads. *)
Record ParsedPlayStoreReview := {
  externalId : string;
  rating : Z;
  title : option string;
  body : string;
  reviewerName : string;
  reviewDate : Z;
  language : string;
  hasResponse : bool;
  parsed_appVersionName : option string }.

(** [review.comments?.[0]?.userComment] *)
Definition first_userComment (review : Review) : option UserComment :=
  match comments review with
  | Some (c :: _) => userComment c
  | _ => None
  end.

(** [review.comments?.some((c) => c.developerComment) || false] *)
Definition has_developerComment (review : Review) : bool :=
  match comments review with
  | Some cs => existsb developerComment cs
  | None => false
  end.

Definition reviewDate_of (now : Z) (comment : UserComment) : Z :=
  match lastModified_seconds comment with
  | Some seconds => seconds * 1000
  | None => now
  end.

Definition parse (now : Z) (review : Review) (comment : UserComment)
  : ParsedPlayStoreReview :=
  {| externalId := or_else (reviewId review) EmptyString;
     rating := match starRating comment with Some n => n | None => 0 end;
     title := None;
     body := or_else (text comment) EmptyString;
     reviewerName := or_else (authorName review) "Anonymous";
     reviewDate := reviewDate_of now comment;
     language := or_else (reviewerLanguage comment) "en";
     hasResponse := has_developerComment review;
     parsed_appVersionName := or_undefined (appVersionName comment) |}.

(** [lastPollAt && reviewDate <= lastPollAt] *)
Definition not_newer (lastPollAt : option Z) (reviewDate : Z) : bool :=
  match lastPollAt with
  | Some t => reviewDate <=? t
  | None => false
  end.

(** The [for] loop over one page: returns the array after the pushes and
    [reachedOldReviews]. *)
Fixpoint scan_page (now : Z) (lastPollAt : option Z) (page : list Review)
    (acc : list ParsedPlayStoreReview) : list ParsedPlayStoreReview * bool :=
  match page with
  | [] => (acc, false)
  | review :: rest =>
      match first_userComment review with
      | None => scan_page now lastPollAt rest acc
      | Some comment =>
          if not_newer lastPollAt (reviewDate_of now comment) then (acc, true)
          else scan_page now lastPollAt rest (acc ++ [parse now review comment])
      end
  end.

(** The [do ... while] loop of [fetchReviews], entered before the [page]-th
    request with [acc] collected so far. *)
Fixpoint fetch_pages (fuel : nat) (api : Androidpublisher)
    (packageName credentialJson : string) (maxResults : Z) (lastPollAt : option Z)
    (page : nat) (acc : list ParsedPlayStoreReview) (w : World)
  : outcome (list ParsedPlayStoreReview) * World :=
  match fuel with
  | O => (Pending, w)
  | S fuel' =>
      let asked := Z.min (maxResults - Z.of_nat (length acc)) 100 in
      let w1 := issue (PlayReviewsList packageName asked page) w in
      match reviews_list api packageName credentialJson page asked with
      | inl message => (Thrown message, w1)
      | inr response =>
          let '(acc', reachedOldReviews) :=
            match reviews response with
            | Some rs => scan_page (clock w1) lastPollAt rs acc
            | None => (acc, false)
            end in
          let pageToken :=
            if reachedOldReviews then None else or_undefined (nextPageToken response) in
          if bool_decide (is_Some pageToken)
             && (Z.of_nat (length acc') <? maxResults)
             && negb reachedOldReviews
          then fetch_pages fuel' api packageName credentialJson maxResults lastPollAt
                           (S page) acc' w1
          else (Returned (slice0 acc' maxResults), w1)
      end
  end.

(** [fetchReviews(packageName, credentialJson, maxResults, lastPollAt)] *)
Definition fetchReviews (fuel : nat) (api : Androidpublisher)
    (packageName credentialJson : string) (maxResults : Z) (lastPollAt : option Z)
    (w : World) : outcome (list ParsedPlayStoreReview) * World :=
  match createClient_error api credentialJson with
  | Some message => (Thrown message, w)
  | None => fetch_pages fuel api packageName credentialJson maxResults lastPollAt 0 [] w
  end.

(** [fetchUnrespondedReviews(packageName, credentialJson, maxResults, lastPollAt)] *)
Definition fetchUnrespondedReviews (fuel : nat) (api : Androidpublisher)
    (packageName credentialJson : string) (maxResults : Z) (lastPollAt : option Z)
    (w : World) : outcome (list ParsedPlayStoreReview) * World :=
  match fetchReviews fuel api packageName credentialJson (maxResults * 2) lastPollAt w with
  | (Returned allReviews, w1) =>
      (Returned (slice0 (filter (λ r, hasResponse r = false) allReviews) maxResults), w1)
  | (Thrown message, w1) => (Thrown message, w1)
  | (Pending, w1) => (Pending, w1)
  end.

(** [replyToReview(packageName, reviewId, replyText, credentialJson)] *)
Definition replyToReview (api : Androidpublisher)
    (packageName reviewId : string) (replyText : chars) (credentialJson : string)
    (w : World) : outcome unit * World :=
  let truncatedReply := slice0 replyText 350 in
  match createClient_error api credentialJson with
  | Some message => (Thrown message, w)
  | None =>
      let w1 := issue (PlayReviewsReply packageName reviewId truncatedReply) w in
      match reviews_reply_error api packageName reviewId truncatedReply credentialJson with
      | Some message => (Thrown message, w1)
      | None => (Returned (), w1)
      end
  end.

(** The test both [catch] blocks apply to the message of a caught error. *)
Definition is_auth_error (errorMessage : string) : bool :=
  includes errorMessage "401" || includes errorMessage "403"
  || includes errorMessage "PERMISSION_DENIED"
  || includes errorMessage "UNAUTHENTICATED".

Definition invalid_account_message : string :=
  "Account credentials are invalid. Please re-upload your service account JSON file.".

Definition invalid_credentials_message (errorMessage : string) : string :=
  "Credentials are invalid: " +:+ errorMessage
    +:+ ". Please re-upload your service account JSON file.".

(** [fetchReviewsWithAccount(account, packageName, lastPollAt)] *)
Definition fetchReviewsWithAccount (fuel : nat) (api : Androidpublisher)
    (account : Account) (packageName : string) (lastPollAt : option Z) (w : World)
  : outcome (list ParsedPlayStoreReview) * World :=
  if negb (is_valid account) then (Thrown invalid_account_message, w)
  else
    match fetchUnrespondedReviews fuel api packageName (credential_data account)
                                  50 lastPollAt w with
    | (Returned reviews, w1) => (Returned reviews, w1)
    | (Thrown errorMessage, w1) =>
        if is_auth_error errorMessage then
          (Thrown (invalid_credentials_message errorMessage),
           with_db (invalidateAccount (account_id account) errorMessage) w1)
        else (Thrown errorMessage, w1)
    | (Pending, w1) => (Pending, w1)
    end.

(** [replyWithAccount(account, packageName, reviewExternalId, replyText)] *)
Definition replyWithAccount (api : Androidpublisher)
    (account : Account) (packageName reviewExternalId : string) (replyText : chars)
    (w : World) : outcome unit * World :=
  if negb (is_valid account) then (Thrown invalid_account_message, w)
  else
    match replyToReview api packageName reviewExternalId replyText
                        (credential_data account) w with
    | (Returned tt, w1) => (Returned tt, w1)
    | (Thrown errorMessage, w1) =>
        if is_auth_error errorMessage then
          (Thrown (invalid_credentials_message errorMessage),
           with_db (invalidateAccount (account_id account) errorMessage) w1)
        else (Thrown errorMessage, w1)
    | (Pending, w1) => (Pending, w1)
    end.

End PlayStoreClient.

(* ===================================================================== *)
(** * src/services/appStoreClient.ts                                      *)
(* ===================================================================== *)

Module AppStoreClient.
Import JS SupabaseService Env.

(** [AppStoreReview]: its [attributes], with [createdDate] as the instant
    [new Date(createdDate)] denotes, and whether
    [relationships.response.data] is present. *)
Record AppStoreReview := {
  id : string;
  attr_rating : Z;
  attr_title : option string;
  attr_body : string;
  reviewerNickname : string;
  createdDate : Z;
  attr_territory : string;
  response_data : bool }.

Record AppStoreReviewsResponse := {
  data : list AppStoreReview;
  links_next : option string }.

(** App Store Connect as the client sees it: [generateToken] throws when
    the key cannot sign; a GET of a review listing answers its [page]-th
    request with a page or with the message [request] throws; a POST of a
    response succeeds or throws. *)
Record AppStoreConnect := {
  generateToken_error : string → string → string → option string;
  get_customerReviews : ReviewsQuery → string → nat → string + AppStoreReviewsResponse;
  post_customerReviewResponse_error : string → chars → string → option string }.

Record ParsedAppStoreReview := {
  externalId : string;
  rating : Z;
  title : option string;
  body : string;
  reviewerName : string;
  reviewDate : Z;
  territory : string;
  hasResponse : bool }.

Definition not_newer (lastPollAt : option Z) (reviewDate : Z) : bool :=
  match lastPollAt with
  | Some t => reviewDate <=? t
  | None => false
  end.

Definition parse_unresponded (review : AppStoreReview) : ParsedAppStoreReview :=
  {| externalId := id review;
     rating := attr_rating review;
     title := attr_title review;
     body := attr_body review;
     reviewerName := reviewerNickname review;
     reviewDate := createdDate review;
     territory := attr_territory review;
     hasResponse := false |}.

(** The [for] loop of [fetchUnrespondedReviews] over one page. *)
Fixpoint scan_page (lastPollAt : option Z) (page : list AppStoreReview)
    (acc : list ParsedAppStoreReview) : list ParsedAppStoreReview * bool :=
  match page with
  | [] => (acc, false)
  | review :: rest =>
      if not_newer lastPollAt (createdDate review) then (acc, true)
      else scan_page lastPollAt rest (acc ++ [parse_unresponded review])
  end.

(** [/apps/${appId}/customerReviews?limit=200&sort=-createdDate&exists[publishedResponse]=false] *)
Definition unresponded_query (appId : string) : ReviewsQuery :=
  {| query_appId := appId; query_limit := 200; query_sort := "-createdDate";
     exists_publishedResponse := Some false |}.

(** The [while (nextUrl && !reachedOldReviews)] loop, entered with a
    non-null [nextUrl] before the [page]-th request. *)
Fixpoint fetch_pages (fuel : nat) (api : AppStoreConnect)
    (query : ReviewsQuery) (privateKey : string) (lastPollAt : option Z)
    (page : nat) (acc : list ParsedAppStoreReview) (w : World)
  : outcome (list ParsedAppStoreReview) * World :=
  match fuel with
  | O => (Pending, w)
  | S fuel' =>
      let w1 := issue (AppStoreReviewsGet query page) w in
      match get_customerReviews api query privateKey page with
      | inl message => (Thrown message, w1)
      | inr apiResponse =>
          let '(acc', reachedOldReviews) := scan_page lastPollAt (data apiResponse) acc in
          let nextUrl :=
            if reachedOldReviews then None else or_undefined (links_next apiResponse) in
          if bool_decide (is_Some nextUrl) && negb reachedOldReviews
          then fetch_pages fuel' api query privateKey lastPollAt (S page) acc' w1
          else (Returned acc', w1)
      end
  end.

(** [fetchUnrespondedReviews(appId, privateKey, keyId, issuerId, lastPollAt)] *)
Definition fetchUnrespondedReviews (fuel : nat) (api : AppStoreConnect)
    (appId privateKey keyId issuerId : string) (lastPollAt : option Z) (w : World)
  : outcome (list ParsedAppStoreReview) * World :=
  match generateToken_error api privateKey keyId issuerId with
  | Some message => (Thrown message, w)
  | None => fetch_pages fuel api (unresponded_query appId) privateKey lastPollAt 0 [] w
  end.

(** [postResponse(reviewId, responseBody, privateKey, keyId, issuerId)] *)
Definition postResponse (api : AppStoreConnect)
    (reviewId : string) (responseBody : chars) (privateKey keyId issuerId : string)
    (w : World) : outcome unit * World :=
  match generateToken_error api privateKey keyId issuerId with
  | Some message => (Thrown message, w)
  | None =>
      let w1 := issue (AppStoreResponsePost reviewId responseBody) w in
      match post_customerReviewResponse_error api reviewId responseBody privateKey with
      | Some message => (Thrown message, w1)
      | None => (Returned (), w1)
      end
  end.

Definition is_auth_error (errorMessage : string) : bool :=
  includes errorMessage "401" || includes errorMessage "403"
  || includes errorMessage "FORBIDDEN"
  || includes errorMessage "NOT_AUTHORIZED".

Definition invalid_account_message : string :=
  "Account credentials are invalid. Please re-upload your .p8 file.".

Definition missing_key_message : string := "Missing Apple Key ID or Issuer ID".

Definition invalid_credentials_message (errorMessage : string) : string :=
  "Credentials are invalid: " +:+ errorMessage +:+ ". Please re-upload your .p8 file.".

(** [fetchReviewsWithAccount(account, storeId, lastPollAt)] *)
Definition fetchReviewsWithAccount (fuel : nat) (api : AppStoreConnect)
    (account : Account) (storeId : string) (lastPollAt : option Z) (w : World)
  : outcome (list ParsedAppStoreReview) * World :=
  if negb (is_valid account) then (Thrown invalid_account_message, w)
  else
    match or_undefined (apple_key_id account), or_undefined (apple_issuer_id account) with
    | Some keyId, Some issuerId =>
        match fetchUnrespondedReviews fuel api storeId (credential_data account)
                                      keyId issuerId lastPollAt w with
        | (Returned reviews, w1) => (Returned reviews, w1)
        | (Thrown errorMessage, w1) =>
            if is_auth_error errorMessage then
              (Thrown (invalid_credentials_message errorMessage),
               with_db (invalidateAccount (account_id account) errorMessage) w1)
            else (Thrown errorMessage, w1)
        | (Pending, w1) => (Pending, w1)
        end
    | _, _ => (Thrown missing_key_message, w)
    end.

(** [postResponseWithAccount(account, reviewExternalId, responseBody)] *)
Definition postResponseWithAccount (api : AppStoreConnect)
    (account : Account) (reviewExternalId : string) (responseBody : chars) (w : World)
  : outcome unit * World :=
  if negb (is_valid account) then (Thrown invalid_account_message, w)
  else
    match or_undefined (apple_key_id account), or_undefined (apple_issuer_id account) with
    | Some keyId, Some issuerId =>
        match postResponse api reviewExternalId responseBody (credential_data account)
                           keyId issuerId w with
        | (Returned tt, w1) => (Returned tt, w1)
        | (Thrown errorMessage, w1) =>
            if is_auth_error errorMessage then
              (Thrown (invalid_credentials_message errorMessage),
               with_db (invalidateAccount (account_id account) errorMessage) w1)
            else (Thrown errorMessage, w1)
        | (Pending, w1) => (Pending, w1)
        end
    | _, _ => (Thrown missing_key_message, w)
    end.

(** The record [fetchReviews] pushes for a review:
    [hasResponse: !!review.relationships?.response?.data]. *)
Definition parse (review : AppStoreReview) : ParsedAppStoreReview :=
  {| externalId := id review;
     rating := attr_rating review;
     title := attr_title review;
     body := attr_body review;
     reviewerName := reviewerNickname review;
     reviewDate := createdDate review;
     territory := attr_territory review;
     hasResponse := response_data review |}.

(** [/apps/${appId}/customerReviews?limit=${Math.min(limit, 200)}&sort=-createdDate] *)
Definition reviews_query (appId : string) (limit : Z) : ReviewsQuery :=
  {| query_appId := appId; query_limit := Z.min limit 200; query_sort := "-createdDate";
     exists_publishedResponse := None |}.

(** The body of [while (nextUrl && reviews.length < limit)] in
    [fetchReviews], entered before the [page]-th request, the loop test
    having passed. *)
Fixpoint fetch_limited_pages (fuel : nat) (api : AppStoreConnect)
    (query : ReviewsQuery) (privateKey : string) (limit : Z)
    (page : nat) (acc : list ParsedAppStoreReview) (w : World)
  : outcome (list ParsedAppStoreReview) * World :=
  match fuel with
  | O => (Pending, w)
  | S fuel' =>
      let w1 := issue (AppStoreReviewsGet query page) w in
      match get_customerReviews api query privateKey page with
      | inl message => (Thrown message, w1)
      | inr apiResponse =>
          let acc' := acc ++ (parse <$> data apiResponse) in
          let nextUrl := or_undefined (links_next apiResponse) in
          if bool_decide (is_Some nextUrl) && (Z.of_nat (length acc') <? limit)
          then fetch_limited_pages fuel' api query privateKey limit (S page) acc' w1
          else (Returned (slice0 acc' limit), w1)
      end
  end.

(** [fetchReviews(appId, privateKey, keyId, issuerId, limit = 100)] *)
Definition fetchReviews (fuel : nat) (api : AppStoreConnect)
    (appId privateKey keyId issuerId : string) (limit : option Z) (w : World)
  : outcome (list ParsedAppStoreReview) * World :=
  let limit := default 100 limit in
  match generateToken_error api privateKey keyId issuerId with
  | Some message => (Thrown message, w)
  | None =>
      if 0 <? limit
      then fetch_limited_pages fuel api (reviews_query appId limit) privateKey limit 0 [] w
      else (Returned (slice0 [] limit), w)
  end.

(** The message of the error [request] throws for a response that is not
    ok: the [detail] of the first error of the body when the body is JSON
    that carries one, else the status line. *)
Definition request_error_message (status : Z) (statusText : string)
    (detail : option string) : string :=
  match or_undefined detail with
  | Some errorDetail => errorDetail
  | None => "App Store API error: " +:+ pretty status +:+ " " +:+ statusText
  end.

End AppStoreClient.

(* ===================================================================== *)
(** * src/scheduler.ts                                                    *)
(* ===================================================================== *)

Module ReviewScheduler.
Import JS SupabaseService Env.

Record Vendors := {
  appStore : AppStoreClient.AppStoreConnect;
  playStore : PlayStoreClient.Androidpublisher }.

(** [type ParsedReview = ParsedAppStoreReview | ParsedPlayStoreReview] *)
Inductive ParsedReview :=
| OfAppStore (r : AppStoreClient.ParsedAppStoreReview)
| OfPlayStore (r : PlayStoreClient.ParsedPlayStoreReview).

Definition externalId (review : ParsedReview) : string :=
  match review with
  | OfAppStore r => AppStoreClient.externalId r
  | OfPlayStore r => PlayStoreClient.externalId r
  end.

Definition hasResponse (review : ParsedReview) : bool :=
  match review with
  | OfAppStore r => AppStoreClient.hasResponse r
  | OfPlayStore r => PlayStoreClient.hasResponse r
  end.

Definition reviewDate (review : ParsedReview) : Z :=
  match review with
  | OfAppStore r => AppStoreClient.reviewDate r
  | OfPlayStore r => PlayStoreClient.reviewDate r
  end.

(** The row [saveReview] hands to [createReview]. *)
Definition review_row (review : ParsedReview) (a : AppWithAccount) (user : User) : Review :=
  match review with
  | OfAppStore r =>
      {| review_app_id := app_id (app a); review_user_id := user_id user;
         review_store := store (app a);
         external_review_id := AppStoreClient.externalId r;
         rating := AppStoreClient.rating r;
         title := AppStoreClient.title r;
         body := AppStoreClient.body r;
         reviewer_name := Some (AppStoreClient.reviewerName r);
         review_date := Some (AppStoreClient.reviewDate r);
         territory := Some (AppStoreClient.territory r);
         app_version := None;
         status := pending |}
  | OfPlayStore r =>
      {| review_app_id := app_id (app a); review_user_id := user_id user;
         review_store := store (app a);
         external_review_id := PlayStoreClient.externalId r;
         rating := PlayStoreClient.rating r;
         title := PlayStoreClient.title r;
         body := PlayStoreClient.body r;
         reviewer_name := Some (PlayStoreClient.reviewerName r);
         review_date := Some (PlayStoreClient.reviewDate r);
         territory := Some (PlayStoreClient.language r);
         app_version := PlayStoreClient.parsed_appVersionName r;
         status := pending |}
  end.

(** [saveReview(review, app, user)]: [inr true] when a row was inserted,
    [inr false] when the review was already known, [inl] when the insert
    throws. *)
Definition saveReview (review : ParsedReview) (a : AppWithAccount) (user : User)
    (w : World) : (string + bool) * World :=
  match getReviewByExternalId (store (app a)) (externalId review) (db w) with
  | Some existingReview => (inr false, w)
  | None =>
      match createReview (review_row review a user) (db w) with
      | (inl message, d) => (inl message, with_db (λ _, d) w)
      | (inr None, d) => (inr false, with_db (λ _, d) w)
      | (inr (Some savedReview), d) => (inr true, with_db (λ _, d) w)
      end
  end.

(** [for (const review of reviews) { if (await saveReview(..)) newReviewCount++ }]:
    the count reached, the message of the error that ended the loop if
    one was thrown, and the world. *)
Fixpoint save_reviews (reviews : list ParsedReview) (a : AppWithAccount) (user : User)
    (newReviewCount : Z) (w : World) : Z * option string * World :=
  match reviews with
  | [] => (newReviewCount, None, w)
  | review :: rest =>
      match saveReview review a user w with
      | (inr saved, w1) =>
          save_reviews rest a user (if saved then newReviewCount + 1 else newReviewCount) w1
      | (inl message, w1) => (newReviewCount, Some message, w1)
      end
  end.

Definition sendSummaryNotification (telegramId newReviewCount : Z) (w : World) : World :=
  send telegramId (SummaryMessage newReviewCount) w.

Definition notifyCredentialError (telegramId : Z) (appName error : string) (w : World)
  : World :=
  send telegramId (CredentialErrorMessage appName error) w.

(** The [catch] block of [pollAppReviews]. *)
Definition on_poll_error (a : AppWithAccount) (user : User) (errorMessage : string)
    (w : World) : World :=
  if includes errorMessage "invalid" || includes errorMessage "Credentials"
  then notifyCredentialError (telegram_id user) (app_name (app a)) errorMessage w
  else w.

(** The connector call of [pollAppReviews], by [app.store]. *)
Definition fetch_for (fuel : nat) (V : Vendors) (a : AppWithAccount) (acc : Account)
    (lastPollAt : option Z) (w : World) : outcome (list ParsedReview) * World :=
  match store (app a) with
  | app_store =>
      match AppStoreClient.fetchReviewsWithAccount
              fuel (appStore V) acc (store_id (app a)) lastPollAt w with
      | (Returned rs, w1) => (Returned (OfAppStore <$> rs), w1)
      | (Thrown m, w1) => (Thrown m, w1)
      | (Pending, w1) => (Pending, w1)
      end
  | play_store =>
      match PlayStoreClient.fetchReviewsWithAccount
              fuel (playStore V) acc (store_id (app a)) lastPollAt w with
      | (Returned rs, w1) => (Returned (OfPlayStore <$> rs), w1)
      | (Thrown m, w1) => (Thrown m, w1)
      | (Pending, w1) => (Pending, w1)
      end
  end.

(** [pollAppReviews(app, user)] *)
Definition pollAppReviews (fuel : nat) (V : Vendors) (a : AppWithAccount) (user : User)
    (w : World) : outcome Z * World :=
  match account a with
  | None => (Returned 0, w)
  | Some acc =>
      if negb (is_valid acc) then (Returned 0, w)
      else
        let lastPollAt := last_poll_at (app a) in
        match fetch_for fuel V a acc lastPollAt w with
        | (Pending, w1) => (Pending, w1)
        | (Thrown errorMessage, w1) =>
            let w2 := on_poll_error a user errorMessage w1 in
            (Returned 0, with_db (updateAppLastPoll (clock w2) (app_id (app a))) w2)
        | (Returned reviews, w1) =>
            let '(newReviewCount, thrown, w2) := save_reviews reviews a user 0 w1 in
            let w3 :=
              match thrown with
              | Some errorMessage => on_poll_error a user errorMessage w2
              | None => w2
              end in
            (Returned newReviewCount,
             with_db (updateAppLastPoll (clock w3) (app_id (app a))) w3)
        end
  end.

(** [userApps : Map<string, { user; apps }>], in insertion order. *)
Definition UserApps := list (string * (User * list AppWithAccount)).

(** [if (!userApps.has(id)) userApps.set(id, { user, apps: [] });
     userApps.get(id)!.apps.push(app)] *)
Fixpoint push_app (userId : string) (user : User) (a : AppWithAccount) (m : UserApps)
  : UserApps :=
  match m with
  | [] => [(userId, (user, [a]))]
  | (k, (u, apps)) :: rest =>
      if decide (k = userId) then (k, (u, apps ++ [a])) :: rest
      else (k, (u, apps)) :: push_app userId user a rest
  end.

(** One iteration of the grouping loop. *)
Definition group_app (d : Database) (a : AppWithAccount) (m : UserApps) : UserApps :=
  match getUserById (app_user_id (app a)) d with
  | Some user => if user_is_active user then push_app (user_id user) user a m else m
  | None => m
  end.

Definition group_apps (d : Database) (apps : list AppWithAccount) : UserApps :=
  foldl (λ m a, group_app d a m) [] apps.

(** The inner loop of a cycle: one owner's apps, sequentially; an error
    thrown by [pollAppReviews] is logged and the loop goes on. *)
Fixpoint poll_user_apps (fuel : nat) (V : Vendors) (userAppList : list AppWithAccount)
    (user : User) (totalNewReviews : Z) (w : World) : outcome Z * World :=
  match userAppList with
  | [] => (Returned totalNewReviews, w)
  | a :: rest =>
      match pollAppReviews fuel V a user w with
      | (Returned newCount, w1) =>
          poll_user_apps fuel V rest user (totalNewReviews + newCount) w1
      | (Thrown _, w1) => poll_user_apps fuel V rest user totalNewReviews w1
      | (Pending, w1) => (Pending, w1)
      end
  end.

(** The summary sent after an owner's apps. *)
Definition summarize (user : User) (totalNewReviews : Z) (w : World) : World :=
  if totalNewReviews >? 0
  then sendSummaryNotification (telegram_id user) totalNewReviews w
  else w.

(** The outer loop of a cycle. *)
Fixpoint poll_users (fuel : nat) (V : Vendors) (userApps : UserApps) (w : World)
  : outcome unit * World :=
  match userApps with
  | [] => (Returned (), w)
  | (userId, (user, userAppList)) :: rest =>
      match poll_user_apps fuel V userAppList user 0 w with
      | (Returned totalNewReviews, w1) =>
          poll_users fuel V rest (summarize user totalNewReviews w1)
      | (Thrown m, w1) => (Thrown m, w1)
      | (Pending, w1) => (Pending, w1)
      end
  end.

(** The scheduler object: its [isPolling] field, and the world. *)
Record State := { isPolling : bool; world : World }.

(** The [try] block of [pollAllApps]. *)
Definition poll_cycle (fuel : nat) (V : Vendors) (w : World) : outcome unit * World :=
  let apps := getAllActiveAppsWithAccounts (db w) in
  poll_users fuel V (group_apps (db w) apps) w.

(** [pollAllApps()], run without interleaving: [Pending] when a vendor
    call has not answered within the budget, the cycle then still being
    in progress. *)
Definition pollAllApps (fuel : nat) (V : Vendors) (s : State) : outcome unit * State :=
  if isPolling s then (Returned (), s)
  else
    match poll_cycle fuel V (world s) with
    | (Pending, w1) => (Pending, {| isPolling := true; world := w1 |})
    | (_, w1) => (Returned (), {| isPolling := false; world := w1 |})
    end.

(** ** Interleaved executions

    Several invocations of [pollAllApps] (the initial poll, the cron
    ticks) live on one event loop.  An invocation runs from one [await]
    to the next without interruption; [pc] records where it is
    suspended.  The test and the setting of [isPolling] are in one
    stretch, as no [await] separates them.  [pollAppReviews] is taken as
    one stretch: its inner awaits touch neither [isPolling] nor the
    position of the invocation. *)
Inductive pc :=
| Called
| AwaitApps
| Grouping (todo : list AppWithAccount) (userApps : UserApps)
| NextUser (userApps : UserApps)
| PollingUser (user : User) (todo : list AppWithAccount) (totalNewReviews : Z)
              (rest : UserApps)
| Settled.

(** The next uninterrupted stretch of one invocation; [None] when it has
    settled or is still awaiting a vendor. *)
Definition step (fuel : nat) (V : Vendors) (p : pc) (s : State) : option (pc * State) :=
  match p with
  | Called =>
      if isPolling s then Some (Settled, s)
      else Some (AwaitApps, {| isPolling := true; world := world s |})
  | AwaitApps => Some (Grouping (getAllActiveAppsWithAccounts (db (world s))) [], s)
  | Grouping [] m => Some (NextUser m, s)
  | Grouping (a :: todo) m => Some (Grouping todo (group_app (db (world s)) a m), s)
  | NextUser [] => Some (Settled, {| isPolling := false; world := world s |})
  | NextUser ((_, (user, userAppList)) :: rest) =>
      Some (PollingUser user userAppList 0 rest, s)
  | PollingUser user [] total rest =>
      Some (NextUser rest,
            {| isPolling := isPolling s; world := summarize user total (world s) |})
  | PollingUser user (a :: todo) total rest =>
      match pollAppReviews fuel V a user (world s) with
      | (Returned newCount, w1) =>
          Some (PollingUser user todo (total + newCount) rest,
                {| isPolling := isPolling s; world := w1 |})
      | (Thrown _, w1) =>
          Some (PollingUser user todo total rest,
                {| isPolling := isPolling s; world := w1 |})
      | (Pending, _) => None
      end
  | Settled => None
  end.

(** The event loop: the scheduler state and the invocations in flight. *)
Record System := { state : State; tasks : list pc }.

Definition running (p : pc) : bool :=
  match p with
  | Called | Settled => false
  | _ => true
  end.

Inductive sys_step (fuel : nat) (V : Vendors) : System → System → Prop :=
| Trigger sys :
    (* a cron tick or [start()] calls [pollAllApps()] *)
    sys_step fuel V sys {| state := state sys; tasks := tasks sys ++ [Called] |}
| Resume sys i p p' s' :
    (* the event loop resumes invocation [i] *)
    tasks sys !! i = Some p →
    step fuel V p (state sys) = Some (p', s') →
    sys_step fuel V sys {| state := s'; tasks := <[i := p']> (tasks sys) |}
| Elsewhere sys w' :
    (* anything else on the event loop (a manual poll, a bot handler, the
       passing of time): it may change the world, not [isPolling] *)
    sys_step fuel V sys
      {| state := {| isPolling := isPolling (state sys); world := w' |};
         tasks := tasks sys |}.

Definition initial (w : World) : System :=
  {| state := {| isPolling := false; world := w |}; tasks := [] |}.

(** ** Manual polls, notifications' markup and the scheduler's life cycle *)

(** [escapeHtml(text)]: three global replacements, in this order. *)
Definition escapeHtml (text : string) : string :=
  replace_all ">" "&gt;" (replace_all "<" "&lt;" (replace_all "&" "&amp;" text)).

(** An entry of the array [pollUserApps] returns. *)
Record PollResult := { appName : string; newReviews : Z }.

(** The [for (const app of apps)] loop of [pollUserApps]: the account of
    each app is read again from the database when its turn comes. *)
Fixpoint poll_listed_apps (fuel : nat) (V : Vendors) (apps : list App) (user : User)
    (results : list PollResult) (w : World) : outcome (list PollResult) * World :=
  match apps with
  | [] => (Returned results, w)
  | a :: rest =>
      match getAppWithAccount (app_id a) (db w) with
      | None => poll_listed_apps fuel V rest user results w
      | Some appWithAccount =>
          if negb (account_is_valid appWithAccount)
          then poll_listed_apps fuel V rest user results w
          else
            match pollAppReviews fuel V appWithAccount user w with
            | (Returned newCount, w1) =>
                poll_listed_apps fuel V rest user
                  (results ++ [{| appName := app_name a; newReviews := newCount |}]) w1
            | (Thrown message, w1) => (Thrown message, w1)
            | (Pending, w1) => (Pending, w1)
            end
      end
  end.

(** [pollUserApps(userId)] *)
Definition pollUserApps (fuel : nat) (V : Vendors) (userId : string) (w : World)
  : outcome (list PollResult) * World :=
  match getUserById userId (db w) with
  | None => (Returned [], w)
  | Some user => poll_listed_apps fuel V (getAppsByUser userId (db w)) user [] w
  end.

(** [let totalNew = 0; for (const result of results) totalNew += result.newReviews]
    of the [/poll] command. *)
Definition totalNew (results : list PollResult) : Z :=
  foldl (λ total result, total + newReviews result) 0 results.

(** node-cron as the scheduler uses it: [cron.schedule] validates the
    expression and throws for one it rejects, [schedule_error] giving the
    message; otherwise it hands out a task, which is started until its
    [stop()] is called. *)
Record NodeCron := { schedule_error : string → option string }.

Record ScheduledTask := { cronExpression : string; task_started : bool }.

Definition stop_task (t : ScheduledTask) : ScheduledTask :=
  {| cronExpression := cronExpression t; task_started := false |}.

(** The scheduler object with its life-cycle fields; the interval is an
    integer or [NaN] ([None]), [cronJob] is the position of its task among
    the scheduled ones, [isPolling] is in the state of [system]. *)
Record Scheduler := {
  pollIntervalMinutes : option Z;
  isRunning : bool;
  cronJob : option nat;
  scheduled : list ScheduledTask;
  system : System }.

(** A call [this.pollAllApps()] that is not awaited: the invocation runs
    to its first [await] at once and stays on the event loop. *)
Definition call_pollAllApps (fuel : nat) (V : Vendors) (sys : System) : System :=
  match step fuel V Called (state sys) with
  | Some (p, s) => {| state := s; tasks := tasks sys ++ [p] |}
  | None => {| state := state sys; tasks := tasks sys ++ [Called] |}
  end.

(** [`*/${interval} * * * *`] *)
Definition cron_expression (interval : option Z) : string :=
  "*/" +:+ match interval with Some n => pretty n | None => "NaN" end +:+ " * * * *".

(** [start()]: the initial poll is launched before the task is scheduled,
    and [isRunning] is set after it; an error thrown by [cron.schedule]
    leaves the method there.  The first component is the message of the
    error thrown, [None] when the method returns. *)
Definition start (fuel : nat) (V : Vendors) (cron : NodeCron) (s : Scheduler)
  : option string * Scheduler :=
  if isRunning s then (None, s)
  else
    let interval := pollIntervalMinutes s in
    let sys1 := call_pollAllApps fuel V (system s) in
    let cronExpression := cron_expression interval in
    match schedule_error cron cronExpression with
    | Some message =>
        (Some message,
         {| pollIntervalMinutes := interval; isRunning := isRunning s;
            cronJob := cronJob s; scheduled := scheduled s; system := sys1 |})
    | None =>
        (None,
         {| pollIntervalMinutes := interval;
            isRunning := true;
            cronJob := Some (length (scheduled s));
            scheduled := scheduled s
                         ++ [{| cronExpression := cronExpression; task_started := true |}];
            system := sys1 |})
    end.

(** [stop()] *)
Definition stop (s : Scheduler) : Scheduler :=
  {| pollIntervalMinutes := pollIntervalMinutes s;
     isRunning := false;
     cronJob := None;
     scheduled :=
       match cronJob s with
       | Some job => alter stop_task job (scheduled s)
       | None => scheduled s
       end;
     system := system s |}.

(** The callback of the [i]-th scheduled task, fired by node-cron when the
    task is started and its expression matches the time. *)
Definition tick (fuel : nat) (V : Vendors) (i : nat) (s : Scheduler) : Scheduler :=
  match scheduled s !! i with
  | Some t =>
      if task_started t
      then {| pollIntervalMinutes := pollIntervalMinutes s; isRunning := isRunning s;
              cronJob := cronJob s; scheduled := scheduled s;
              system := call_pollAllApps fuel V (system s) |}
      else s
  | None => s
  end.

(** A scheduler as its constructor leaves it:
    [config?.pollIntervalMinutes || parseInt(process.env.POLL_INTERVAL_MINUTES || '15', 10)],
    with [configured] the interval of [config] when it has one and
    [parsed] what [parseInt] returns, [None] for [NaN]. *)
Definition new (configured parsed : option Z) (w : World) : Scheduler :=
  {| pollIntervalMinutes :=
       match configured with
       | Some n => if decide (n = 0) then parsed else Some n
       | None => parsed
       end;
     isRunning := false; cronJob := None;
     scheduled := []; system := initial w |}.

End ReviewScheduler.

(* ===================================================================== *)
(** * Concrete vendors, worlds and inputs used in examples                *)
(* ===================================================================== *)

Module Examples.
Import JS SupabaseService Env.

(** A 400-character draft whose only full stop is at index 300. *)
Definition draft_400 : chars :=
  replicate 300 "a"%char ++ ["."%char] ++ replicate 99 "b"%char.

Definition empty_db : Database :=
  {| users := []; accounts := []; apps := []; reviews := [] |}.

Definition empty_world : World :=
  {| clock := 0; db := empty_db; outbox := []; requests := [] |}.

(** A Play Store that accepts every credential and reply and lists nothing. *)
Definition quiet_play : PlayStoreClient.Androidpublisher :=
  {| PlayStoreClient.createClient_error := λ _, None;
     PlayStoreClient.reviews_list := λ _ _ _ _,
       inr {| PlayStoreClient.reviews := None; PlayStoreClient.nextPageToken := None |};
     PlayStoreClient.reviews_reply_error := λ _ _ _ _, None |}.

(** An App Store listing of three pages, newest first: reviews created at
    130 and 120, then 110, 100 and 90, then 80. *)
Definition as_review (t : Z) : AppStoreClient.AppStoreReview :=
  {| AppStoreClient.id := "as-" +:+ pretty t;
     AppStoreClient.attr_rating := 4;
     AppStoreClient.attr_title := Some "Fine";
     AppStoreClient.attr_body := "Works for me";
     AppStoreClient.reviewerNickname := "sam";
     AppStoreClient.createdDate := t;
     AppStoreClient.attr_territory := "USA";
     AppStoreClient.response_data := false |}.

Definition paged_appstore : AppStoreClient.AppStoreConnect :=
  {| AppStoreClient.generateToken_error := λ _ _ _, None;
     AppStoreClient.get_customerReviews := λ _ _ page,
       match page with
       | O => inr {| AppStoreClient.data := [as_review 130; as_review 120];
                     AppStoreClient.links_next := Some "page-1" |}
       | S O => inr {| AppStoreClient.data := [as_review 110; as_review 100; as_review 90];
                       AppStoreClient.links_next := Some "page-2" |}
       | _ => inr {| AppStoreClient.data := [as_review 80];
                     AppStoreClient.links_next := None |}
       end;
     AppStoreClient.post_customerReviewResponse_error := λ _ _ _, None |}.

(** The same listing on the Play Store, in seconds; the review modified at
    120 s already has a developer reply. *)
Definition ps_review (seconds : Z) (replied : bool) : PlayStoreClient.Review :=
  {| PlayStoreClient.reviewId := Some ("ps-" +:+ pretty seconds);
     PlayStoreClient.authorName := Some "kim";
     PlayStoreClient.comments :=
       Some [ {| PlayStoreClient.userComment :=
                   Some {| PlayStoreClient.text := Some "Nice";
                           PlayStoreClient.lastModified_seconds := Some seconds;
                           PlayStoreClient.starRating := Some 5;
                           PlayStoreClient.reviewerLanguage := Some "en";
                           PlayStoreClient.appVersionName := Some "1.2" |};
                 PlayStoreClient.developerComment := false |};
              {| PlayStoreClient.userComment := None;
                 PlayStoreClient.developerComment := replied |} ] |}.

Definition paged_play : PlayStoreClient.Androidpublisher :=
  {| PlayStoreClient.createClient_error := λ _, None;
     PlayStoreClient.reviews_list := λ _ _ page _,
       match page with
       | O => inr {| PlayStoreClient.reviews := Some [ps_review 130 false; ps_review 120 true];
                     PlayStoreClient.nextPageToken := Some "t1" |}
       | S O => inr {| PlayStoreClient.reviews :=
                         Some [ps_review 110 false; ps_review 100 false; ps_review 90 false];
                       PlayStoreClient.nextPageToken := Some "t2" |}
       | _ => inr {| PlayStoreClient.reviews := Some [ps_review 80 false];
                     PlayStoreClient.nextPageToken := None |}
       end;
     PlayStoreClient.reviews_reply_error := λ _ _ _ _, None |}.

Definition apple_account : Account :=
  {| account_id := "acc-apple"; credential_data := "p8-key";
     apple_key_id := Some "KEY1"; apple_issuer_id := Some "ISSUER1";
     is_valid := true; validation_error := None |}.

Definition google_account : Account :=
  {| account_id := "acc-google"; credential_data := "{}";
     apple_key_id := None; apple_issuer_id := None;
     is_valid := true; validation_error := None |}.

(** An App Store listing of [n + 1] pages of one review each: every page
    but the last links to a next one. *)
Definition long_appstore (n : nat) : AppStoreClient.AppStoreConnect :=
  {| AppStoreClient.generateToken_error := λ _ _ _, None;
     AppStoreClient.get_customerReviews := λ _ _ page,
       inr {| AppStoreClient.data := [as_review (1000 - Z.of_nat page)];
              AppStoreClient.links_next :=
                if decide (page < n)%nat then Some "next" else None |};
     AppStoreClient.post_customerReviewResponse_error := λ _ _ _, None |}.

(** An App Store listing whose every page links to a next one. *)
Definition endless_appstore : AppStoreClient.AppStoreConnect :=
  {| AppStoreClient.generateToken_error := λ _ _ _, None;
     AppStoreClient.get_customerReviews := λ _ _ page,
       inr {| AppStoreClient.data := [as_review (1000 - Z.of_nat page)];
              AppStoreClient.links_next := Some "next" |};
     AppStoreClient.post_customerReviewResponse_error := λ _ _ _, None |}.

(** A Play Store that answers every listing and reply with [message]. *)
Definition failing_play (message : string) : PlayStoreClient.Androidpublisher :=
  {| PlayStoreClient.createClient_error := λ _, None;
     PlayStoreClient.reviews_list := λ _ _ _ _, inl message;
     PlayStoreClient.reviews_reply_error := λ _ _ _ _, Some message |}.

(** An App Store Connect that answers every request with [message]. *)
Definition failing_appstore (message : string) : AppStoreClient.AppStoreConnect :=
  {| AppStoreClient.generateToken_error := λ _ _ _, None;
     AppStoreClient.get_customerReviews := λ _ _ _, inl message;
     AppStoreClient.post_customerReviewResponse_error := λ _ _ _, Some message |}.

Definition permission_denied : string := "The caller does not have permission (403)".
Definition connection_reset : string := "read ECONNRESET".

(** A world whose database holds the two accounts. *)
Definition accounts_world : World :=
  {| clock := 5000;
     db := {| users := []; accounts := [apple_account; google_account];
              apps := []; reviews := [] |};
     outbox := []; requests := [] |}.

(** Two owners.  Alice monitors three apps: one on the App Store with two
    unanswered reviews, one on the Play Store whose only review is older
    than its cursor, one on the Play Store with five new reviews.  Bob
    monitors one app with nothing new. *)
Definition alice : User :=
  {| user_id := "u-alice"; telegram_id := 1001; user_is_active := true |}.
Definition bob : User :=
  {| user_id := "u-bob"; telegram_id := 1002; user_is_active := true |}.

Definition notes_app : App :=
  {| app_id := "app-notes"; app_user_id := "u-alice"; app_account_id := "acc-apple";
     app_name := "Notes"; store_id := "6446"; store := app_store;
     is_active := true; last_poll_at := None |}.
Definition tasks_app : App :=
  {| app_id := "app-tasks"; app_user_id := "u-alice"; app_account_id := "acc-google";
     app_name := "Tasks"; store_id := "com.example.tasks"; store := play_store;
     is_active := true; last_poll_at := Some 100000 |}.
Definition mail_app : App :=
  {| app_id := "app-mail"; app_user_id := "u-alice"; app_account_id := "acc-google";
     app_name := "Mail"; store_id := "com.example.mail"; store := play_store;
     is_active := true; last_poll_at := None |}.
Definition bobs_app : App :=
  {| app_id := "app-bob"; app_user_id := "u-bob"; app_account_id := "acc-google";
     app_name := "Chess"; store_id := "com.example.tasks"; store := play_store;
     is_active := true; last_poll_at := Some 100000 |}.

Definition demo_world : World :=
  {| clock := 300000;
     db := {| users := [alice; bob];
              accounts := [apple_account; google_account];
              apps := [notes_app; tasks_app; mail_app; bobs_app];
              reviews := [] |};
     outbox := []; requests := [] |}.

Definition demo_appstore : AppStoreClient.AppStoreConnect :=
  {| AppStoreClient.generateToken_error := λ _ _ _, None;
     AppStoreClient.get_customerReviews := λ _ _ _,
       inr {| AppStoreClient.data := [as_review 130; as_review 120];
              AppStoreClient.links_next := None |};
     AppStoreClient.post_customerReviewResponse_error := λ _ _ _, None |}.

Definition demo_play : PlayStoreClient.Androidpublisher :=
  {| PlayStoreClient.createClient_error := λ _, None;
     PlayStoreClient.reviews_list := λ pkg _ _ _,
       if decide (pkg = "com.example.mail")
       then inr {| PlayStoreClient.reviews :=
                     Some [ps_review 210 false; ps_review 209 false; ps_review 208 false;
                           ps_review 207 false; ps_review 206 false];
                   PlayStoreClient.nextPageToken := None |}
       else inr {| PlayStoreClient.reviews := Some [ps_review 90 false];
                   PlayStoreClient.nextPageToken := None |};
     PlayStoreClient.reviews_reply_error := λ _ _ _ _, None |}.

Definition demo_vendors : ReviewScheduler.Vendors :=
  {| ReviewScheduler.appStore := demo_appstore; ReviewScheduler.playStore := demo_play |}.

Definition notes_with_account : AppWithAccount := with_account (db demo_world) notes_app.

Definition notes_review : ReviewScheduler.ParsedReview :=
  ReviewScheduler.OfAppStore (AppStoreClient.parse_unresponded (as_review 130)).



Definition idle (w : World) : ReviewScheduler.State :=
  {| ReviewScheduler.isPolling := false; ReviewScheduler.world := w |}.

Definition busy (w : World) : ReviewScheduler.State :=
  {| ReviewScheduler.isPolling := true; ReviewScheduler.world := w |}.

(** Alice alone, with her two Play Store apps on one account. *)
Definition play_world : World :=
  {| clock := 300000;
     db := {| users := [alice]; accounts := [google_account];
              apps := [tasks_app; mail_app]; reviews := [] |};
     outbox := []; requests := [] |}.

(** Vendors that reject every credential. *)
Definition rejecting_vendors : ReviewScheduler.Vendors :=
  {| ReviewScheduler.appStore := failing_appstore permission_denied;
     ReviewScheduler.playStore := failing_play permission_denied |}.

(** An App Store Connect that answers every request with a bare 401. *)
Definition unauthorized_appstore : AppStoreClient.AppStoreConnect :=
  failing_appstore (AppStoreClient.request_error_message 401 "Unauthorized" None).

(** An Apple account whose key id was never stored. *)
Definition keyless_account : Account :=
  {| account_id := "acc-apple"; credential_data := "p8-key";
     apple_key_id := None; apple_issuer_id := Some "ISSUER1";
     is_valid := true; validation_error := None |}.

Definition keyless_notes : AppWithAccount :=
  {| app := notes_app; account := Some keyless_account |}.

(** A Play Store review whose user comment carries no star rating. *)
Definition ps_unrated (seconds : Z) : PlayStoreClient.Review :=
  {| PlayStoreClient.reviewId := Some ("ps-" +:+ pretty seconds);
     PlayStoreClient.authorName := None;
     PlayStoreClient.comments :=
       Some [ {| PlayStoreClient.userComment :=
                   Some {| PlayStoreClient.text := Some "Hm";
                           PlayStoreClient.lastModified_seconds := Some seconds;
                           PlayStoreClient.starRating := None;
                           PlayStoreClient.reviewerLanguage := None;
                           PlayStoreClient.appVersionName := None |};
                 PlayStoreClient.developerComment := false |} ] |}.

(** A Play Store listing of one page: an unrated review, then a rated one. *)
Definition unrated_first_vendors : ReviewScheduler.Vendors :=
  {| ReviewScheduler.appStore := demo_appstore;
     ReviewScheduler.playStore :=
       {| PlayStoreClient.createClient_error := λ _, None;
          PlayStoreClient.reviews_list := λ _ _ _ _,
            inr {| PlayStoreClient.reviews := Some [ps_unrated 210; ps_review 209 false];
                   PlayStoreClient.nextPageToken := None |};
          PlayStoreClient.reviews_reply_error := λ _ _ _ _, None |} |}.

(** A review row of Alice's Notes app, by external id, date and status. *)
Definition notes_row (externalId : string) (date : option Z) (st : ReviewStatus) : Review :=
  {| review_app_id := "app-notes"; review_user_id := "u-alice"; review_store := app_store;
     external_review_id := externalId; rating := 4; title := None; body := "Fine";
     reviewer_name := Some "sam"; review_date := date; territory := Some "USA";
     app_version := None; status := st |}.

Definition reviewed_db : Database :=
  {| users := [alice]; accounts := [apple_account]; apps := [notes_app];
     reviews := [notes_row "r1" (Some 100) pending; notes_row "r2" None notified;
                 notes_row "r3" (Some 300) responded; notes_row "r4" (Some 200) pending] |}.



(** A database that sorts the rows by date, keeping tied rows as the
    table has them. *)
Definition sorting : Ordering := λ _ rows, merge_sort date_desc rows.

(** A database that lists rows of one date as the table has them for the
    even statements, and in reverse for the odd ones. *)
Definition alternating : Ordering := λ n rows, if Nat.even n then rows else reverse rows.

(** 1001 pending reviews of one date. *)
Definition tied_db : Database :=
  {| users := [alice]; accounts := [apple_account]; apps := [notes_app];
     reviews := (λ i, notes_row (pretty i) (Some 100) pending) <$> seq 0 1001 |}.

(** node-cron rejecting a step of 0 and a step that is no number. *)
Definition strict_cron : ReviewScheduler.NodeCron :=
  {| ReviewScheduler.schedule_error := λ expression,
       if decide (expression = "*/0 * * * *" ∨ expression = "*/NaN * * * *")
       then Some "invalid expression"
       else None |}.

End Examples.

(* ===================================================================== *)
(** * Reference notions used to state the properties                      *)
(* ===================================================================== *)

Module Reference.
Import JS SupabaseService Env.

(** The elements of [xs] that precede the first one satisfying [old]. *)
Fixpoint before_first {A} (old : A → bool) (xs : list A) : list A :=
  match xs with
  | [] => []
  | x :: rest => if old x then [] else x :: before_first old rest
  end.

(** The reviews of a Play Store page that carry a user comment, with it. *)
Definition commented (page : list PlayStoreClient.Review)
  : list (PlayStoreClient.Review * PlayStoreClient.UserComment) :=
  omap (λ review, (λ c, (review, c)) <$> PlayStoreClient.first_userComment review) page.

(** The requests issued between two worlds, the later extending the earlier. *)
Definition issued (w w1 : World) : list request :=
  drop (length (requests w)) (requests w1).

(** The loop tests and the parsers of the two connectors, on the items of
    a page; [as_] for the App Store, [ps_] for the Play Store. *)
Definition as_old (lastPollAt : option Z) (r : AppStoreClient.AppStoreReview) : bool :=
  AppStoreClient.not_newer lastPollAt (AppStoreClient.createdDate r).

Definition ps_old (now : Z) (lastPollAt : option Z)
    (rc : PlayStoreClient.Review * PlayStoreClient.UserComment) : bool :=
  PlayStoreClient.not_newer lastPollAt (PlayStoreClient.reviewDate_of now rc.2).

Definition ps_parse (now : Z) (rc : PlayStoreClient.Review * PlayStoreClient.UserComment)
  : PlayStoreClient.ParsedPlayStoreReview :=
  PlayStoreClient.parse now rc.1 rc.2.

(** A parsed review is strictly newer than the cursor [c]. *)
Definition as_newer (c : Z) (r : AppStoreClient.ParsedAppStoreReview) : Prop :=
  c < AppStoreClient.reviewDate r.

Definition ps_newer (c : Z) (r : PlayStoreClient.ParsedPlayStoreReview) : Prop :=
  c < PlayStoreClient.reviewDate r.

(** Every page the Play Store serves for the listing holds at least one
    review with a user comment. *)
Definition productive (api : PlayStoreClient.Androidpublisher) (pkg cred : string) : Prop :=
  ∀ page asked resp,
    PlayStoreClient.reviews_list api pkg cred page asked = inr resp →
    ∃ rs, PlayStoreClient.reviews resp = Some rs ∧ commented rs ≠ [].

(** What a connector call may change: the requests issued and, through
    [invalidateAccount], the accounts table. *)
Definition connector_frame (w w1 : World) : Prop :=
  clock w1 = clock w ∧ outbox w1 = outbox w
  ∧ users (db w1) = users (db w) ∧ apps (db w1) = apps (db w)
  ∧ reviews (db w1) = reviews (db w).

(** A review is on a page the Play Store serves for the listing. *)
Definition ps_served (api : PlayStoreClient.Androidpublisher) (pkg cred : string)
    (review : PlayStoreClient.Review) : Prop :=
  ∃ page asked resp rs,
    PlayStoreClient.reviews_list api pkg cred page asked = inr resp
    ∧ PlayStoreClient.reviews resp = Some rs ∧ review ∈ rs.

(** A review is on a page the App Store serves for the query. *)
Definition as_served (api : AppStoreClient.AppStoreConnect) (query : ReviewsQuery)
    (key : string) (review : AppStoreClient.AppStoreReview) : Prop :=
  ∃ page resp,
    AppStoreClient.get_customerReviews api query key page = inr resp
    ∧ review ∈ AppStoreClient.data resp.

(** [UNIQUE(store, external_review_id)] holds of the reviews table. *)
Definition review_key (r : Review) : Store * string :=
  (review_store r, external_review_id r).

Definition reviews_unique (d : Database) : Prop := NoDup (review_key <$> reviews d).

(** The database after [row] has been inserted into [reviews]. *)
Definition insert_review (row : Review) (d : Database) : Database :=
  {| users := users d; accounts := accounts d; apps := apps d;
     reviews := reviews d ++ [row] |}.

(** What saving reviews may change: the reviews table, by appending. *)
Definition save_frame (w w1 : World) : Prop :=
  clock w1 = clock w ∧ outbox w1 = outbox w ∧ requests w1 = requests w
  ∧ users (db w1) = users (db w) ∧ accounts (db w1) = accounts (db w)
  ∧ apps (db w1) = apps (db w).

Definition is_summary (m : Z * message) : bool :=
  match m.2 with
  | SummaryMessage _ => true
  | CredentialErrorMessage _ _ => false
  end.

(** The row update of [updateAppLastPoll]. *)
Definition advance_cursor (now : Z) (appId : string) (a : App) : App :=
  if decide (app_id a = appId) then set_last_poll_at now a else a.


(** The rows and messages that appeared between two worlds. *)
Definition new_reviews (w w1 : World) : list Review :=
  drop (length (reviews (db w))) (reviews (db w1)).

Definition new_messages (w w1 : World) : list (Z * message) :=
  drop (length (outbox w)) (outbox w1).

(** A parsed Play Store review is the parse of a review the vendor served,
    and its flag tells whether that review carries a developer comment. *)
Definition ps_parsed_from (api : PlayStoreClient.Androidpublisher) (pkg cred : string)
    (r : PlayStoreClient.ParsedPlayStoreReview) : Prop :=
  ∃ now review comment,
    ps_served api pkg cred review
    ∧ PlayStoreClient.first_userComment review = Some comment
    ∧ r = PlayStoreClient.parse now review comment
    ∧ PlayStoreClient.hasResponse r = PlayStoreClient.has_developerComment review.

Definition as_parsed_from (api : AppStoreClient.AppStoreConnect) (query : ReviewsQuery)
    (key : string) (r : AppStoreClient.ParsedAppStoreReview) : Prop :=
  ∃ review, as_served api query key review ∧ r = AppStoreClient.parse_unresponded review.

(** The rows of [rows] that belong to an owner, and the summary a cycle
    owes the owner of a group for them: one message reporting their number
    when there are any, none otherwise. *)
Definition owner_rows (u : User) (rows : list Review) : list Review :=
  filter (λ row, review_user_id row = user_id u) rows.

Definition owner_of (g : string * (User * list AppWithAccount)) : User := g.2.1.

Definition expected_summary (rows : list Review)
    (g : string * (User * list AppWithAccount)) : option (Z * message) :=
  let n := Z.of_nat (length (owner_rows (owner_of g) rows)) in
  if n >? 0 then Some (telegram_id (owner_of g), SummaryMessage n) else None.

Definition summaries (msgs : list (Z * message)) : list (Z * message) :=
  filter (λ m, is_summary m = true) msgs.

(** The number of invocations of [pollAllApps] that are past the guard and
    have not settled, and the invariant that ties it to the guard flag. *)
Definition b2n (b : bool) : nat := if b then 1%nat else 0%nat.

Definition running_count (ts : list ReviewScheduler.pc) : nat :=
  length (filter (λ p, ReviewScheduler.running p = true) ts).

Definition guard_invariant (sys : ReviewScheduler.System) : Prop :=
  running_count (ReviewScheduler.tasks sys)
  = if ReviewScheduler.isPolling (ReviewScheduler.state sys) then 1%nat else 0%nat.

(** One invocation running alone: from one suspension point to the next. *)
Definition solo_step (fuel : nat) (V : ReviewScheduler.Vendors)
    (x y : ReviewScheduler.pc * ReviewScheduler.State) : Prop :=
  ReviewScheduler.step fuel V x.1 x.2 = Some y.

(** ** Notions used for the further properties of the code *)

(** The text [escapeHtml] writes for one character. *)
Definition entity (c : Ascii.ascii) : string :=
  if decide (c = "&"%char) then "&amp;"
  else if decide (c = "<"%char) then "&lt;"
  else if decide (c = ">"%char) then "&gt;"
  else String c EmptyString.

(** Escaping in one pass, character by character. *)
Fixpoint escape_each (text : string) : string :=
  match text with
  | EmptyString => EmptyString
  | String c rest => entity c +:+ escape_each rest
  end.

(** Reading escaped text back: the three entities stand for their
    characters. *)
Fixpoint unescape (s : string) : string :=
  match s with
  | EmptyString => EmptyString
  | String c rest =>
      if decide (c = "&"%char) then
        match rest with
        | String "a" (String "m" (String "p" (String ";" rest'))) =>
            String "&" (unescape rest')
        | String "l" (String "t" (String ";" rest')) => String "<" (unescape rest')
        | String "g" (String "t" (String ";" rest')) => String ">" (unescape rest')
        | _ => String c (unescape rest)
        end
      else String c (unescape rest)
  end.

(** Every ampersand of [s] starts one of the three entities. *)
Definition ampersands_are_entities (s : string) : Prop :=
  ∀ pre post, s = pre +:+ String "&" post →
    ∃ post', post = "amp;" +:+ post' ∨ post = "lt;" +:+ post' ∨ post = "gt;" +:+ post'.

(** What the constructor and [tryConsume] maintain: the limit is not
    negative and a stored count lies between 1 and the limit (or is 1 when
    the limit is 0). *)
Definition limiter_ok (rl : RateLimiter.t) : Prop :=
  0 ≤ RateLimiter.limit rl
  ∧ ∀ key st, RateLimiter.buckets rl !! key = Some st →
              1 ≤ RateLimiter.count st ≤ Z.max 1 (RateLimiter.limit rl).

(** Consumptions of any keys at any instants, oldest first. *)
Definition consume_each (calls : list (Z * string)) (rl : RateLimiter.t) : RateLimiter.t :=
  foldl (λ rl call, (RateLimiter.tryConsume call.1 call.2 rl).2) rl calls.

(** Every page App Store Connect serves for the query holds a review. *)
Definition as_productive (api : AppStoreClient.AppStoreConnect) (query : ReviewsQuery)
    (key : string) : Prop :=
  ∀ page resp,
    AppStoreClient.get_customerReviews api query key page = inr resp →
    AppStoreClient.data resp ≠ [].

(** A record returned by [AppStoreClient.fetchReviews] is the parse of a
    review served for the query. *)
Definition as_listed_from (api : AppStoreClient.AppStoreConnect) (query : ReviewsQuery)
    (key : string) (r : AppStoreClient.ParsedAppStoreReview) : Prop :=
  ∃ review, as_served api query key review ∧ r = AppStoreClient.parse review.

(** A request for a page of the listing of [pkg] that asks for between 1
    and 100 reviews, and no more than [M]. *)
Definition sized_listing_request (pkg : string) (M : Z) (r : request) : Prop :=
  ∃ asked page, r = PlayReviewsList pkg asked page ∧ 1 ≤ asked ≤ 100 ∧ asked ≤ M.

(** The owner of an app exists and is active: the test of the grouping
    loop. *)
Definition owner_is_active (d : Database) (a : AppWithAccount) : bool :=
  match getUserById (app_user_id (app a)) d with
  | Some user => user_is_active user
  | None => false
  end.

(** The apps a cycle polls, in the order it polls them. *)
Definition polled (groups : ReviewScheduler.UserApps) : list AppWithAccount :=
  groups ≫= (λ g, g.2.2).

(** What the grouping loop has built once it has gone through [apps]. *)
Definition grouped (d : Database) (apps : list AppWithAccount)
    (m : ReviewScheduler.UserApps) : Prop :=
  NoDup (m.*1)
  ∧ (∀ g, g ∈ m →
       getUserById g.1 d = Some (owner_of g) ∧ user_is_active (owner_of g) = true
       ∧ g.2.2 = filter (λ a, app_user_id (app a) = g.1) apps ∧ g.2.2 ≠ [])
  ∧ (∀ a, a ∈ apps → owner_is_active d a = true → app_user_id (app a) ∈ m.*1)
  ∧ polled m ≡ₚ filter (λ a, owner_is_active d a = true) apps.

(** The cursor of every row whose id is among [appIds] is set to [now]. *)
Definition advance_cursors (now : Z) (appIds : list string) (a : App) : App :=
  if decide (app_id a ∈ appIds) then set_last_poll_at now a else a.

(** An account row is as it was, or has been invalidated. *)
Definition account_decayed (old new : Account) : Prop :=
  new = old ∨ ∃ e, new = invalidate e old.

(** What can happen to a scheduler: [start()], returning or throwing,
    [stop()], the firing of a scheduled task, and any progress of the event
    loop. *)
Inductive life_step (fuel : nat) (V : ReviewScheduler.Vendors)
    (cron : ReviewScheduler.NodeCron)
  : ReviewScheduler.Scheduler → ReviewScheduler.Scheduler → Prop :=
| life_start s : life_step fuel V cron s (ReviewScheduler.start fuel V cron s).2
| life_stop s : life_step fuel V cron s (ReviewScheduler.stop s)
| life_tick s i : life_step fuel V cron s (ReviewScheduler.tick fuel V i s)
| life_loop s sys' :
    ReviewScheduler.sys_step fuel V (ReviewScheduler.system s) sys' →
    life_step fuel V cron s
      {| ReviewScheduler.pollIntervalMinutes := ReviewScheduler.pollIntervalMinutes s;
         ReviewScheduler.isRunning := ReviewScheduler.isRunning s;
         ReviewScheduler.cronJob := ReviewScheduler.cronJob s;
         ReviewScheduler.scheduled := ReviewScheduler.scheduled s;
         ReviewScheduler.system := sys' |}.

(** The scheduled tasks that are still started. *)
Definition live_tasks (s : ReviewScheduler.Scheduler) : list ReviewScheduler.ScheduledTask :=
  filter (λ t, ReviewScheduler.task_started t = true) (ReviewScheduler.scheduled s).

(** [cronJob] is null exactly when the scheduler is not running, and
    otherwise designates the one task that is started. *)
Definition life_cycle_ok (s : ReviewScheduler.Scheduler) : Prop :=
  length (live_tasks s) = (if ReviewScheduler.isRunning s then 1%nat else 0%nat)
  ∧ match ReviewScheduler.cronJob s with
    | Some job =>
        ReviewScheduler.isRunning s = true
        ∧ ∃ t, ReviewScheduler.scheduled s !! job = Some t
               ∧ ReviewScheduler.task_started t = true
    | None => ReviewScheduler.isRunning s = false
    end.

(** An invocation that cannot go on: settled, or awaiting a vendor. *)
Definition halted (fuel : nat) (V : ReviewScheduler.Vendors)
    (x : ReviewScheduler.pc * ReviewScheduler.State) : Prop :=
  ReviewScheduler.step fuel V x.1 x.2 = None.

(** ** Notions used for the cursor and for what is ingested *)





(** Where a fetched review stems from: on the Play Store from a review
    served for the package of the app that carries no developer comment, on
    the App Store from a review served in answer to the query that asks for
    the reviews without a published response. *)
Definition unresponded_at_vendor (V : ReviewScheduler.Vendors) (a : AppWithAccount)
    (acc : Account) (r : ReviewScheduler.ParsedReview) : Prop :=
  match r with
  | ReviewScheduler.OfPlayStore parsed =>
      ∃ now review comment,
        ps_served (ReviewScheduler.playStore V) (store_id (app a)) (credential_data acc)
                  review
        ∧ PlayStoreClient.first_userComment review = Some comment
        ∧ PlayStoreClient.has_developerComment review = false
        ∧ parsed = PlayStoreClient.parse now review comment
  | ReviewScheduler.OfAppStore parsed =>
      ∃ review,
        as_served (ReviewScheduler.appStore V)
                  (AppStoreClient.unresponded_query (store_id (app a)))
                  (credential_data acc) review
        ∧ parsed = AppStoreClient.parse_unresponded review
  end.

(** The database lists [rows] for every statement by [review_date]
    descending, the undated ones last, whatever it does with ties. *)
Definition orders_by_date (ordering : Ordering) (rows : list Review) : Prop :=
  ∀ n, ordering n rows ≡ₚ rows ∧ Sorted date_desc (ordering n rows).

End Reference.

(* ===================================================================== *)
(** * Properties                                                          *)
(* ===================================================================== *)

Section RateLimiterProps.
Import RateLimiter.

Lemma positive_limit_allows rl : 0 < limit rl → (0 <? limit rl) = true.
Proof. intros. by apply Z.ltb_lt. Qed.

(** No window is open for the key: a new one is opened. *)
Lemma tryConsume_opens now key rl :
  open_window now key rl = None →
  tryConsume now key rl =
    ({| allowed := 0 <? limit rl; remaining := Z.max (limit rl - 1) 0;
        result_resetAt := now + windowMs rl |},
     set_bucket key {| count := 1; resetAt := now + windowMs rl |} rl).
Proof.
  unfold open_window, tryConsume.
  destruct (buckets rl !! key) as [ex|]; [|done].
  destruct (Z.ltb_spec now (resetAt ex)); [done|].
  destruct (Z.geb_spec now (resetAt ex)); [done|lia].
Qed.

(** A window is open for the key: the count moves only when allowed. *)
Lemma tryConsume_within now key rl st :
  open_window now key rl = Some st →
  tryConsume now key rl =
    if count st + 1 <=? limit rl
    then ({| allowed := true; remaining := limit rl - (count st + 1);
             result_resetAt := resetAt st |},
          set_bucket key {| count := count st + 1; resetAt := resetAt st |} rl)
    else ({| allowed := false; remaining := 0; result_resetAt := resetAt st |}, rl).
Proof.
  unfold open_window, tryConsume.
  destruct (buckets rl !! key) as [ex|]; [|done].
  destruct (Z.ltb_spec now (resetAt ex)); [|done].
  intros [= ->].
  destruct (Z.geb_spec now (resetAt st)); [lia|].
  by destruct (count st + 1 <=? limit rl).
Qed.

Lemma tryConsume_refines now key rl :
  0 < limit rl → tryConsume now key rl = fixed_window_reference now key rl.
Proof.
  intros Hpos. unfold fixed_window_reference.
  destruct (open_window now key rl) as [st|] eqn:Hw.
  - by rewrite (tryConsume_within _ _ _ _ Hw).
  - rewrite (tryConsume_opens _ _ _ Hw), positive_limit_allows by done.
    by rewrite Z.max_l by lia.
Qed.

Lemma open_window_set_bucket now key st rl :
  open_window now key (set_bucket key st rl) =
    if now <? resetAt st then Some st else None.
Proof. unfold open_window, set_bucket; simpl. by rewrite lookup_insert_eq. Qed.

(** C8. [tryConsume] is the fixed-window counter of the specification:
    (1) with a positive limit it coincides, on every limiter state, instant
    and key, with the reference semantics written from the specification;
    (2) on the first consumption of a key, or once [now >= resetAt], the
    stored bucket becomes count 1 with reset time [now + windowMs], and the
    attempt is allowed when the limit is positive;
    (3) within an open window the attempt is allowed iff the incremented
    count does not exceed the limit, an allowed attempt stores the
    incremented count, and a rejected attempt leaves the limiter unchanged;
    (4) with limit 3 and a window of 1000 ms, four consumptions of one key
    inside the window are answered true, true, true, false, and a
    consumption once the window has elapsed is allowed and leaves the
    count at 1. *)
Theorem tryConsume_fixed_window :
  (∀ rl now key, 0 < limit rl →
     tryConsume now key rl = fixed_window_reference now key rl)
  ∧ (∀ rl now key, open_window now key rl = None →
       buckets (tryConsume now key rl).2 !! key
         = Some {| count := 1; resetAt := now + windowMs rl |}
       ∧ result_resetAt (tryConsume now key rl).1 = now + windowMs rl
       ∧ (0 < limit rl → allowed (tryConsume now key rl).1 = true))
  ∧ (∀ rl now key st, open_window now key rl = Some st →
       (allowed (tryConsume now key rl).1 = true ↔ count st + 1 ≤ limit rl)
       ∧ (allowed (tryConsume now key rl).1 = true →
          buckets (tryConsume now key rl).2 !! key
            = Some {| count := count st + 1; resetAt := resetAt st |})
       ∧ (allowed (tryConsume now key rl).1 = false →
          (tryConsume now key rl).2 = rl))
  ∧ (∀ key t0 t1 t2 t3 t4,
       t1 < t0 + 1000 → t2 < t0 + 1000 → t3 < t0 + 1000 → t0 + 1000 ≤ t4 →
       (consume_all key [t0; t1; t2; t3] (new 3 1000)).1 = [true; true; true; false]
       ∧ let rl4 := (consume_all key [t0; t1; t2; t3] (new 3 1000)).2 in
         allowed (tryConsume t4 key rl4).1 = true
         ∧ count <$> buckets (tryConsume t4 key rl4).2 !! key = Some 1).
Proof.
  split; [exact (λ rl now key, tryConsume_refines now key rl)|].
  split; [|split].
  - intros rl now key Hw. rewrite (tryConsume_opens _ _ _ Hw); simpl.
    rewrite lookup_insert_eq. auto using positive_limit_allows.
  - intros rl now key st Hw. rewrite (tryConsume_within _ _ _ _ Hw).
    destruct (Z.leb_spec (count st + 1) (limit rl)); simpl.
    + rewrite lookup_insert_eq. repeat split; auto; done.
    + repeat split; try done. lia.
  - intros key t0 t1 t2 t3 t4 H1 H2 H3 H4.
    assert (Hstep : ∀ n t rl,
               limit rl = 3 → t < t0 + 1000 →
               buckets rl !! key = Some {| count := n; resetAt := t0 + 1000 |} →
               tryConsume t key rl =
                 if n + 1 <=? 3
                 then ({| allowed := true; remaining := 3 - (n + 1);
                          result_resetAt := t0 + 1000 |},
                       set_bucket key {| count := n + 1; resetAt := t0 + 1000 |} rl)
                 else ({| allowed := false; remaining := 0;
                          result_resetAt := t0 + 1000 |}, rl)).
    { intros n t rl Hl Ht Hb.
      rewrite (tryConsume_within t key rl {| count := n; resetAt := t0 + 1000 |}).
      - simpl. by rewrite Hl.
      - unfold open_window. rewrite Hb. simpl.
        by destruct (Z.ltb_spec t (t0 + 1000)); [|lia]. }
    unfold consume_all.
    rewrite (tryConsume_opens t0 key (new 3 1000)) by done.
    change (windowMs (new 3 1000)) with 1000.
    erewrite (Hstep 1 t1); [|done|done|by simpl; rewrite lookup_insert_eq].
    change (1 + 1 <=? 3) with true; cbv iota.
    erewrite (Hstep (1 + 1) t2); [|done|done|by simpl; rewrite lookup_insert_eq].
    change (1 + 1 + 1 <=? 3) with true; cbv iota.
    erewrite (Hstep (1 + 1 + 1) t3); [|done|done|by simpl; rewrite lookup_insert_eq].
    change (1 + 1 + 1 + 1 <=? 3) with false; cbv iota.
    simpl. split; [done|].
    rewrite tryConsume_opens.
    + simpl. by rewrite lookup_insert_eq.
    + unfold open_window; simpl. rewrite lookup_insert_eq; simpl.
      by destruct (Z.ltb_spec t4 (t0 + 1000)); [lia|].
Qed.

Lemma tryConsume_fixed_window_witness :
  tryConsume 5 "chat:42" (new 3 1000) = fixed_window_reference 5 "chat:42" (new 3 1000)
  ∧ allowed (tryConsume 5 "chat:42" (new 3 1000)).1 = true
  ∧ (allowed (tryConsume 7 "chat:42" (tryConsume 5 "chat:42" (new 3 1000)).2).1 = true
     ↔ 1 + 1 ≤ 3)
  ∧ (consume_all "chat:42" [5; 7; 400; 1004] (new 3 1000)).1 = [true; true; true; false]
  ∧ allowed (tryConsume 1005 "chat:42"
               (consume_all "chat:42" [5; 7; 400; 1004] (new 3 1000)).2).1 = true.
Proof.
  destruct tryConsume_fixed_window as (Href & Hopen & Hin & Hseq).
  split; [apply Href; vm_compute; reflexivity|].
  split; [apply (Hopen (new 3 1000) 5 "chat:42"); [reflexivity | vm_compute; reflexivity]|].
  split.
  - apply (Hin (tryConsume 5 "chat:42" (new 3 1000)).2 7 "chat:42"
               {| count := 1; resetAt := 1005 |}).
    vm_compute; reflexivity.
  - destruct (Hseq "chat:42" 5 7 400 1004 1005) as (H1 & H2 & _); try lia.
    split; [exact H1 | exact H2].
Defined.

End RateLimiterProps.

Section TruncationProps.
Import JS LLMService.

Lemma slice0_nonneg {A} (xs : list A) e : 0 ≤ e → slice0 xs e = take (Z.to_nat e) xs.
Proof. intros. unfold slice0. by destruct (Z.ltb_spec e 0); [lia|]. Qed.

Lemma lastIndexOf_from_spec c (xs : chars) i found :
  (lastIndexOf_from c xs i found = found ∧ ∀ j, xs !! j ≠ Some c)
  ∨ (∃ k : nat, lastIndexOf_from c xs i found = i + Z.of_nat k
                ∧ xs !! k = Some c ∧ ∀ j, (k < j)%nat → xs !! j ≠ Some c).
Proof.
  revert i found. induction xs as [|x xs IH]; intros i found; simpl.
  - left. split; [done|]. by intros [|j].
  - destruct (IH (i + 1) (if decide (x = c) then i else found))
      as [[Hr Hno]|(k & Hr & Hk & Hafter)].
    + rewrite Hr. destruct (decide (x = c)) as [->|Hne].
      * right. exists 0%nat. split; [lia|]. split; [done|].
        intros [|j] Hj; [lia|]. apply Hno.
      * left. split; [done|]. intros [|j]; simpl; [congruence|apply Hno].
    + right. exists (S k). split; [lia|]. split; [done|].
      intros [|j] Hj; [lia|]. apply Hafter. lia.
Qed.

(** [lastIndexOf] is [-1] or the index of the last occurrence. *)
Lemma lastIndexOf_range (xs : chars) c :
  lastIndexOf xs c = -1
  ∨ (0 ≤ lastIndexOf xs c < Z.of_nat (length xs)
     ∧ xs !! Z.to_nat (lastIndexOf xs c) = Some c).
Proof.
  unfold lastIndexOf.
  destruct (lastIndexOf_from_spec c xs 0 (-1)) as [[-> _]|(k & -> & Hk & _)]; [by left|].
  right. apply lookup_lt_Some in Hk as Hlt. split; [lia|].
  by replace (Z.to_nat (0 + Z.of_nat k)) with k by lia.
Qed.

Lemma lastIndexOf_last (xs : chars) c (p : nat) :
  xs !! p = Some c → (∀ j, (p < j)%nat → xs !! j ≠ Some c) →
  lastIndexOf xs c = Z.of_nat p.
Proof.
  intros Hp Hafter. unfold lastIndexOf.
  destruct (lastIndexOf_from_spec c xs 0 (-1)) as [[_ Hno]|(k & -> & Hk & Hk')].
  - by destruct (Hno p).
  - destruct (lt_eq_lt_dec k p) as [[Hlt| ->]|Hgt]; [|lia|].
    + by destruct (Hk' p Hlt).
    + by destruct (Hafter k Hgt).
Qed.

(** The two threshold tests at the Play Store limit: in double precision
    [350 * 0.7] is just below 245 and [350 * 0.8] is 280. *)
Lemma thresholds_350 p :
  -1 ≤ p ≤ 346 →
  gt_times p 350 lit_0_7 = (245 <=? p) ∧ gt_times p 350 lit_0_8 = (281 <=? p).
Proof.
  intros Hp.
  set (ok := λ q, bool_decide (gt_times q 350 lit_0_7 = (245 <=? q))
                  && bool_decide (gt_times q 350 lit_0_8 = (281 <=? q))).
  assert (Hall : forallb ok ((λ k : nat, Z.of_nat k - 1) <$> seq 0 348) = true)
    by (vm_compute; reflexivity).
  rewrite forallb_forall in Hall.
  assert (Hok : ok p = true).
  { apply Hall, in_map_iff. exists (Z.to_nat (p + 1)). split; [lia|].
    apply in_seq. lia. }
  unfold ok in Hok. apply andb_true_iff in Hok as [H1 H2].
  by apply bool_decide_eq_true in H1, H2.
Qed.

Lemma last_take_lookup {A} (xs : list A) (p : nat) x :
  xs !! p = Some x → last (take (S p) xs) = Some x.
Proof.
  intros Hp. rewrite last_lookup, length_take.
  apply lookup_lt_Some in Hp as Hlt.
  replace (Init.Nat.pred (S p `min` length xs)) with p by lia.
  rewrite lookup_take_lt by lia. done.
Qed.

End TruncationProps.

Section TruncationClaim.
Import JS LLMService Env Examples.

Lemma generateReviewResponse_unfold st L (text : chars) :
  3 ≤ L → L < Z.of_nat (length text) →
  generateReviewResponse st (Some L) text =
    let truncated := take (Z.to_nat (L - 3)) text in
    let lastPeriod := lastIndexOf truncated "."%char in
    let lastSpace := lastIndexOf truncated " "%char in
    if gt_times lastPeriod L lit_0_7 then slice0 truncated (lastPeriod + 1)
    else if gt_times lastSpace L lit_0_8 then slice0 truncated lastSpace ++ dots
    else truncated ++ dots.
Proof.
  intros HL Hlen. unfold generateReviewResponse.
  destruct (Z.gtb_spec (Z.of_nat (length text)) L); [|lia].
  by rewrite slice0_nonneg by lia.
Qed.

Lemma generateReviewResponse_length st L (text : chars) :
  3 ≤ L → L < Z.of_nat (length text) →
  Z.of_nat (length (generateReviewResponse st (Some L) text)) ≤ L.
Proof.
  intros HL Hlen. rewrite generateReviewResponse_unfold by done. cbv zeta.
  set (T := take (Z.to_nat (L - 3)) text).
  assert (HT : Z.of_nat (length T) = L - 3) by (unfold T; rewrite length_take; lia).
  destruct (gt_times _ L lit_0_7).
  - destruct (lastIndexOf_range T "."%char) as [->|[Hr _]].
    + simpl. lia.
    + rewrite slice0_nonneg, length_take by lia. lia.
  - destruct (gt_times _ L lit_0_8); rewrite length_app; unfold dots; simpl length; [|lia].
    destruct (lastIndexOf_range T " "%char) as [->|[Hr _]].
    + unfold slice0. simpl. rewrite length_take. lia.
    + rewrite slice0_nonneg, length_take by lia. lia.
Qed.

(** The shape of the result at the Play Store limit, by the positions of
    the last full stop and the last space among the first 347 characters. *)
Lemma generateReviewResponse_350 (text : chars) :
  350 < Z.of_nat (length text) →
  let truncated := take 347 text in
  let lastPeriod := lastIndexOf truncated "."%char in
  let lastSpace := lastIndexOf truncated " "%char in
  let out := generateReviewResponse play_store None text in
  (245 ≤ lastPeriod →
     out = take (Z.to_nat (lastPeriod + 1)) text ∧ last out = Some "."%char)
  ∧ (lastPeriod < 245 → 281 ≤ lastSpace → out = take (Z.to_nat lastSpace) text ++ dots)
  ∧ (lastPeriod < 245 → lastSpace < 281 → out = truncated ++ dots).
Proof.
  intros Hlen. cbv zeta.
  change (generateReviewResponse play_store None text)
    with (generateReviewResponse play_store (Some 350) text).
  rewrite generateReviewResponse_unfold by lia. cbv zeta.
  change (Z.to_nat (350 - 3)) with 347%nat.
  set (T := take 347 text).
  assert (HT : length T = 347%nat) by (unfold T; rewrite length_take; lia).
  assert (HP : -1 ≤ lastIndexOf T "."%char ≤ 346)
    by (destruct (lastIndexOf_range T "."%char) as [->|[? _]]; lia).
  assert (HS : -1 ≤ lastIndexOf T " "%char ≤ 346)
    by (destruct (lastIndexOf_range T " "%char) as [->|[? _]]; lia).
  destruct (thresholds_350 _ HP) as [-> _], (thresholds_350 _ HS) as [_ ->].
  split; [|split].
  - intros H. destruct (Z.leb_spec 245 (lastIndexOf T "."%char)); [|lia].
    rewrite slice0_nonneg by lia.
    destruct (lastIndexOf_range T "."%char) as [Hm|[Hr Hc]]; [lia|].
    set (p := lastIndexOf T "."%char) in *.
    assert (Heq : take (Z.to_nat (p + 1)) T = take (Z.to_nat (p + 1)) text).
    { unfold T. rewrite take_take. f_equal. lia. }
    rewrite Heq. split; [done|].
    replace (Z.to_nat (p + 1)) with (S (Z.to_nat p)) by lia.
    apply last_take_lookup. unfold T in Hc.
    rewrite lookup_take_lt in Hc by lia. done.
  - intros H1 H2. destruct (Z.leb_spec 245 (lastIndexOf T "."%char)); [lia|].
    destruct (Z.leb_spec 281 (lastIndexOf T " "%char)); [|lia].
    rewrite slice0_nonneg by lia.
    set (q := lastIndexOf T " "%char) in *.
    unfold T. rewrite take_take. do 2 f_equal. lia.
  - intros H1 H2. destruct (Z.leb_spec 245 (lastIndexOf T "."%char)); [lia|].
    by destruct (Z.leb_spec 281 (lastIndexOf T " "%char)); [lia|].
Qed.

(** C6 (as amended).  The sentence / word / hard-cut policy is the one of
    [LLMService.generateReviewResponse], applied to a generated draft longer
    than [maxLength]; the connectors do not apply it.
    (1) For a limit of at least 3 the draft is cut inside its first
    [maxLength - 3] characters: after the last full stop of that prefix when
    its index exceeds [maxLength * 0.7], else before the last space of that
    prefix, followed by three dots, when its index exceeds [maxLength * 0.8],
    else the whole prefix followed by three dots (the products being taken in
    double precision); the result is never longer than [maxLength].
    (2) At the Play Store default of 350 the three cases are: last full stop
    at index 245 or more; otherwise last space at index 281 or more;
    otherwise the first 347 characters and three dots.
    (3) A 400-character draft whose last full stop among its first 347
    characters is at index 300 is returned cut to its first 301 characters,
    ending in that full stop.
    (4) When posting, [PlayStoreClient.replyToReview] sends the first 350
    characters of the reply, whatever they are, and
    [AppStoreClient.postResponse] sends the reply uncut. *)
Theorem truncation_policy_of_drafts :
  (∀ st L (text : chars), 3 ≤ L → L < Z.of_nat (length text) →
     generateReviewResponse st (Some L) text =
       (let truncated := take (Z.to_nat (L - 3)) text in
        let lastPeriod := lastIndexOf truncated "."%char in
        let lastSpace := lastIndexOf truncated " "%char in
        if gt_times lastPeriod L lit_0_7 then slice0 truncated (lastPeriod + 1)
        else if gt_times lastSpace L lit_0_8 then slice0 truncated lastSpace ++ dots
        else truncated ++ dots)
     ∧ Z.of_nat (length (generateReviewResponse st (Some L) text)) ≤ L)
  ∧ (∀ text : chars, 350 < Z.of_nat (length text) →
       let truncated := take 347 text in
       let lastPeriod := lastIndexOf truncated "."%char in
       let lastSpace := lastIndexOf truncated " "%char in
       let out := generateReviewResponse play_store None text in
       (245 ≤ lastPeriod →
          out = take (Z.to_nat (lastPeriod + 1)) text ∧ last out = Some "."%char)
       ∧ (lastPeriod < 245 → 281 ≤ lastSpace →
          out = take (Z.to_nat lastSpace) text ++ dots)
       ∧ (lastPeriod < 245 → lastSpace < 281 → out = truncated ++ dots))
  ∧ (∀ text : chars,
       length text = 400%nat → text !! 300%nat = Some "."%char →
       (∀ j, (300 < j < 347)%nat → text !! j ≠ Some "."%char) →
       generateReviewResponse play_store None text = take 301 text
       ∧ last (generateReviewResponse play_store None text) = Some "."%char)
  ∧ (∀ api packageName reviewId replyText credentialJson w,
       PlayStoreClient.createClient_error api credentialJson = None →
       requests (PlayStoreClient.replyToReview
                   api packageName reviewId replyText credentialJson w).2
         = requests w ++ [PlayReviewsReply packageName reviewId (take 350 replyText)])
  ∧ (∀ api reviewId responseBody privateKey keyId issuerId w,
       AppStoreClient.generateToken_error api privateKey keyId issuerId = None →
       requests (AppStoreClient.postResponse
                   api reviewId responseBody privateKey keyId issuerId w).2
         = requests w ++ [AppStoreResponsePost reviewId responseBody]).
Proof.
  split; [|split; [|split; [|split]]].
  - intros st L text HL Hlen.
    split; [by apply generateReviewResponse_unfold
           | by apply generateReviewResponse_length].
  - exact generateReviewResponse_350.
  - intros text Hlen Hdot Hafter.
    assert (HP : lastIndexOf (take 347 text) "."%char = 300).
    { apply (lastIndexOf_last _ _ 300).
      - by rewrite lookup_take_lt by lia.
      - intros j Hj. destruct (decide (j < 347)%nat).
        + rewrite lookup_take_lt by lia. apply Hafter. lia.
        + rewrite lookup_take_ge by lia. done. }
    destruct (generateReviewResponse_350 text) as [H1 _]; [lia|].
    cbv zeta in H1. rewrite HP in H1. destruct H1 as [H1 H2]; [lia|].
    split; [exact H1 | exact H2].
  - intros api packageName reviewId replyText credentialJson w Hc.
    unfold PlayStoreClient.replyToReview. rewrite Hc.
    rewrite slice0_nonneg by lia.
    by destruct (PlayStoreClient.reviews_reply_error _ _ _ _ _).
  - intros api reviewId responseBody privateKey keyId issuerId w Hc.
    unfold AppStoreClient.postResponse. rewrite Hc.
    by destruct (AppStoreClient.post_customerReviewResponse_error _ _ _ _).
Qed.

Lemma truncation_policy_of_drafts_witness :
  Z.of_nat (length (generateReviewResponse play_store (Some 350) draft_400)) ≤ 350
  ∧ generateReviewResponse play_store None draft_400 = take 301 draft_400
  ∧ last (generateReviewResponse play_store None draft_400) = Some "."%char
  ∧ requests (PlayStoreClient.replyToReview quiet_play "com.example.app" "review-1"
                draft_400 "{}" empty_world).2
      = [PlayReviewsReply "com.example.app" "review-1" (take 350 draft_400)].
Proof.
  destruct truncation_policy_of_drafts as (Hgen & _ & Hex & Hplay & _).
  split; [apply (Hgen play_store 350 draft_400); vm_compute; [discriminate|reflexivity]|].
  destruct (Hex draft_400) as [H1 H2].
  - vm_compute; reflexivity.
  - vm_compute; reflexivity.
  - intros j Hj. unfold draft_400.
    rewrite lookup_app_r; rewrite length_replicate; [|lia].
    destruct (j - 300)%nat as [|k] eqn:Hk; [lia|].
    change ((["."%char] ++ replicate 99 "b"%char) !! S k)
      with (replicate 99 "b"%char !! k).
    intros Hb. apply lookup_replicate_1 in Hb as [Hb _]. discriminate.
  - split; [exact H1|]. split; [exact H2|].
    apply (Hplay quiet_play "com.example.app" "review-1" draft_400 "{}" empty_world).
    reflexivity.
Defined.

(** C6 as stated fails at the connector: posting the 400-character reply
    with its sentence boundary at index 300 through
    [PlayStoreClient.replyToReview] sends 350 characters ending in the
    middle of the text that follows the boundary, not the 301 characters
    the policy yields. *)
Lemma replyToReview_hard_cut_counterexample :
  length draft_400 = 400%nat
  ∧ draft_400 !! 300%nat = Some "."%char
  ∧ ∃ sent,
      requests (PlayStoreClient.replyToReview quiet_play "com.example.app" "review-1"
                  draft_400 "{}" empty_world).2
        = [PlayReviewsReply "com.example.app" "review-1" sent]
      ∧ length sent = 350%nat
      ∧ last sent = Some "b"%char
      ∧ sent ≠ generateReviewResponse play_store (Some 350) draft_400.
Proof.
  split; [reflexivity|]. split; [reflexivity|].
  exists (take 350 draft_400).
  split; [reflexivity|]. split; [reflexivity|]. split; [reflexivity|].
  intros H. apply (f_equal length) in H. vm_compute in H. discriminate.
Qed.

End TruncationClaim.

Section CursorProps.
Import JS SupabaseService Env Reference.

Lemma before_first_newer {A} (old : A → bool) xs :
  Forall (λ x, old x = false) (before_first old xs).
Proof.
  induction xs as [|x xs IH]; simpl; [constructor|].
  destruct (old x) eqn:Hx; constructor; done.
Qed.

(** ** App Store *)

Lemma as_scan_page_spec lastPollAt page acc :
  AppStoreClient.scan_page lastPollAt page acc =
    (acc ++ (AppStoreClient.parse_unresponded <$> before_first (as_old lastPollAt) page),
     existsb (as_old lastPollAt) page).
Proof.
  revert acc. induction page as [|r page IH]; intros acc; simpl.
  - by rewrite app_nil_r.
  - unfold as_old at 1 3. destruct (AppStoreClient.not_newer _ _); simpl.
    + by rewrite app_nil_r.
    + rewrite IH. by rewrite <- app_assoc.
Qed.

Lemma as_scan_page_newer c page acc :
  Forall (as_newer c) acc →
  Forall (as_newer c) (AppStoreClient.scan_page (Some c) page acc).1.
Proof.
  intros Hacc. rewrite as_scan_page_spec; simpl.
  apply Forall_app; split; [done|].
  apply Forall_fmap. eapply Forall_impl; [apply before_first_newer|].
  intros r Hr. unfold as_newer, as_old in *; simpl in *. lia.
Qed.

Lemma as_fetch_pages_newer fuel api query key c page acc w rs w1 :
  Forall (as_newer c) acc →
  AppStoreClient.fetch_pages fuel api query key (Some c) page acc w = (Returned rs, w1) →
  Forall (as_newer c) rs.
Proof.
  revert page acc w. induction fuel as [|fuel IH]; intros page acc w Hacc; simpl; [done|].
  destruct (AppStoreClient.get_customerReviews _ _ _ _) as [m|resp]; [done|].
  pose proof (as_scan_page_newer c (AppStoreClient.data resp) acc Hacc) as Hscan.
  destruct (AppStoreClient.scan_page _ _ _) as [acc' reached]; simpl in Hscan.
  destruct (_ && _).
  - by apply IH.
  - by intros [= <- <-].
Qed.

(** ** Play Store *)

Lemma ps_scan_page_spec now lastPollAt page acc :
  PlayStoreClient.scan_page now lastPollAt page acc =
    (acc ++ (ps_parse now <$> before_first (ps_old now lastPollAt) (commented page)),
     existsb (ps_old now lastPollAt) (commented page)).
Proof.
  revert acc. induction page as [|r page IH]; intros acc; simpl.
  - by rewrite app_nil_r.
  - unfold commented; simpl. destruct (PlayStoreClient.first_userComment r) as [cm|]; simpl.
    + unfold ps_old at 1 3; simpl.
      destruct (PlayStoreClient.not_newer _ _); simpl.
      * by rewrite app_nil_r.
      * rewrite IH. by rewrite <- app_assoc.
    + apply IH.
Qed.

Lemma ps_scan_page_newer now c page acc :
  Forall (ps_newer c) acc →
  Forall (ps_newer c) (PlayStoreClient.scan_page now (Some c) page acc).1.
Proof.
  intros Hacc. rewrite ps_scan_page_spec; simpl.
  apply Forall_app; split; [done|].
  apply Forall_fmap. eapply Forall_impl; [apply before_first_newer|].
  intros r Hr. unfold ps_newer, ps_old, ps_parse in *; simpl in *. lia.
Qed.

Lemma Forall_filter_keep {A} (P Q : A → Prop) `{!∀ x, Decision (Q x)} (xs : list A) :
  Forall P xs → Forall P (filter Q xs).
Proof.
  rewrite !Forall_forall. intros HP x Hx.
  apply list_elem_of_filter in Hx as [_ Hx]. auto.
Qed.

Lemma slice0_sublist {A} (P : A → Prop) (xs : list A) e :
  Forall P xs → Forall P (slice0 xs e).
Proof. intros H. unfold slice0. destruct (e <? 0); by apply Forall_take. Qed.

Lemma ps_fetch_pages_newer fuel api pkg cred M c page acc w rs w1 :
  Forall (ps_newer c) acc →
  PlayStoreClient.fetch_pages fuel api pkg cred M (Some c) page acc w = (Returned rs, w1) →
  Forall (ps_newer c) rs.
Proof.
  revert page acc w. induction fuel as [|fuel IH]; intros page acc w Hacc; simpl; [done|].
  destruct (PlayStoreClient.reviews_list _ _ _ _ _) as [m|resp]; [done|].
  set (scan := match PlayStoreClient.reviews resp with
               | Some rs0 => PlayStoreClient.scan_page _ _ rs0 acc
               | None => (acc, false)
               end).
  assert (Hscan : Forall (ps_newer c) scan.1).
  { unfold scan. destruct (PlayStoreClient.reviews resp); [|done].
    by apply ps_scan_page_newer. }
  destruct scan as [acc' reached]; simpl in Hscan.
  destruct (_ && _ && _).
  - by apply IH.
  - intros [= <- <-]. by apply slice0_sublist.
Qed.

End CursorProps.

Section CursorClaim.
Import JS SupabaseService Env Reference Examples.

Lemma as_fetch_pages_stops fuel api query key lastPollAt page acc w resp :
  AppStoreClient.get_customerReviews api query key page = inr resp →
  existsb (as_old lastPollAt) (AppStoreClient.data resp) = true →
  AppStoreClient.fetch_pages (S fuel) api query key lastPollAt page acc w =
    (Returned (acc ++ (AppStoreClient.parse_unresponded
                         <$> before_first (as_old lastPollAt) (AppStoreClient.data resp))),
     issue (AppStoreReviewsGet query page) w).
Proof.
  intros Hget Hold. simpl. rewrite Hget, as_scan_page_spec, Hold. by simpl.
Qed.

Lemma ps_fetch_pages_stops fuel api pkg cred M lastPollAt page acc w resp rs :
  PlayStoreClient.reviews_list api pkg cred page (Z.min (M - Z.of_nat (length acc)) 100)
    = inr resp →
  PlayStoreClient.reviews resp = Some rs →
  existsb (ps_old (clock w) lastPollAt) (commented rs) = true →
  PlayStoreClient.fetch_pages (S fuel) api pkg cred M lastPollAt page acc w =
    (Returned (slice0 (acc ++ (ps_parse (clock w)
                                 <$> before_first (ps_old (clock w) lastPollAt) (commented rs)))
                      M),
     issue (PlayReviewsList pkg (Z.min (M - Z.of_nat (length acc)) 100) page) w).
Proof.
  intros Hget Hrs Hold. simpl. rewrite Hget, Hrs, ps_scan_page_spec, Hold. by simpl.
Qed.

Lemma as_account_fetch_newer fuel api account storeId c w rs w1 :
  AppStoreClient.fetchReviewsWithAccount fuel api account storeId (Some c) w
    = (Returned rs, w1) →
  Forall (as_newer c) rs.
Proof.
  unfold AppStoreClient.fetchReviewsWithAccount, AppStoreClient.fetchUnrespondedReviews.
  destruct (negb _); [done|].
  destruct (or_undefined (apple_key_id account)); [|done].
  destruct (or_undefined (apple_issuer_id account)); [|done].
  destruct (AppStoreClient.generateToken_error _ _ _ _);
    [by destruct (AppStoreClient.is_auth_error _)|].
  destruct (AppStoreClient.fetch_pages _ _ _ _ _ _ _ _) as [[rs'|m|] w'] eqn:Hf; [| |done].
  - intros [= <- <-]. eapply as_fetch_pages_newer; [|exact Hf]. constructor.
  - by destruct (AppStoreClient.is_auth_error m).
Qed.

Lemma ps_fetchReviews_newer fuel api pkg cred M c w rs w1 :
  PlayStoreClient.fetchReviews fuel api pkg cred M (Some c) w = (Returned rs, w1) →
  Forall (ps_newer c) rs.
Proof.
  unfold PlayStoreClient.fetchReviews.
  destruct (PlayStoreClient.createClient_error _ _); [done|].
  apply ps_fetch_pages_newer. constructor.
Qed.

Lemma ps_account_fetch_newer fuel api account pkg c w rs w1 :
  PlayStoreClient.fetchReviewsWithAccount fuel api account pkg (Some c) w
    = (Returned rs, w1) →
  Forall (ps_newer c) rs.
Proof.
  unfold PlayStoreClient.fetchReviewsWithAccount, PlayStoreClient.fetchUnrespondedReviews.
  destruct (negb _); [done|].
  destruct (PlayStoreClient.fetchReviews _ _ _ _ _ _ _) as [[rs'|m|] w'] eqn:Hf; [| |done].
  - intros [= <- <-]. apply slice0_sublist, Forall_filter_keep.
    by eapply ps_fetchReviews_newer.
  - by destruct (PlayStoreClient.is_auth_error m).
Qed.

(** C2. With a cursor [c], both connectors stop at the first review whose
    timestamp is [<= c] and return only strictly newer reviews.
    For the App Store ([fetchUnrespondedReviews], [fetchReviewsWithAccount])
    and for the Play Store ([fetchReviews], [fetchReviewsWithAccount]):
    (1) every review returned has a timestamp strictly greater than [c], so a
    review stamped exactly [c] is never returned;
    (2) the scan of a page keeps exactly the reviews that precede the first
    one not newer than [c], and raises [reachedOldReviews] iff there is one;
    (3) a page that holds such a review is the last one requested: the fetch
    returns after it with what precedes that review. *)
Theorem cursor_is_exclusive :
  (∀ fuel api account storeId c w rs w1,
     AppStoreClient.fetchReviewsWithAccount fuel api account storeId (Some c) w
       = (Returned rs, w1) →
     Forall (λ r, c < AppStoreClient.reviewDate r ∧ AppStoreClient.reviewDate r ≠ c) rs)
  ∧ (∀ fuel api appId key keyId issuerId c w rs w1,
       AppStoreClient.fetchUnrespondedReviews fuel api appId key keyId issuerId (Some c) w
         = (Returned rs, w1) →
       Forall (λ r, c < AppStoreClient.reviewDate r) rs)
  ∧ (∀ c page acc,
       AppStoreClient.scan_page (Some c) page acc =
         (acc ++ (AppStoreClient.parse_unresponded <$> before_first (as_old (Some c)) page),
          existsb (as_old (Some c)) page))
  ∧ (∀ fuel api query key c page acc w resp,
       AppStoreClient.get_customerReviews api query key page = inr resp →
       Exists (λ r, AppStoreClient.createdDate r ≤ c) (AppStoreClient.data resp) →
       AppStoreClient.fetch_pages (S fuel) api query key (Some c) page acc w =
         (Returned (acc ++ (AppStoreClient.parse_unresponded
                              <$> before_first (as_old (Some c)) (AppStoreClient.data resp))),
          issue (AppStoreReviewsGet query page) w))
  ∧ (∀ fuel api account pkg c w rs w1,
       PlayStoreClient.fetchReviewsWithAccount fuel api account pkg (Some c) w
         = (Returned rs, w1) →
       Forall (λ r, c < PlayStoreClient.reviewDate r ∧ PlayStoreClient.reviewDate r ≠ c) rs)
  ∧ (∀ fuel api pkg cred M c w rs w1,
       PlayStoreClient.fetchReviews fuel api pkg cred M (Some c) w = (Returned rs, w1) →
       Forall (λ r, c < PlayStoreClient.reviewDate r) rs)
  ∧ (∀ now c page acc,
       PlayStoreClient.scan_page now (Some c) page acc =
         (acc ++ (ps_parse now <$> before_first (ps_old now (Some c)) (commented page)),
          existsb (ps_old now (Some c)) (commented page)))
  ∧ (∀ fuel api pkg cred M c page acc w resp rs,
       PlayStoreClient.reviews_list api pkg cred page (Z.min (M - Z.of_nat (length acc)) 100)
         = inr resp →
       PlayStoreClient.reviews resp = Some rs →
       Exists (λ rc, PlayStoreClient.reviewDate_of (clock w) rc.2 ≤ c) (commented rs) →
       PlayStoreClient.fetch_pages (S fuel) api pkg cred M (Some c) page acc w =
         (Returned (slice0 (acc ++ (ps_parse (clock w)
                                      <$> before_first (ps_old (clock w) (Some c))
                                                       (commented rs)))
                           M),
          issue (PlayReviewsList pkg (Z.min (M - Z.of_nat (length acc)) 100) page) w)).
Proof.
  repeat apply conj.
  - intros * H. eapply Forall_impl; [by eapply as_account_fetch_newer|].
    unfold as_newer. intros; simpl in *; lia.
  - intros fuel api appId key keyId issuerId c w rs w1.
    unfold AppStoreClient.fetchUnrespondedReviews.
    destruct (AppStoreClient.generateToken_error _ _ _ _); [done|].
    apply as_fetch_pages_newer. constructor.
  - intros. apply as_scan_page_spec.
  - intros * Hget Hold. apply (as_fetch_pages_stops _ _ _ _ _ _ _ _ _ Hget).
    apply existsb_exists. apply Exists_exists in Hold as (r & Hin & Hr).
    exists r. split; [by apply list_elem_of_In|].
    unfold as_old; simpl. by apply Z.leb_le.
  - intros * H. eapply Forall_impl; [by eapply ps_account_fetch_newer|].
    unfold ps_newer. intros; simpl in *; lia.
  - intros *. apply ps_fetchReviews_newer.
  - intros. apply ps_scan_page_spec.
  - intros * Hget Hrs Hold. apply (ps_fetch_pages_stops _ _ _ _ _ _ _ _ _ _ _ Hget Hrs).
    apply existsb_exists. apply Exists_exists in Hold as (r & Hin & Hr).
    exists r. split; [by apply list_elem_of_In|].
    unfold ps_old; simpl. by apply Z.leb_le.
Qed.

Lemma cursor_is_exclusive_witness :
  (* the App Store listing, polled with cursor 100: 130, 120 and 110 *)
  (∃ w1, AppStoreClient.fetchReviewsWithAccount 5 paged_appstore apple_account "6446"
           (Some 100) empty_world
         = (Returned (AppStoreClient.parse_unresponded
                        <$> [as_review 130; as_review 120; as_review 110]), w1)
         ∧ length (requests w1) = 2%nat)
  ∧ Forall (λ r, 100 < AppStoreClient.reviewDate r ∧ AppStoreClient.reviewDate r ≠ 100)
           (AppStoreClient.parse_unresponded
              <$> [as_review 130; as_review 120; as_review 110])
  (* the Play Store listing, polled with cursor 100 s *)
  ∧ (∃ rs w1, PlayStoreClient.fetchReviewsWithAccount 5 paged_play google_account
                "com.example.app" (Some 100000) empty_world = (Returned rs, w1)
              ∧ PlayStoreClient.reviewDate <$> rs = [130000; 110000]
              ∧ length (requests w1) = 2%nat
              ∧ Forall (λ r, 100000 < PlayStoreClient.reviewDate r
                             ∧ PlayStoreClient.reviewDate r ≠ 100000) rs).
Proof.
  destruct cursor_is_exclusive as (HA & _ & _ & _ & HP & _).
  split; [eexists; split; vm_compute; reflexivity|].
  split.
  - eapply (HA 5%nat paged_appstore apple_account "6446" 100 empty_world).
    vm_compute. reflexivity.
  - eexists _, _. split; [vm_compute; reflexivity|].
    split; [reflexivity|]. split; [reflexivity|].
    eapply (HP 5%nat paged_play google_account "com.example.app" 100000 empty_world).
    vm_compute. reflexivity.
Defined.

End CursorClaim.

Section SafetyCapProps.
Import JS SupabaseService Env Reference Examples.

Lemma length_slice0_le {A} (xs : list A) M : 0 ≤ M → Z.of_nat (length (slice0 xs M)) ≤ M.
Proof. intros. rewrite slice0_nonneg, length_take by done. lia. Qed.

Lemma ps_fetch_pages_capped fuel api pkg cred M lastPollAt page acc w rs w1 :
  0 ≤ M →
  PlayStoreClient.fetch_pages fuel api pkg cred M lastPollAt page acc w = (Returned rs, w1) →
  Z.of_nat (length rs) ≤ M.
Proof.
  intros HM. revert page acc w.
  induction fuel as [|fuel IH]; intros page acc w; simpl; [done|].
  destruct (PlayStoreClient.reviews_list _ _ _ _ _) as [m|resp]; [done|].
  destruct (match PlayStoreClient.reviews resp with
            | Some rs0 => PlayStoreClient.scan_page _ _ rs0 acc
            | None => (acc, false)
            end) as [acc' reached].
  destruct (_ && _ && _); [apply IH|].
  intros [= <- <-]. by apply length_slice0_le.
Qed.

Lemma ps_account_fetch_capped fuel api account pkg lastPollAt w rs w1 :
  PlayStoreClient.fetchReviewsWithAccount fuel api account pkg lastPollAt w
    = (Returned rs, w1) →
  (length rs ≤ 50)%nat.
Proof.
  unfold PlayStoreClient.fetchReviewsWithAccount, PlayStoreClient.fetchUnrespondedReviews.
  destruct (negb _); [done|].
  destruct (PlayStoreClient.fetchReviews _ _ _ _ _ _ _) as [[rs'|m|] w'] eqn:Hf; [| |done].
  - intros [= <- <-]. pose proof (length_slice0_le
      (filter (λ r, PlayStoreClient.hasResponse r = false) rs') 50). lia.
  - by destruct (PlayStoreClient.is_auth_error m).
Qed.

(** Without a cursor the scan of a page keeps every commented review. *)
Lemma ps_scan_page_all now page acc :
  PlayStoreClient.scan_page now None page acc = (acc ++ (ps_parse now <$> commented page), false).
Proof.
  rewrite ps_scan_page_spec. f_equal.
  - do 2 f_equal. induction (commented page) as [|x xs IH]; simpl; [done|]. by rewrite IH.
  - induction (commented page) as [|x xs IH]; simpl; done.
Qed.

Lemma ps_fetch_pages_bounded api pkg cred M fuel page acc w :
  productive api pkg cred →
  (Z.to_nat (M - Z.of_nat (length acc)) ≤ fuel)%nat → (1 ≤ fuel)%nat →
  ∃ o w1,
    PlayStoreClient.fetch_pages fuel api pkg cred M None page acc w = (o, w1)
    ∧ o ≠ Pending
    ∧ (length (requests w1)
       ≤ length (requests w) + Nat.max 1 (Z.to_nat (M - Z.of_nat (length acc))))%nat.
Proof.
  intros Hprod. revert page acc w.
  induction fuel as [|fuel IH]; intros page acc w Hfuel H1; [lia|]. simpl.
  destruct (PlayStoreClient.reviews_list _ _ _ _ _) as [m|resp] eqn:Hget.
  { eexists _, _. split; [done|]. split; [done|]. simpl. rewrite length_app. simpl. lia. }
  destruct (Hprod _ _ _ Hget) as (rs & -> & Hne).
  rewrite ps_scan_page_all.
  set (acc' := acc ++ _).
  assert (Hlen : (length acc + 1 ≤ length acc')%nat).
  { unfold acc'. rewrite length_app, length_fmap.
    destruct (commented rs); [done|]. simpl. lia. }
  destruct (_ && _ && _) eqn:Hcont.
  - apply andb_true_iff in Hcont as [Hcont _].
    apply andb_true_iff in Hcont as [_ Hlt]. apply Z.ltb_lt in Hlt.
    destruct (IH (S page) acc' (issue (PlayReviewsList pkg
                (Z.min (M - Z.of_nat (length acc)) 100) page) w))
      as (o & w1 & -> & Ho & Hreq); [lia..|].
    eexists _, _. split; [done|]. split; [done|].
    simpl in Hreq. rewrite length_app in Hreq. simpl in Hreq. lia.
  - eexists _, _. split; [done|]. split; [done|]. simpl. rewrite length_app. simpl. lia.
Qed.

(** Without a cursor the App Store loop keeps every review of a page and
    goes on exactly when the page links to a next one. *)
Lemma as_scan_page_all page acc :
  AppStoreClient.scan_page None page acc = (acc ++ (AppStoreClient.parse_unresponded <$> page), false).
Proof.
  revert acc. induction page as [|r page IH]; intros acc; simpl.
  - by rewrite app_nil_r.
  - rewrite IH. by rewrite <- app_assoc.
Qed.

Lemma as_fetch_pages_follows fuel api query key page acc w resp :
  AppStoreClient.get_customerReviews api query key page = inr resp →
  AppStoreClient.fetch_pages (S fuel) api query key None page acc w =
    if truthy (AppStoreClient.links_next resp)
    then AppStoreClient.fetch_pages fuel api query key None (S page)
           (acc ++ (AppStoreClient.parse_unresponded <$> AppStoreClient.data resp))
           (issue (AppStoreReviewsGet query page) w)
    else (Returned (acc ++ (AppStoreClient.parse_unresponded <$> AppStoreClient.data resp)),
          issue (AppStoreReviewsGet query page) w).
Proof.
  intros Hget. simpl. rewrite Hget, as_scan_page_all. unfold truthy.
  by destruct (or_undefined (AppStoreClient.links_next resp)).
Qed.

Lemma long_appstore_fetch n fuel query key page acc w :
  (page ≤ n)%nat → (n - page < fuel)%nat →
  ∃ rs w1,
    AppStoreClient.fetch_pages fuel (long_appstore n) query key None page acc w
      = (Returned rs, w1)
    ∧ length rs = (length acc + (S n - page))%nat
    ∧ length (requests w1) = (length (requests w) + (S n - page))%nat.
Proof.
  revert page acc w. induction fuel as [|fuel IH]; intros page acc w Hp Hf; [lia|].
  erewrite as_fetch_pages_follows by reflexivity. simpl.
  destruct (decide (page < n)%nat) as [Hlt|Hge]; simpl.
  - destruct (IH (S page) (acc ++ [AppStoreClient.parse_unresponded
                (as_review (1000 - Z.of_nat page))])
                (issue (AppStoreReviewsGet query page) w)) as (rs & w1 & -> & Hrs & Hreq);
      [lia..|].
    eexists _, _. split; [done|].
    rewrite length_app in Hrs. simpl in Hrs, Hreq. rewrite length_app in Hreq.
    simpl in Hreq. lia.
  - eexists _, _. split; [done|]. simpl. rewrite !length_app. simpl. lia.
Qed.

Lemma endless_appstore_fetch fuel query key page acc w :
  (AppStoreClient.fetch_pages fuel endless_appstore query key None page acc w).1 = Pending.
Proof.
  revert page acc w. induction fuel as [|fuel IH]; intros page acc w; [done|].
  erewrite as_fetch_pages_follows by reflexivity. simpl. apply IH.
Qed.

Lemma ps_fetchReviews_bounded api pkg cred M fuel w :
  productive api pkg cred →
  (Nat.max 1 (Z.to_nat M) ≤ fuel)%nat →
  ∃ o w1,
    PlayStoreClient.fetchReviews fuel api pkg cred M None w = (o, w1)
    ∧ o ≠ Pending
    ∧ (length (issued w w1) ≤ Nat.max 1 (Z.to_nat M))%nat.
Proof.
  intros Hprod Hfuel. unfold PlayStoreClient.fetchReviews, issued.
  destruct (PlayStoreClient.createClient_error api cred).
  { eexists _, _. split; [done|]. split; [done|]. rewrite length_drop. lia. }
  destruct (ps_fetch_pages_bounded api pkg cred M fuel 0 [] w Hprod)
    as (o & w1 & -> & Ho & Hreq); [simpl; lia..|].
  eexists _, _. split; [done|]. split; [done|].
  rewrite length_drop. simpl in Hreq. lia.
Qed.

Lemma long_appstore_first_run n appId key keyId issuerId w :
  ∃ rs w1,
    AppStoreClient.fetchUnrespondedReviews (S n) (long_appstore n)
      appId key keyId issuerId None w = (Returned rs, w1)
    ∧ length rs = S n ∧ length (issued w w1) = S n.
Proof.
  unfold AppStoreClient.fetchUnrespondedReviews.
  change (AppStoreClient.generateToken_error (long_appstore n) key keyId issuerId) with
    (@None string).
  destruct (long_appstore_fetch n (S n) (AppStoreClient.unresponded_query appId) key 0 [] w)
    as (rs & w1 & -> & Hrs & Hreq); [lia..|].
  eexists _, _. split; [done|]. unfold issued. rewrite length_drop. simpl in Hrs. lia.
Qed.

(** C7 (as amended).  Without a cursor only the Play Store connector is
    capped, and only in the number of reviews:
    (1) [PlayStoreClient.fetchReviews] returns at most [maxResults] reviews
    (for [maxResults >= 0]) and the account-based fetch at most 50, whatever
    the vendor serves;
    (2) when every page served carries at least one review with a user
    comment, [fetchReviews] settles after at most [max 1 maxResults] requests
    and the account-based fetch after at most 100;
    (3) [AppStoreClient.fetchUnrespondedReviews] has no cap: it keeps every
    review of a page and requests the next page whenever the page links to
    one, so it returns [n + 1] reviews after [n + 1] requests on a listing
    of [n + 1] pages, for every [n], and never settles on a listing whose
    pages all link to a next one. *)
Theorem first_run_fetch_bounds :
  (∀ fuel api pkg cred M lastPollAt w rs w1,
     0 ≤ M →
     PlayStoreClient.fetchReviews fuel api pkg cred M lastPollAt w = (Returned rs, w1) →
     Z.of_nat (length rs) ≤ M)
  ∧ (∀ fuel api account pkg lastPollAt w rs w1,
       PlayStoreClient.fetchReviewsWithAccount fuel api account pkg lastPollAt w
         = (Returned rs, w1) →
       (length rs ≤ 50)%nat)
  ∧ (∀ api pkg cred M fuel w,
       productive api pkg cred → (Nat.max 1 (Z.to_nat M) ≤ fuel)%nat →
       ∃ o w1, PlayStoreClient.fetchReviews fuel api pkg cred M None w = (o, w1)
               ∧ o ≠ Pending ∧ (length (issued w w1) ≤ Nat.max 1 (Z.to_nat M))%nat)
  ∧ (∀ api account pkg fuel w,
       productive api pkg (credential_data account) → (100 ≤ fuel)%nat →
       ∃ o w1, PlayStoreClient.fetchReviewsWithAccount fuel api account pkg None w = (o, w1)
               ∧ o ≠ Pending ∧ (length (issued w w1) ≤ 100)%nat)
  ∧ (∀ fuel api query key page acc w resp,
       AppStoreClient.get_customerReviews api query key page = inr resp →
       AppStoreClient.fetch_pages (S fuel) api query key None page acc w =
         if truthy (AppStoreClient.links_next resp)
         then AppStoreClient.fetch_pages fuel api query key None (S page)
                (acc ++ (AppStoreClient.parse_unresponded <$> AppStoreClient.data resp))
                (issue (AppStoreReviewsGet query page) w)
         else (Returned (acc ++ (AppStoreClient.parse_unresponded
                                   <$> AppStoreClient.data resp)),
               issue (AppStoreReviewsGet query page) w))
  ∧ (∀ n appId key keyId issuerId w,
       ∃ rs w1,
         AppStoreClient.fetchUnrespondedReviews (S n) (long_appstore n)
           appId key keyId issuerId None w = (Returned rs, w1)
         ∧ length rs = S n ∧ length (issued w w1) = S n)
  ∧ (∀ fuel appId key keyId issuerId w,
       (AppStoreClient.fetchUnrespondedReviews fuel endless_appstore
          appId key keyId issuerId None w).1 = Pending).
Proof.
  repeat apply conj.
  - intros fuel api pkg cred M lastPollAt w rs w1 HM. unfold PlayStoreClient.fetchReviews.
    destruct (PlayStoreClient.createClient_error _ _); [done|].
    by apply ps_fetch_pages_capped.
  - intros *. apply ps_account_fetch_capped.
  - intros *. apply ps_fetchReviews_bounded.
  - intros api account pkg fuel w Hprod Hfuel.
    unfold PlayStoreClient.fetchReviewsWithAccount, PlayStoreClient.fetchUnrespondedReviews.
    destruct (negb _).
    { eexists _, _. split; [done|]. split; [done|].
      unfold issued. rewrite length_drop. lia. }
    destruct (ps_fetchReviews_bounded api pkg (credential_data account) (50 * 2) fuel w Hprod)
      as (o & w1 & -> & Ho & Hreq); [simpl; lia|].
    change (Nat.max 1 (Z.to_nat (50 * 2))) with 100%nat in Hreq.
    destruct o as [rs|m|]; [| |done].
    + eexists _, _. split; [done|]. by split.
    + destruct (PlayStoreClient.is_auth_error m); eexists _, _; (split; [done|]); by split.
  - intros *. apply as_fetch_pages_follows.
  - apply long_appstore_first_run.
  - intros fuel appId key keyId issuerId w. unfold AppStoreClient.fetchUnrespondedReviews.
    change (AppStoreClient.generateToken_error endless_appstore key keyId issuerId) with
      (@None string).
    apply endless_appstore_fetch.
Qed.

Lemma paged_play_productive pkg cred : productive paged_play pkg cred.
Proof.
  intros [|[|page]] asked resp [= <-]; (eexists; split; [reflexivity|discriminate]).
Qed.

Lemma first_run_fetch_bounds_witness :
  (∃ rs w1, PlayStoreClient.fetchReviews 5 paged_play "com.example.app" "{}" 4 None empty_world
            = (Returned rs, w1)
            ∧ Z.of_nat (length rs) ≤ 4)
  ∧ (∃ rs w1, PlayStoreClient.fetchReviewsWithAccount 5 paged_play google_account
                "com.example.app" None empty_world = (Returned rs, w1)
              ∧ (length rs ≤ 50)%nat)
  ∧ (∃ o w1, PlayStoreClient.fetchReviewsWithAccount 100 paged_play google_account
               "com.example.app" None empty_world = (o, w1)
             ∧ o ≠ Pending ∧ (length (issued empty_world w1) ≤ 100)%nat)
  ∧ (∃ o w1, PlayStoreClient.fetchReviews 4 paged_play "com.example.app" "{}" 4 None
               empty_world = (o, w1)
             ∧ o ≠ Pending ∧ (length (issued empty_world w1) ≤ 4)%nat).
Proof.
  destruct first_run_fetch_bounds as (Hcap & Hacc & Hpages & Hpages' & _).
  split; [|split; [|split]].
  - eexists _, _. split; [vm_compute; reflexivity|].
    eapply (Hcap 5%nat paged_play "com.example.app" "{}" 4 None empty_world); [lia|].
    vm_compute. reflexivity.
  - eexists _, _. split; [vm_compute; reflexivity|].
    eapply (Hacc 5%nat paged_play google_account "com.example.app" None empty_world).
    vm_compute. reflexivity.
  - apply (Hpages' paged_play google_account "com.example.app" 100%nat empty_world);
      [apply paged_play_productive | lia].
  - apply (Hpages paged_play "com.example.app" "{}" 4 4%nat empty_world);
      [apply paged_play_productive | vm_compute; lia].
Defined.

(** C7 as stated fails for the App Store connector: no constant bounds the
    reviews returned or the pages requested on a first run. *)
Lemma appstore_first_run_uncapped_counterexample :
  ¬ ∃ N : nat,
      ∀ fuel api appId key keyId issuerId w rs w1,
        AppStoreClient.fetchUnrespondedReviews fuel api appId key keyId issuerId None w
          = (Returned rs, w1) →
        (length rs ≤ N)%nat ∧ (length (issued w w1) ≤ N)%nat.
Proof.
  intros [N HN].
  destruct (long_appstore_first_run N "6446" "p8-key" "KEY1" "ISSUER1" empty_world)
    as (rs & w1 & Hf & Hrs & _).
  apply HN in Hf as [Hle _]. lia.
Qed.

End SafetyCapProps.

Section ConnectorFrame.
Import JS SupabaseService Env Reference.

Lemma connector_frame_refl w : connector_frame w w.
Proof. by repeat split. Qed.

Lemma connector_frame_issue r w w1 :
  connector_frame (issue r w) w1 → connector_frame w w1.
Proof. done. Qed.

Lemma connector_frame_invalidate id e w w1 :
  connector_frame w w1 → connector_frame w (with_db (invalidateAccount id e) w1).
Proof. intros (?&?&?&?&?). by repeat split. Qed.

Lemma as_fetch_pages_frame fuel api query key lastPollAt page acc w o w1 :
  AppStoreClient.fetch_pages fuel api query key lastPollAt page acc w = (o, w1) →
  clock w1 = clock w ∧ db w1 = db w ∧ outbox w1 = outbox w.
Proof.
  revert page acc w. induction fuel as [|fuel IH]; intros page acc w; simpl.
  { by intros [= <- <-]. }
  destruct (AppStoreClient.get_customerReviews _ _ _ _) as [m|resp].
  { by intros [= <- <-]. }
  destruct (AppStoreClient.scan_page _ _ _) as [acc' reached].
  destruct (_ && _).
  - intros H. by apply IH in H.
  - by intros [= <- <-].
Qed.

Lemma ps_fetch_pages_frame fuel api pkg cred M lastPollAt page acc w o w1 :
  PlayStoreClient.fetch_pages fuel api pkg cred M lastPollAt page acc w = (o, w1) →
  clock w1 = clock w ∧ db w1 = db w ∧ outbox w1 = outbox w.
Proof.
  revert page acc w. induction fuel as [|fuel IH]; intros page acc w; simpl.
  { by intros [= <- <-]. }
  destruct (PlayStoreClient.reviews_list _ _ _ _ _) as [m|resp].
  { by intros [= <- <-]. }
  destruct (match PlayStoreClient.reviews resp with
            | Some rs0 => PlayStoreClient.scan_page _ _ rs0 acc
            | None => (acc, false)
            end) as [acc' reached].
  destruct (_ && _ && _).
  - intros H. by apply IH in H.
  - by intros [= <- <-].
Qed.

Lemma as_fetchUnresponded_frame fuel api appId key keyId issuerId lastPollAt w o w1 :
  AppStoreClient.fetchUnrespondedReviews fuel api appId key keyId issuerId lastPollAt w
    = (o, w1) →
  clock w1 = clock w ∧ db w1 = db w ∧ outbox w1 = outbox w.
Proof.
  unfold AppStoreClient.fetchUnrespondedReviews.
  destruct (AppStoreClient.generateToken_error _ _ _ _); [by intros [= <- <-]|].
  apply as_fetch_pages_frame.
Qed.

Lemma ps_fetchUnresponded_frame fuel api pkg cred M lastPollAt w o w1 :
  PlayStoreClient.fetchUnrespondedReviews fuel api pkg cred M lastPollAt w = (o, w1) →
  clock w1 = clock w ∧ db w1 = db w ∧ outbox w1 = outbox w.
Proof.
  unfold PlayStoreClient.fetchUnrespondedReviews, PlayStoreClient.fetchReviews.
  destruct (PlayStoreClient.createClient_error _ _); [by intros [= <- <-]|].
  destruct (PlayStoreClient.fetch_pages _ _ _ _ _ _ _ _ _) as [[rs|m|] w'] eqn:Hf;
    intros [= <- <-]; by apply ps_fetch_pages_frame in Hf.
Qed.

Lemma as_account_fetch_frame fuel api account storeId lastPollAt w o w1 :
  AppStoreClient.fetchReviewsWithAccount fuel api account storeId lastPollAt w = (o, w1) →
  connector_frame w w1.
Proof.
  unfold AppStoreClient.fetchReviewsWithAccount.
  destruct (negb _); [intros [= <- <-]; apply connector_frame_refl|].
  destruct (or_undefined (apple_key_id account));
    [|intros [= <- <-]; apply connector_frame_refl].
  destruct (or_undefined (apple_issuer_id account));
    [|intros [= <- <-]; apply connector_frame_refl].
  destruct (AppStoreClient.fetchUnrespondedReviews _ _ _ _ _ _ _ _) as [[rs|m|] w'] eqn:Hf;
    apply as_fetchUnresponded_frame in Hf as (Hc & Hd & Ho).
  - intros [= <- <-]. unfold connector_frame. by rewrite Hc, Hd, Ho.
  - destruct (AppStoreClient.is_auth_error m); intros [= <- <-];
      unfold connector_frame; simpl; by rewrite Hc, Hd, Ho.
  - intros [= <- <-]. unfold connector_frame. by rewrite Hc, Hd, Ho.
Qed.

Lemma ps_account_fetch_frame fuel api account pkg lastPollAt w o w1 :
  PlayStoreClient.fetchReviewsWithAccount fuel api account pkg lastPollAt w = (o, w1) →
  connector_frame w w1.
Proof.
  unfold PlayStoreClient.fetchReviewsWithAccount.
  destruct (negb _); [intros [= <- <-]; apply connector_frame_refl|].
  destruct (PlayStoreClient.fetchUnrespondedReviews _ _ _ _ _ _ _) as [[rs|m|] w'] eqn:Hf;
    apply ps_fetchUnresponded_frame in Hf as (Hc & Hd & Ho).
  - intros [= <- <-]. unfold connector_frame. by rewrite Hc, Hd, Ho.
  - destruct (PlayStoreClient.is_auth_error m); intros [= <- <-];
      unfold connector_frame; simpl; by rewrite Hc, Hd, Ho.
  - intros [= <- <-]. unfold connector_frame. by rewrite Hc, Hd, Ho.
Qed.

End ConnectorFrame.

Section AuthFailureClaim.
Import JS SupabaseService Env Reference Examples.

Lemma invalidateAccount_marks id e d :
  Forall (λ acc, account_id acc = id →
                 is_valid acc = false ∧ validation_error acc = Some e)
         (accounts (invalidateAccount id e d)).
Proof.
  simpl. apply Forall_fmap, Forall_forall. intros acc _; simpl.
  destruct (decide (account_id acc = id)); simpl; [done|]. by intros ?.
Qed.

Lemma invalidateAccount_row id e d acc :
  acc ∈ accounts d →
  (if decide (account_id acc = id) then invalidate e acc else acc)
    ∈ accounts (invalidateAccount id e d).
Proof. intros Hin. simpl. apply list_elem_of_fmap. by exists acc. Qed.

Lemma ps_replyToReview_frame api pkg reviewId replyText cred w o w1 :
  PlayStoreClient.replyToReview api pkg reviewId replyText cred w = (o, w1) →
  clock w1 = clock w ∧ db w1 = db w ∧ outbox w1 = outbox w.
Proof.
  unfold PlayStoreClient.replyToReview.
  destruct (PlayStoreClient.createClient_error _ _); [by intros [= <- <-]|].
  by destruct (PlayStoreClient.reviews_reply_error _ _ _ _ _); intros [= <- <-].
Qed.

Lemma as_postResponse_frame api reviewId responseBody key keyId issuerId w o w1 :
  AppStoreClient.postResponse api reviewId responseBody key keyId issuerId w = (o, w1) →
  clock w1 = clock w ∧ db w1 = db w ∧ outbox w1 = outbox w.
Proof.
  unfold AppStoreClient.postResponse.
  destruct (AppStoreClient.generateToken_error _ _ _ _); [by intros [= <- <-]|].
  by destruct (AppStoreClient.post_customerReviewResponse_error _ _ _ _); intros [= <- <-].
Qed.

(** C9. When a vendor call made on behalf of a valid account throws [e]:
    if [e] classifies as an auth failure (it mentions 401 or 403, or the
    vendor's permission codes) the account-based call surfaces a
    credentials error from a world in which [invalidateAccount] has already
    marked the account invalid and stored [e] itself as its validation
    error; otherwise it re-throws [e] and the database is the one the call
    started from.  This holds for the fetch and the post of both
    connectors; (1) says what [invalidateAccount] stores. *)
Theorem auth_failure_invalidates_account :
  (∀ id e d acc,
     acc ∈ accounts d → account_id acc = id →
     invalidate e acc ∈ accounts (invalidateAccount id e d)
     ∧ is_valid (invalidate e acc) = false
     ∧ validation_error (invalidate e acc) = Some e
     ∧ Forall (λ acc', account_id acc' = id →
                       is_valid acc' = false ∧ validation_error acc' = Some e)
              (accounts (invalidateAccount id e d)))
  ∧ (∀ fuel api account pkg lastPollAt w e w0,
       is_valid account = true →
       PlayStoreClient.fetchUnrespondedReviews
         fuel api pkg (credential_data account) 50 lastPollAt w = (Thrown e, w0) →
       db w0 = db w
       ∧ PlayStoreClient.fetchReviewsWithAccount fuel api account pkg lastPollAt w =
           if PlayStoreClient.is_auth_error e
           then (Thrown (PlayStoreClient.invalid_credentials_message e),
                 with_db (invalidateAccount (account_id account) e) w0)
           else (Thrown e, w0))
  ∧ (∀ api account pkg reviewId replyText w e w0,
       is_valid account = true →
       PlayStoreClient.replyToReview
         api pkg reviewId replyText (credential_data account) w = (Thrown e, w0) →
       db w0 = db w
       ∧ PlayStoreClient.replyWithAccount api account pkg reviewId replyText w =
           if PlayStoreClient.is_auth_error e
           then (Thrown (PlayStoreClient.invalid_credentials_message e),
                 with_db (invalidateAccount (account_id account) e) w0)
           else (Thrown e, w0))
  ∧ (∀ fuel api account storeId lastPollAt keyId issuerId w e w0,
       is_valid account = true →
       or_undefined (apple_key_id account) = Some keyId →
       or_undefined (apple_issuer_id account) = Some issuerId →
       AppStoreClient.fetchUnrespondedReviews
         fuel api storeId (credential_data account) keyId issuerId lastPollAt w
         = (Thrown e, w0) →
       db w0 = db w
       ∧ AppStoreClient.fetchReviewsWithAccount fuel api account storeId lastPollAt w =
           if AppStoreClient.is_auth_error e
           then (Thrown (AppStoreClient.invalid_credentials_message e),
                 with_db (invalidateAccount (account_id account) e) w0)
           else (Thrown e, w0))
  ∧ (∀ api account reviewId responseBody keyId issuerId w e w0,
       is_valid account = true →
       or_undefined (apple_key_id account) = Some keyId →
       or_undefined (apple_issuer_id account) = Some issuerId →
       AppStoreClient.postResponse
         api reviewId responseBody (credential_data account) keyId issuerId w
         = (Thrown e, w0) →
       db w0 = db w
       ∧ AppStoreClient.postResponseWithAccount api account reviewId responseBody w =
           if AppStoreClient.is_auth_error e
           then (Thrown (AppStoreClient.invalid_credentials_message e),
                 with_db (invalidateAccount (account_id account) e) w0)
           else (Thrown e, w0))
  ∧ (∀ e, PlayStoreClient.is_auth_error e = true ↔
          includes e "401" = true ∨ includes e "403" = true
          ∨ includes e "PERMISSION_DENIED" = true ∨ includes e "UNAUTHENTICATED" = true)
  ∧ (∀ e, AppStoreClient.is_auth_error e = true ↔
          includes e "401" = true ∨ includes e "403" = true
          ∨ includes e "FORBIDDEN" = true ∨ includes e "NOT_AUTHORIZED" = true).
Proof.
  repeat apply conj.
  - intros id e d acc Hin Hid. repeat split; [|apply invalidateAccount_marks].
    pose proof (invalidateAccount_row id e d acc Hin) as H.
    by rewrite decide_True in H.
  - intros * Hv Hf. split; [by apply ps_fetchUnresponded_frame in Hf as (_ & ? & _)|].
    unfold PlayStoreClient.fetchReviewsWithAccount. by rewrite Hv, Hf.
  - intros * Hv Hf. split; [by apply ps_replyToReview_frame in Hf as (_ & ? & _)|].
    unfold PlayStoreClient.replyWithAccount. by rewrite Hv, Hf.
  - intros * Hv Hk Hi Hf.
    split; [by apply as_fetchUnresponded_frame in Hf as (_ & ? & _)|].
    unfold AppStoreClient.fetchReviewsWithAccount. by rewrite Hv, Hk, Hi, Hf.
  - intros * Hv Hk Hi Hf. split; [by apply as_postResponse_frame in Hf as (_ & ? & _)|].
    unfold AppStoreClient.postResponseWithAccount. by rewrite Hv, Hk, Hi, Hf.
  - intros e. unfold PlayStoreClient.is_auth_error.
    rewrite !orb_true_iff. tauto.
  - intros e. unfold AppStoreClient.is_auth_error.
    rewrite !orb_true_iff. tauto.
Qed.

Lemma auth_failure_invalidates_account_witness :
  (* a 403 from the Play Store: the account is invalid afterwards *)
  (∃ w1, PlayStoreClient.fetchReviewsWithAccount 3 (failing_play permission_denied)
           google_account "com.example.app" (Some 100) accounts_world
         = (Thrown (PlayStoreClient.invalid_credentials_message permission_denied), w1)
         ∧ accounts (db w1) = [apple_account; invalidate permission_denied google_account])
  (* a connection reset: re-thrown, the accounts are untouched *)
  ∧ (∃ w1, PlayStoreClient.fetchReviewsWithAccount 3 (failing_play connection_reset)
             google_account "com.example.app" (Some 100) accounts_world
           = (Thrown connection_reset, w1)
           ∧ db w1 = db accounts_world)
  ∧ (∃ w1, AppStoreClient.fetchReviewsWithAccount 3 (failing_appstore permission_denied)
             apple_account "6446" None accounts_world
           = (Thrown (AppStoreClient.invalid_credentials_message permission_denied), w1)
           ∧ accounts (db w1) = [invalidate permission_denied apple_account; google_account])
  ∧ invalidate permission_denied google_account
      ∈ accounts (invalidateAccount "acc-google" permission_denied (db accounts_world)).
Proof.
  destruct auth_failure_invalidates_account as (Hdb & Hps & _ & Has & _).
  split; [|split; [|split]].
  - destruct (Hps 3%nat (failing_play permission_denied) google_account "com.example.app"
                  (Some 100) accounts_world permission_denied
                  (issue (PlayReviewsList "com.example.app" 100 0) accounts_world))
      as [_ ->]; [reflexivity | vm_compute; reflexivity |].
    eexists. split; vm_compute; reflexivity.
  - destruct (Hps 3%nat (failing_play connection_reset) google_account "com.example.app"
                  (Some 100) accounts_world connection_reset
                  (issue (PlayReviewsList "com.example.app" 100 0) accounts_world))
      as [Hd ->]; [reflexivity | vm_compute; reflexivity |].
    eexists. split; [vm_compute; reflexivity | exact Hd].
  - destruct (Has 3%nat (failing_appstore permission_denied) apple_account "6446" None
                  "KEY1" "ISSUER1" accounts_world permission_denied
                  (issue (AppStoreReviewsGet (AppStoreClient.unresponded_query "6446") 0)
                         accounts_world))
      as [_ ->]; [reflexivity | reflexivity | reflexivity | vm_compute; reflexivity |].
    eexists. split; vm_compute; reflexivity.
  - apply (Hdb "acc-google" permission_denied (db accounts_world) google_account);
      [|reflexivity].
    simpl. apply list_elem_of_In. right. by left.
Defined.

End AuthFailureClaim.

Section IngestionProps.
Import JS SupabaseService Env Reference ReviewScheduler.

Lemma with_db_same w : with_db (λ _, db w) w = w.
Proof. by destruct w. Qed.

Lemma review_row_key r a user :
  review_key (review_row r a user) = (store (app a), externalId r).
Proof. by destruct r. Qed.

Lemma review_row_user r a user : review_user_id (review_row r a user) = user_id user.
Proof. by destruct r. Qed.

Lemma same_key_iff st ext r : same_key st ext r ↔ review_key r = (st, ext).
Proof. unfold same_key, review_key. split; [intros [-> ->]|intros [= -> ->]]; done. Qed.

Lemma single_Some {A} (rows : list A) row : single rows = Some row ↔ rows = [row].
Proof. destruct rows as [|x [|y rows]]; simpl; split; congruence. Qed.

Lemma filter_nil_not_Exists {A} (P : A → Prop) `{!∀ x, Decision (P x)} (xs : list A) :
  filter P xs = [] ↔ ¬ Exists P xs.
Proof.
  induction xs as [|x xs IH].
  - split; [intros _ Hex; inversion Hex|done].
  - rewrite filter_cons. destruct (decide (P x)) as [HP|HP].
    + split; [done|]. intros Hex. destruct Hex. by left.
    + rewrite IH. split.
      * intros Hn Hex. inversion Hex; subst; auto.
      * intros Hn Hex. apply Hn. by right.
Qed.

(** The four ways [saveReview] can go. *)
Lemma saveReview_cases r a user w :
  let known := filter (same_key (store (app a)) (externalId r)) (reviews (db w)) in
  let row := review_row r a user in
  (∃ existing, known = [existing] ∧ saveReview r a user w = (inr false, w))
  ∨ (single known = None ∧ ¬ (1 ≤ rating row ≤ 5)
     ∧ saveReview r a user w = (inl rating_check_violation, w))
  ∨ (single known = None ∧ known ≠ []
     ∧ saveReview r a user w = (inr false, w))
  ∨ (known = [] ∧ 1 ≤ rating row ≤ 5
     ∧ saveReview r a user w = (inr true, with_db (insert_review row) w)).
Proof.
  cbv zeta. unfold saveReview, getReviewByExternalId, createReview.
  pose proof (review_row_key r a user) as [= Hst Hext].
  rewrite Hst, Hext.
  set (known := filter _ (reviews (db w))).
  destruct (single known) as [existing|] eqn:Hs.
  { left. exists existing. by apply single_Some in Hs. }
  right.
  destruct (Z.leb_spec 1 (rating (review_row r a user)));
    destruct (Z.leb_spec (rating (review_row r a user)) 5); simpl;
    try (left; split; [done|]; split; [lia|]; by rewrite with_db_same).
  right.
  destruct (decide (Exists _ _)) as [Hex|Hex].
  - left. split; [done|]. split; [|by rewrite with_db_same].
    intros Hnil. by apply filter_nil_not_Exists in Hnil.
  - right. split; [by apply filter_nil_not_Exists|]. split; [lia|]. done.
Qed.

Lemma saveReview_effect r a user w res w1 :
  saveReview r a user w = (res, w1) →
  save_frame w w1
  ∧ reviews (db w1) =
      reviews (db w) ++ (if decide (res = inr true) then [review_row r a user] else []).
Proof.
  destruct (saveReview_cases r a user w)
    as [(? & _ & ->)|[(_ & _ & ->)|[(_ & _ & ->)|(_ & _ & ->)]]];
    intros [= <- <-]; simpl; rewrite ?app_nil_r; by repeat split.
Qed.

Lemma unique_key_at_most_once st ext rows :
  NoDup (review_key <$> rows) → (length (filter (same_key st ext) rows) ≤ 1)%nat.
Proof.
  induction rows as [|x rows IH]; simpl; [lia|].
  rewrite NoDup_cons. intros [Hx Hnd]. rewrite filter_cons.
  destruct (decide (same_key st ext x)) as [Hk|Hk]; [|by apply IH].
  assert (Hnone : filter (same_key st ext) rows = []).
  { apply filter_nil_not_Exists. intros Hex. apply Exists_exists in Hex as (y & Hy & Hky).
    apply Hx. apply same_key_iff in Hk, Hky. rewrite Hk, <- Hky.
    apply list_elem_of_fmap. by exists y. }
  rewrite Hnone. simpl. lia.
Qed.

Lemma saveReview_known r a user w existing :
  filter (same_key (store (app a)) (externalId r)) (reviews (db w)) = [existing] →
  saveReview r a user w = (inr false, w).
Proof. intros Hk. unfold saveReview, getReviewByExternalId. by rewrite Hk. Qed.

Lemma insert_review_known st ext row w :
  filter (same_key st ext) (reviews (db w)) = [] → review_key row = (st, ext) →
  filter (same_key st ext) (reviews (db (with_db (insert_review row) w))) = [row].
Proof.
  intros Hnil Hkey. simpl. rewrite filter_app, Hnil. simpl.
  rewrite filter_cons, decide_True by by apply same_key_iff. done.
Qed.

Lemma saveReview_unique r a user w res w1 :
  reviews_unique (db w) → saveReview r a user w = (res, w1) → reviews_unique (db w1).
Proof.
  intros Hu.
  destruct (saveReview_cases r a user w)
    as [(? & _ & ->)|[(_ & _ & ->)|[(_ & _ & ->)|(Hnil & _ & ->)]]];
    intros [= <- <-]; try done.
  unfold reviews_unique; simpl. rewrite fmap_app. simpl.
  apply NoDup_app. split; [done|]. split; [|apply NoDup_singleton].
  intros k Hk Hk'. apply list_elem_of_singleton in Hk' as ->.
  apply list_elem_of_fmap in Hk as (y & Hy & Hin).
  apply filter_nil_not_Exists in Hnil. apply Hnil, Exists_exists.
  exists y. split; [done|]. apply same_key_iff. by rewrite <- Hy, review_row_key.
Qed.

(** C4. Ingesting a vendor review that is already stored never adds a
    row.  In a reviews table that satisfies [UNIQUE(store,
    external_review_id)], once [saveReview] has returned for a review, the
    table still satisfies the constraint and holds exactly one row with
    that store and external id, and saving any review with the same store
    and external id again returns [false] (zero new items counted by the
    saving loop) and leaves the world unchanged (1).  An insert that hits
    the unique index is answered with [null], not an error (2).  Saving the
    very same review again returns [false] and changes nothing, whatever
    the table (3); and [saveReview] preserves the constraint whatever its
    outcome (4). *)
Theorem ingestion_is_idempotent :
  (∀ r a user w b w1 r' a' user',
     reviews_unique (db w) →
     saveReview r a user w = (inr b, w1) →
     store (app a') = store (app a) → externalId r' = externalId r →
     reviews_unique (db w1)
     ∧ length (filter (same_key (store (app a)) (externalId r)) (reviews (db w1))) = 1%nat
     ∧ saveReview r' a' user' w1 = (inr false, w1)
     ∧ save_reviews [r'] a' user' 0 w1 = (0, None, w1))
  ∧ (∀ row d,
       1 ≤ rating row ≤ 5 →
       Exists (same_key (review_store row) (external_review_id row)) (reviews d) →
       createReview row d = (inr None, d))
  ∧ (∀ r a user w b w1,
       saveReview r a user w = (inr b, w1) → saveReview r a user w1 = (inr false, w1))
  ∧ (∀ r a user w res w1,
       reviews_unique (db w) → saveReview r a user w = (res, w1) → reviews_unique (db w1)).
Proof.
  repeat apply conj.
  - intros r a user w b w1 r' a' user' Hu Hsave Hst Hext.
    assert (Hu1 : reviews_unique (db w1)) by by eapply saveReview_unique.
    assert (Hone : ∃ existing,
               filter (same_key (store (app a)) (externalId r)) (reviews (db w1)) = [existing]).
    { pose proof (unique_key_at_most_once (store (app a)) (externalId r) _ Hu) as Hle.
      destruct (saveReview_cases r a user w)
        as [(ex & Hk & Heq)|[(_ & _ & Heq)|[(Hs & Hne & Heq)|(Hnil & _ & Heq)]]];
        rewrite Heq in Hsave; simplify_eq.
      - by exists ex.
      - destruct (filter _ (reviews (db _))) as [|x [|y l]]; simpl in *; [done|done|lia].
      - eexists. apply insert_review_known; [done|apply review_row_key]. }
    destruct Hone as [existing Hone].
    assert (Hagain : saveReview r' a' user' w1 = (inr false, w1)).
    { apply (saveReview_known _ _ _ _ existing). by rewrite Hst, Hext. }
    split; [done|]. split; [by rewrite Hone|]. split; [done|].
    simpl. by rewrite Hagain.
  - intros row d Hr Hex. unfold createReview.
    destruct (Z.leb_spec 1 (rating row)); [|lia].
    destruct (Z.leb_spec (rating row) 5); [|lia]. simpl.
    by rewrite decide_True.
  - intros r a user w b w1 Hsave.
    destruct (saveReview_cases r a user w)
      as [(ex & Hk & Heq)|[(_ & _ & Heq)|[(Hs & Hne & Heq)|(Hnil & _ & Heq)]]];
      rewrite Heq in Hsave; simplify_eq; try done.
    eapply saveReview_known, insert_review_known; [done|apply review_row_key].
  - intros *. apply saveReview_unique.
Qed.

Lemma ingestion_is_idempotent_witness :
  ∃ w1,
    saveReview Examples.notes_review Examples.notes_with_account Examples.alice
               Examples.demo_world = (inr true, w1)
    ∧ length (reviews (db w1)) = 1%nat
    ∧ reviews_unique (db w1)
    ∧ saveReview Examples.notes_review Examples.notes_with_account Examples.alice w1
        = (inr false, w1)
    ∧ save_reviews [Examples.notes_review] Examples.notes_with_account Examples.alice 0 w1
        = (0, None, w1)
    ∧ createReview (review_row Examples.notes_review Examples.notes_with_account
                               Examples.alice) (db w1) = (inr None, db w1).
Proof.
  destruct ingestion_is_idempotent as (Hsave & Hdup & _ & _).
  set (w1 := with_db (insert_review (review_row Examples.notes_review
                Examples.notes_with_account Examples.alice)) Examples.demo_world).
  exists w1. split; [vm_compute; reflexivity|].
  split; [reflexivity|].
  destruct (Hsave Examples.notes_review Examples.notes_with_account Examples.alice
              Examples.demo_world true w1
              Examples.notes_review Examples.notes_with_account Examples.alice)
    as (Hu & _ & Hagain & Hloop).
  - apply NoDup_nil_2.
  - vm_compute. reflexivity.
  - reflexivity.
  - reflexivity.
  - split; [exact Hu|]. split; [exact Hagain|]. split; [exact Hloop|].
    apply Hdup; [vm_compute; split; discriminate|].
    apply Exists_cons_hd. vm_compute. by split.
Defined.

End IngestionProps.

Section PollProps.
Import JS SupabaseService Env Reference ReviewScheduler.

Lemma save_reviews_effect rs a user n w n' thrown w1 :
  save_reviews rs a user n w = (n', thrown, w1) →
  save_frame w w1
  ∧ ∃ added,
      reviews (db w1) = reviews (db w) ++ added
      ∧ n' = n + Z.of_nat (length added)
      ∧ Forall (λ row, ∃ r, r ∈ rs ∧ row = review_row r a user) added.
Proof.
  revert n w. induction rs as [|r rs IH]; intros n w; simpl.
  - intros [= <- <- <-]. split; [by repeat split|].
    exists []. rewrite app_nil_r. split; [done|]. split; [simpl; lia|constructor].
  - destruct (saveReview r a user w) as [[m|saved] w0] eqn:Hs;
      apply saveReview_effect in Hs as [(Hc & Ho & Hq & Hu & Ha & Hp) Hrows].
    + intros [= <- <- <-]. split; [by repeat split|].
      exists []. rewrite app_nil_r. rewrite decide_False in Hrows by done.
      rewrite app_nil_r in Hrows. split; [done|]. split; [simpl; lia|constructor].
    + intros Hrest. apply IH in Hrest
        as [(Hc' & Ho' & Hq' & Hu' & Ha' & Hp') (added & Hrows' & Hn & Hall)].
      split; [repeat split; congruence|].
      destruct saved.
      * rewrite decide_True in Hrows by done.
        exists (review_row r a user :: added).
        rewrite Hrows', Hrows, <- app_assoc. split; [done|].
        split; [simpl length; lia|].
        constructor; [exists r; split; [left|done]|].
        eapply Forall_impl; [exact Hall|]. intros row (r0 & Hin & ->).
        exists r0. split; [by right|done].
      * rewrite decide_False in Hrows by done. rewrite app_nil_r in Hrows.
        exists added. rewrite Hrows', Hrows. split; [done|]. split; [lia|].
        eapply Forall_impl; [exact Hall|]. intros row (r0 & Hin & ->).
        exists r0. split; [by right|done].
Qed.

Lemma fetch_for_frame fuel V a acc lastPollAt w o w1 :
  fetch_for fuel V a acc lastPollAt w = (o, w1) → connector_frame w w1.
Proof.
  unfold fetch_for. destruct (store (app a)).
  - destruct (AppStoreClient.fetchReviewsWithAccount _ _ _ _ _ _) as [[rs|m|] w'] eqn:Hf;
      intros [= <- <-]; by apply as_account_fetch_frame in Hf.
  - destruct (PlayStoreClient.fetchReviewsWithAccount _ _ _ _ _ _) as [[rs|m|] w'] eqn:Hf;
      intros [= <- <-]; by apply ps_account_fetch_frame in Hf.
Qed.

Lemma as_fetch_pages_unresponded fuel api query key lastPollAt page acc w rs w1 :
  Forall (λ r, AppStoreClient.hasResponse r = false) acc →
  AppStoreClient.fetch_pages fuel api query key lastPollAt page acc w = (Returned rs, w1) →
  Forall (λ r, AppStoreClient.hasResponse r = false) rs.
Proof.
  revert page acc w. induction fuel as [|fuel IH]; intros page acc w Hacc; simpl; [done|].
  destruct (AppStoreClient.get_customerReviews _ _ _ _) as [m|resp]; [done|].
  rewrite as_scan_page_spec.
  assert (Hacc' : Forall (λ r, AppStoreClient.hasResponse r = false)
            (acc ++ (AppStoreClient.parse_unresponded
                       <$> before_first (as_old lastPollAt) (AppStoreClient.data resp)))).
  { apply Forall_app. split; [done|]. apply Forall_fmap, Forall_forall. by intros. }
  destruct (_ && _).
  - by apply IH.
  - by intros [= <- <-].
Qed.

Lemma as_account_fetch_unresponded fuel api account storeId lastPollAt w rs w1 :
  AppStoreClient.fetchReviewsWithAccount fuel api account storeId lastPollAt w
    = (Returned rs, w1) →
  Forall (λ r, AppStoreClient.hasResponse r = false) rs.
Proof.
  unfold AppStoreClient.fetchReviewsWithAccount, AppStoreClient.fetchUnrespondedReviews.
  destruct (negb _); [done|].
  destruct (or_undefined (apple_key_id account)); [|done].
  destruct (or_undefined (apple_issuer_id account)); [|done].
  destruct (AppStoreClient.generateToken_error _ _ _ _);
    [by destruct (AppStoreClient.is_auth_error _)|].
  destruct (AppStoreClient.fetch_pages _ _ _ _ _ _ _ _) as [[rs'|m|] w'] eqn:Hf; [| |done].
  - intros [= <- <-]. eapply as_fetch_pages_unresponded; [|exact Hf]. constructor.
  - by destruct (AppStoreClient.is_auth_error m).
Qed.

Lemma ps_account_fetch_unresponded fuel api account pkg lastPollAt w rs w1 :
  PlayStoreClient.fetchReviewsWithAccount fuel api account pkg lastPollAt w
    = (Returned rs, w1) →
  Forall (λ r, PlayStoreClient.hasResponse r = false) rs.
Proof.
  unfold PlayStoreClient.fetchReviewsWithAccount, PlayStoreClient.fetchUnrespondedReviews.
  destruct (negb _); [done|].
  destruct (PlayStoreClient.fetchReviews _ _ _ _ _ _ _) as [[rs'|m|] w'] eqn:Hf; [| |done].
  - intros [= <- <-]. apply slice0_sublist, Forall_forall.
    intros r Hr. by apply list_elem_of_filter in Hr as [? _].
  - by destruct (PlayStoreClient.is_auth_error m).
Qed.

Lemma fetch_for_unresponded fuel V a acc lastPollAt w rs w1 :
  fetch_for fuel V a acc lastPollAt w = (Returned rs, w1) →
  Forall (λ r, hasResponse r = false) rs.
Proof.
  unfold fetch_for. destruct (store (app a)).
  - destruct (AppStoreClient.fetchReviewsWithAccount _ _ _ _ _ _) as [[rs'|m|] w'] eqn:Hf;
      intros [= <- <-].
    apply Forall_fmap. eapply Forall_impl; [by eapply as_account_fetch_unresponded|]. done.
  - destruct (PlayStoreClient.fetchReviewsWithAccount _ _ _ _ _ _) as [[rs'|m|] w'] eqn:Hf;
      intros [= <- <-].
    apply Forall_fmap. eapply Forall_impl; [by eapply ps_account_fetch_unresponded|]. done.
Qed.

Lemma on_poll_error_effect a user e w :
  clock (on_poll_error a user e w) = clock w
  ∧ db (on_poll_error a user e w) = db w
  ∧ requests (on_poll_error a user e w) = requests w
  ∧ ∃ msgs, outbox (on_poll_error a user e w) = outbox w ++ msgs
            ∧ Forall (λ m, is_summary m = false) msgs.
Proof.
  unfold on_poll_error. destruct (_ || _); simpl.
  - repeat split. eexists. split; [done|]. by repeat constructor.
  - repeat split. exists []. by rewrite app_nil_r.
Qed.

Lemma pollAppReviews_never_throws fuel V a user w m w1 :
  pollAppReviews fuel V a user w ≠ (Thrown m, w1).
Proof.
  unfold pollAppReviews. destruct (account a) as [acc|]; [|done].
  destruct (negb _); [done|].
  destruct (fetch_for _ _ _ _ _ _) as [[rs|e|] w0]; [|done..].
  by destruct (save_reviews _ _ _ _ _) as [[n thrown] w2].
Qed.


Lemma pollAppReviews_effect fuel V a user w n w1 :
  pollAppReviews fuel V a user w = (Returned n, w1) →
  clock w1 = clock w ∧ users (db w1) = users (db w)
  ∧ (∃ added, reviews (db w1) = reviews (db w) ++ added
              ∧ n = Z.of_nat (length added)
              ∧ Forall (λ row, ∃ r, hasResponse r = false ∧ row = review_row r a user) added)
  ∧ (∃ msgs, outbox w1 = outbox w ++ msgs ∧ Forall (λ m, is_summary m = false) msgs)
  ∧ (apps (db w1) = apps (db w)
     ∨ (account_is_valid a = true
        ∧ apps (db w1) = advance_cursor (clock w) (app_id (app a)) <$> apps (db w))).
Proof.
  unfold pollAppReviews, account_is_valid.
  assert (Hnil : ∀ A (xs : list A), xs = xs ++ []) by (intros; by rewrite app_nil_r).
  destruct (account a) as [acc|];
    [|intros [= <- <-]; split; [done|]; split; [done|];
      split; [by exists []|]; split; [by exists [] | by left]].
  destruct (is_valid acc) eqn:Hv; simpl;
    [|intros [= <- <-]; split; [done|]; split; [done|];
      split; [by exists []|]; split; [by exists [] | by left]].
  clear Hnil.
  destruct (fetch_for _ _ _ _ _ _) as [[rs|e|] w0] eqn:Hf; [| |done].
  - pose proof (fetch_for_unresponded _ _ _ _ _ _ _ _ Hf) as Hun.
    apply fetch_for_frame in Hf as (Hc & Ho & Hu & Hp & Hr).
    destruct (save_reviews _ _ _ _ _) as [[n' thrown] w2] eqn:Hs.
    apply save_reviews_effect in Hs
      as [(Hc' & Ho' & Hq' & Hu' & Ha' & Hp') (added & Hrows & Hn & Hall)].
    set (w3 := match thrown with Some e => on_poll_error a user e w2 | None => w2 end).
    assert (H3 : clock w3 = clock w2 ∧ db w3 = db w2
                 ∧ ∃ msgs, outbox w3 = outbox w2 ++ msgs
                           ∧ Forall (λ m, is_summary m = false) msgs).
    { unfold w3. destruct thrown as [e|].
      - destruct (on_poll_error_effect a user e w2) as (? & ? & _ & ?). done.
      - repeat split. exists []. by rewrite app_nil_r. }
    destruct H3 as (Hc3 & Hd3 & msgs & Hm3 & Hns).
    intros [= <- <-]. simpl. rewrite Hc3, Hd3, Hm3.
    split; [congruence|]. split; [congruence|]. split; [|split].
    + exists added. rewrite Hrows, Hr. split; [done|]. split; [lia|].
      eapply Forall_impl; [exact Hall|]. intros row (r & Hin & ->).
      exists r. split; [|done]. by eapply Forall_forall in Hun.
    + exists msgs. by rewrite Ho', Ho.
    + right. split; [done|]. rewrite Hp', Hp, Hc', Hc. done.
  - apply fetch_for_frame in Hf as (Hc & Ho & Hu & Hp & Hr).
    destruct (on_poll_error_effect a user e w0) as (Hc3 & Hd3 & _ & msgs & Hm3 & Hns).
    intros [= <- <-]. simpl. rewrite Hc3, Hd3, Hm3.
    split; [congruence|]. split; [congruence|]. split; [|split].
    + exists []. by rewrite app_nil_r.
    + exists msgs. by rewrite Ho.
    + right. split; [done|]. rewrite Hp, Hc. done.
Qed.

End PollProps.

Section CursorAdvanceClaim.
Import JS SupabaseService Env Reference ReviewScheduler Examples.




Lemma pollAppReviews_advances fuel V a user w acc n w1 :
  account a = Some acc → is_valid acc = true →
  pollAppReviews fuel V a user w = (Returned n, w1) →
  clock w1 = clock w
  ∧ apps (db w1) = advance_cursor (clock w) (app_id (app a)) <$> apps (db w).
Proof.
  intros Ha Hv Hp. unfold pollAppReviews in Hp. rewrite Ha, Hv in Hp. simpl in Hp.
  destruct (fetch_for _ _ _ _ _ _) as [[rs|e|] w0] eqn:Hf; [| |done];
    apply fetch_for_frame in Hf as (Hc & _ & _ & Happs & _).
  - destruct (save_reviews _ _ _ _ _) as [[n' thrown] w2] eqn:Hs.
    apply save_reviews_effect in Hs as [(Hc' & _ & _ & _ & _ & Happs') _].
    injection Hp as <- <-. simpl.
    destruct thrown as [e|].
    + destruct (on_poll_error_effect a user e w2) as (-> & -> & _).
      rewrite Hc', Hc, Happs', Happs. done.
    + rewrite Hc', Hc, Happs', Happs. done.
  - injection Hp as <- <-. simpl.
    destruct (on_poll_error_effect a user e w0) as (-> & -> & _).
    rewrite Hc, Happs. done.
Qed.











End CursorAdvanceClaim.

Section UnrespondedClaim.
Import JS SupabaseService Env Reference ReviewScheduler Examples.

Lemma commented_elem page rc :
  rc ∈ commented page → rc.1 ∈ page ∧ PlayStoreClient.first_userComment rc.1 = Some rc.2.
Proof.
  unfold commented. rewrite list_elem_of_omap. intros (review & Hin & Hc).
  destruct (PlayStoreClient.first_userComment review) as [c|] eqn:Hf; [|done].
  simpl in Hc. by injection Hc as <-.
Qed.

Lemma before_first_elem {A} (old : A → bool) xs x : x ∈ before_first old xs → x ∈ xs.
Proof.
  induction xs as [|y xs IH]; simpl; [done|].
  destruct (old y); [by intros ?%not_elem_of_nil|].
  rewrite !elem_of_cons. intros [->|Hin]; [by left|right; auto].
Qed.

Lemma ps_fetch_pages_provenance fuel api pkg cred M lastPollAt page acc w rs w1 :
  Forall (ps_parsed_from api pkg cred) acc →
  PlayStoreClient.fetch_pages fuel api pkg cred M lastPollAt page acc w = (Returned rs, w1) →
  Forall (ps_parsed_from api pkg cred) rs.
Proof.
  revert page acc w. induction fuel as [|fuel IH]; intros page acc w Hacc; simpl; [done|].
  destruct (PlayStoreClient.reviews_list _ _ _ _ _) as [m|resp] eqn:Hget; [done|].
  set (scan := match PlayStoreClient.reviews resp with
               | Some rs0 => PlayStoreClient.scan_page _ _ rs0 acc
               | None => (acc, false)
               end).
  assert (Hscan : Forall (ps_parsed_from api pkg cred) scan.1).
  { unfold scan. destruct (PlayStoreClient.reviews resp) as [rs0|] eqn:Hrs; [|done].
    rewrite ps_scan_page_spec. simpl. apply Forall_app. split; [done|].
    apply Forall_fmap, Forall_forall. intros rc Hrc.
    apply before_first_elem, commented_elem in Hrc as [Hin Hc].
    exists (clock w), rc.1, rc.2. split; [by eexists page, _, resp, rs0|]. by repeat split. }
  destruct scan as [acc' reached]; simpl in Hscan.
  destruct (_ && _ && _).
  - by apply IH.
  - intros [= <- <-]. by apply slice0_sublist.
Qed.

Lemma as_fetch_pages_provenance fuel api query key lastPollAt page acc w rs w1 :
  Forall (as_parsed_from api query key) acc →
  AppStoreClient.fetch_pages fuel api query key lastPollAt page acc w = (Returned rs, w1) →
  Forall (as_parsed_from api query key) rs.
Proof.
  revert page acc w. induction fuel as [|fuel IH]; intros page acc w Hacc; simpl; [done|].
  destruct (AppStoreClient.get_customerReviews _ _ _ _) as [m|resp] eqn:Hget; [done|].
  rewrite as_scan_page_spec.
  assert (Hacc' : Forall (as_parsed_from api query key)
            (acc ++ (AppStoreClient.parse_unresponded
                       <$> before_first (as_old lastPollAt) (AppStoreClient.data resp)))).
  { apply Forall_app. split; [done|]. apply Forall_fmap, Forall_forall.
    intros review Hin%before_first_elem. exists review. split; [|done].
    by exists page, resp. }
  destruct (_ && _).
  - by apply IH.
  - by intros [= <- <-].
Qed.

Lemma as_fetch_pages_requests fuel api query key lastPollAt page acc w o w1 :
  AppStoreClient.fetch_pages fuel api query key lastPollAt page acc w = (o, w1) →
  ∃ k, requests w1 = requests w ++ (AppStoreReviewsGet query <$> seq page k).
Proof.
  revert page acc w. induction fuel as [|fuel IH]; intros page acc w; simpl.
  { intros [= <- <-]. exists 0%nat. by rewrite app_nil_r. }
  destruct (AppStoreClient.get_customerReviews _ _ _ _) as [m|resp].
  { intros [= <- <-]. by exists 1%nat. }
  destruct (AppStoreClient.scan_page _ _ _) as [acc' reached].
  destruct (_ && _).
  - intros Hf. apply IH in Hf as [k ->]. exists (S k). simpl. by rewrite <- app_assoc.
  - intros [= <- <-]. by exists 1%nat.
Qed.

Lemma ps_account_fetch_provenance fuel api account pkg lastPollAt w rs w1 :
  PlayStoreClient.fetchReviewsWithAccount fuel api account pkg lastPollAt w
    = (Returned rs, w1) →
  Forall (λ r, PlayStoreClient.hasResponse r = false
               ∧ ps_parsed_from api pkg (credential_data account) r) rs.
Proof.
  unfold PlayStoreClient.fetchReviewsWithAccount, PlayStoreClient.fetchUnrespondedReviews,
    PlayStoreClient.fetchReviews.
  destruct (negb _); [done|].
  destruct (PlayStoreClient.createClient_error _ _);
    [by destruct (PlayStoreClient.is_auth_error _)|].
  destruct (PlayStoreClient.fetch_pages _ _ _ _ _ _ _ _ _) as [[rs'|m|] w'] eqn:Hf; [| |done].
  - intros [= <- <-]. apply slice0_sublist, Forall_forall.
    intros r Hr. apply list_elem_of_filter in Hr as [Hno Hin]. split; [done|].
    eapply ps_fetch_pages_provenance in Hf; [|constructor].
    by eapply Forall_forall in Hf.
  - by destruct (PlayStoreClient.is_auth_error m).
Qed.

Lemma as_account_fetch_provenance fuel api account storeId lastPollAt w rs w1 :
  AppStoreClient.fetchReviewsWithAccount fuel api account storeId lastPollAt w
    = (Returned rs, w1) →
  Forall (as_parsed_from api (AppStoreClient.unresponded_query storeId)
                         (credential_data account)) rs.
Proof.
  unfold AppStoreClient.fetchReviewsWithAccount, AppStoreClient.fetchUnrespondedReviews.
  destruct (negb _); [done|].
  destruct (or_undefined (apple_key_id account)); [|done].
  destruct (or_undefined (apple_issuer_id account)); [|done].
  destruct (AppStoreClient.generateToken_error _ _ _ _);
    [by destruct (AppStoreClient.is_auth_error _)|].
  destruct (AppStoreClient.fetch_pages _ _ _ _ _ _ _ _) as [[rs'|m|] w'] eqn:Hf; [| |done].
  - intros [= <- <-]. eapply as_fetch_pages_provenance; [|exact Hf]. constructor.
  - by destruct (AppStoreClient.is_auth_error m).
Qed.

Lemma as_account_fetch_requests fuel api account storeId lastPollAt w o w1 :
  AppStoreClient.fetchReviewsWithAccount fuel api account storeId lastPollAt w = (o, w1) →
  Forall (λ req, ∃ page, req = AppStoreReviewsGet (AppStoreClient.unresponded_query storeId) page)
         (issued w w1).
Proof.
  assert (Hnone : ∀ w w' : World, requests w' = requests w → Forall
            (λ req, ∃ page, req = AppStoreReviewsGet (AppStoreClient.unresponded_query storeId) page)
            (issued w w')).
  { intros w0 w' Heq. unfold issued. by rewrite Heq, drop_all. }
  unfold AppStoreClient.fetchReviewsWithAccount, AppStoreClient.fetchUnrespondedReviews.
  destruct (negb _); [intros [= <- <-]; by apply Hnone|].
  destruct (or_undefined (apple_key_id account)); [|intros [= <- <-]; by apply Hnone].
  destruct (or_undefined (apple_issuer_id account)); [|intros [= <- <-]; by apply Hnone].
  destruct (AppStoreClient.generateToken_error _ _ _ _).
  { destruct (AppStoreClient.is_auth_error _); intros [= <- <-]; by apply Hnone. }
  destruct (AppStoreClient.fetch_pages _ _ _ _ _ _ _ _) as [o' w'] eqn:Hf.
  apply as_fetch_pages_requests in Hf as [k Hreq].
  assert (Hall : Forall
            (λ req, ∃ page, req = AppStoreReviewsGet (AppStoreClient.unresponded_query storeId) page)
            (drop (length (requests w)) (requests w'))).
  { rewrite Hreq, drop_app_length. apply Forall_fmap, Forall_forall. intros page _.
    by exists page. }
  destruct o' as [rs|m|]; [| |by intros [= <- <-]].
  - by intros [= <- <-].
  - by destruct (AppStoreClient.is_auth_error m); intros [= <- <-].
Qed.

(** The rows a batch adds are the rows of some of its reviews, in their
    order. *)
Lemma save_reviews_saved rs a user n w n' thrown w1 :
  save_reviews rs a user n w = (n', thrown, w1) →
  ∃ saved,
    saved `sublist_of` rs
    ∧ reviews (db w1) = reviews (db w) ++ ((λ r, review_row r a user) <$> saved).
Proof.
  revert n w. induction rs as [|r rs IH]; intros n w; simpl.
  - intros [= <- <- <-]. exists []. by rewrite app_nil_r.
  - destruct (saveReview r a user w) as [[m|saved] w0] eqn:Hs;
      apply saveReview_effect in Hs as [_ Hrows].
    + intros [= <- <- <-]. exists []. split; [apply sublist_nil_l|].
      rewrite decide_False in Hrows by done. done.
    + intros Hrest. apply IH in Hrest as (rest & Hsub & Hrows').
      destruct saved.
      * rewrite decide_True in Hrows by done.
        exists (r :: rest). split; [by apply sublist_skip|].
        rewrite Hrows', Hrows, <- app_assoc. done.
      * rewrite decide_False in Hrows by done. rewrite app_nil_r in Hrows.
        exists rest. split; [by apply sublist_cons|]. by rewrite Hrows', Hrows.
Qed.

(** What the connector call of a poll returns stems from reviews without
    a developer response. *)
Lemma fetch_for_origin fuel V a acc lastPollAt w rs w1 :
  fetch_for fuel V a acc lastPollAt w = (Returned rs, w1) →
  Forall (λ r, hasResponse r = false ∧ unresponded_at_vendor V a acc r) rs.
Proof.
  unfold fetch_for. destruct (store (app a)).
  - destruct (AppStoreClient.fetchReviewsWithAccount _ _ _ _ _ _) as [[rs'|m|] w'] eqn:Hf;
      intros [= <- <-].
    pose proof (as_account_fetch_unresponded _ _ _ _ _ _ _ _ Hf) as Hno.
    pose proof (as_account_fetch_provenance _ _ _ _ _ _ _ _ Hf) as Hprov.
    apply Forall_fmap, Forall_forall. intros r Hr. simpl. split.
    + by eapply Forall_forall in Hno.
    + by eapply Forall_forall in Hprov.
  - destruct (PlayStoreClient.fetchReviewsWithAccount _ _ _ _ _ _) as [[rs'|m|] w'] eqn:Hf;
      intros [= <- <-].
    apply Forall_fmap. eapply Forall_impl; [by eapply ps_account_fetch_provenance|].
    intros r [Hno (now & review & comment & Hs & Hc & Hr & Hflag)]. simpl.
    split; [done|]. exists now, review, comment. repeat split; try done.
    by rewrite <- Hflag.
Qed.

(** The rows a poll attempt adds are the rows of reviews its connector
    call returned. *)
Lemma pollAppReviews_ingests fuel V a user w n w1 :
  pollAppReviews fuel V a user w = (Returned n, w1) →
  ∃ saved,
    reviews (db w1) = reviews (db w) ++ ((λ r, review_row r a user) <$> saved)
    ∧ (saved = []
       ∨ ∃ acc fetched w0,
           account a = Some acc ∧ is_valid acc = true
           ∧ fetch_for fuel V a acc (last_poll_at (app a)) w = (Returned fetched, w0)
           ∧ saved `sublist_of` fetched
           ∧ Forall (λ r, hasResponse r = false ∧ unresponded_at_vendor V a acc r) saved).
Proof.
  unfold pollAppReviews.
  destruct (account a) as [acc|];
    [|intros [= <- <-]; exists []; rewrite app_nil_r; split; [done|by left]].
  destruct (is_valid acc) eqn:Hv; simpl;
    [|intros [= <- <-]; exists []; rewrite app_nil_r; split; [done|by left]].
  destruct (fetch_for _ _ _ _ _ _) as [[rs|e|] w0] eqn:Hf; [| |done].
  - pose proof (fetch_for_origin _ _ _ _ _ _ _ _ Hf) as Horigin.
    pose proof Hf as Hframe. apply fetch_for_frame in Hframe as (_ & _ & _ & _ & Hr).
    destruct (save_reviews _ _ _ _ _) as [[n' thrown] w2] eqn:Hs.
    apply save_reviews_saved in Hs as (saved & Hsub & Hrows).
    assert (Hd3 : db (match thrown with
                      | Some e => on_poll_error a user e w2
                      | None => w2
                      end) = db w2).
    { destruct thrown as [e|]; [|done].
      by destruct (on_poll_error_effect a user e w2) as (_ & ? & _). }
    intros [= <- <-]. simpl. rewrite Hd3, Hrows, Hr.
    exists saved. split; [done|]. right. exists acc, rs, w0.
    repeat split; try done.
    apply Forall_forall. intros r Hin.
    eapply Forall_forall in Horigin; [exact Horigin|]. by eapply elem_of_sublist.
  - pose proof Hf as Hframe. apply fetch_for_frame in Hframe as (_ & _ & _ & _ & Hr).
    destruct (on_poll_error_effect a user e w0) as (_ & Hd3 & _).
    intros [= <- <-]. simpl. rewrite Hd3, Hr. exists []. rewrite app_nil_r.
    split; [done|by left].
Qed.

(** C10. Only reviews without a developer response are ingested.
    (1) Every review the Play Store account-based fetch returns has
    [hasResponse = false] and is the parse of a review served by the vendor
    that carries no developer comment.
    (2) Every review the App Store account-based fetch returns has
    [hasResponse = false] and is the parse of a review served for the query
    the client built, (3) every request of that fetch is for that query,
    its first page or a page reached by the next links of the listing, and
    (4) the query asks for [exists[publishedResponse]=false].
    (5) The rows [pollAppReviews] adds to the reviews table are the rows of
    reviews its account-based fetch has returned to it, in the order of the
    fetch: each of them has [hasResponse = false] and stems from a review
    the vendor served, on the Play Store one without a developer comment,
    on the App Store one served in answer to that query; no row is added
    when nothing was fetched.
    (6) Hence the external id of every row added for a Play Store app is
    the id of a review the vendor served without a developer comment: a
    review served only with a developer comment is not ingested. *)
Theorem only_unresponded_reviews_are_ingested :
  (∀ fuel api account pkg lastPollAt w rs w1,
     PlayStoreClient.fetchReviewsWithAccount fuel api account pkg lastPollAt w
       = (Returned rs, w1) →
     Forall (λ r, PlayStoreClient.hasResponse r = false
                  ∧ ∃ now review comment,
                      ps_served api pkg (credential_data account) review
                      ∧ PlayStoreClient.first_userComment review = Some comment
                      ∧ r = PlayStoreClient.parse now review comment
                      ∧ PlayStoreClient.has_developerComment review = false) rs)
  ∧ (∀ fuel api account storeId lastPollAt w rs w1,
       AppStoreClient.fetchReviewsWithAccount fuel api account storeId lastPollAt w
         = (Returned rs, w1) →
       Forall (λ r, AppStoreClient.hasResponse r = false
                    ∧ ∃ review,
                        as_served api (AppStoreClient.unresponded_query storeId)
                                  (credential_data account) review
                        ∧ r = AppStoreClient.parse_unresponded review) rs)
  ∧ (∀ fuel api account storeId lastPollAt w o w1,
       AppStoreClient.fetchReviewsWithAccount fuel api account storeId lastPollAt w
         = (o, w1) →
       Forall (λ req, ∃ page,
                 req = AppStoreReviewsGet (AppStoreClient.unresponded_query storeId) page)
              (issued w w1))
  ∧ (∀ appId,
       exists_publishedResponse (AppStoreClient.unresponded_query appId) = Some false)
  ∧ (∀ fuel V a user w n w1,
       pollAppReviews fuel V a user w = (Returned n, w1) →
       ∃ saved,
         reviews (db w1) = reviews (db w) ++ ((λ r, review_row r a user) <$> saved)
         ∧ (saved = []
            ∨ ∃ acc fetched w0,
                account a = Some acc ∧ is_valid acc = true
                ∧ fetch_for fuel V a acc (last_poll_at (app a)) w = (Returned fetched, w0)
                ∧ saved `sublist_of` fetched
                ∧ Forall (λ r, hasResponse r = false ∧ unresponded_at_vendor V a acc r)
                         saved))
  ∧ (∀ fuel V a user w n w1 acc row,
       pollAppReviews fuel V a user w = (Returned n, w1) →
       account a = Some acc → store (app a) = play_store →
       row ∈ new_reviews w w1 →
       ∃ review,
         ps_served (playStore V) (store_id (app a)) (credential_data acc) review
         ∧ PlayStoreClient.has_developerComment review = false
         ∧ external_review_id row = or_else (PlayStoreClient.reviewId review) EmptyString).
Proof.
  repeat apply conj.
  - intros * Hf. eapply Forall_impl; [by eapply ps_account_fetch_provenance|].
    intros r [Hno (now & review & comment & Hs & Hc & Hr & Hflag)]. split; [done|].
    exists now, review, comment. repeat split; try done. by rewrite <- Hflag.
  - intros * Hf.
    pose proof (as_account_fetch_unresponded _ _ _ _ _ _ _ _ Hf) as Hno.
    pose proof (as_account_fetch_provenance _ _ _ _ _ _ _ _ Hf) as Hprov.
    apply Forall_forall. intros r Hr. split.
    + by eapply Forall_forall in Hno.
    + by eapply Forall_forall in Hprov.
  - intros *. apply as_account_fetch_requests.
  - done.
  - intros *. apply pollAppReviews_ingests.
  - intros * Hp Ha Hstore Hrow.
    apply pollAppReviews_ingests in Hp as (saved & Hrows & Hsaved).
    unfold new_reviews in Hrow. rewrite Hrows, drop_app_length in Hrow.
    destruct Hsaved as [->|(acc' & fetched & w0 & Ha' & _ & Hf & Hsub & Hall)];
      [by apply not_elem_of_nil in Hrow|].
    assert (acc' = acc) as -> by congruence.
    apply list_elem_of_fmap in Hrow as (r & -> & Hr).
    eapply Forall_forall in Hall as [_ Horigin]; [|exact Hr].
    destruct r as [parsed|parsed].
    + exfalso. clear Horigin. unfold fetch_for in Hf. rewrite Hstore in Hf.
      destruct (PlayStoreClient.fetchReviewsWithAccount _ _ _ _ _ _) as [[rs'|m|] w'];
        [|done..].
      injection Hf as <- <-. apply (elem_of_sublist _ _ _ Hr) in Hsub.
      by apply list_elem_of_fmap in Hsub as (? & ? & _).
    + destruct Horigin as (now & review & comment & Hs & _ & Hno & ->).
      exists review. by repeat split.
Qed.

Lemma only_unresponded_reviews_are_ingested_witness :
  (* the Play Store listing: the review modified at 120 s has a developer
     reply and is not returned *)
  (∃ rs w1, PlayStoreClient.fetchReviewsWithAccount 5 paged_play google_account
              "com.example.app" None empty_world = (Returned rs, w1)
            ∧ PlayStoreClient.externalId <$> rs
                = ["ps-130"; "ps-110"; "ps-100"; "ps-90"; "ps-80"]
            ∧ Forall (λ r, PlayStoreClient.hasResponse r = false) rs)
  ∧ (∃ rs w1, AppStoreClient.fetchReviewsWithAccount 5 paged_appstore apple_account
                "6446" None empty_world = (Returned rs, w1)
              ∧ Forall (λ r, AppStoreClient.hasResponse r = false) rs
              ∧ Forall (λ req, ∃ page,
                          req = AppStoreReviewsGet (AppStoreClient.unresponded_query "6446") page)
                       (issued empty_world w1))
  ∧ (∃ n w1 saved, pollAppReviews 3 demo_vendors notes_with_account alice demo_world
                   = (Returned n, w1)
                   ∧ reviews (db w1)
                     = reviews (db demo_world)
                       ++ ((λ r, review_row r notes_with_account alice) <$> saved)
                   ∧ length saved = 2%nat
                   ∧ Forall (λ r, hasResponse r = false) saved)
  ∧ (∃ n w1, pollAppReviews 3 demo_vendors (with_account (db demo_world) mail_app)
               alice demo_world = (Returned n, w1)
             ∧ Forall (λ row, ∃ review,
                         ps_served demo_play "com.example.mail" "{}" review
                         ∧ PlayStoreClient.has_developerComment review = false
                         ∧ external_review_id row
                           = or_else (PlayStoreClient.reviewId review) EmptyString)
                      (new_reviews demo_world w1)).
Proof.
  destruct only_unresponded_reviews_are_ingested as (Hps & Has & Hreq & _ & Hpoll & Hids).
  split; [|split; [|split]].
  - eexists _, _. split; [vm_compute; reflexivity|]. split; [reflexivity|].
    eapply Forall_impl;
      [eapply (Hps 5%nat paged_play google_account "com.example.app" None empty_world);
       vm_compute; reflexivity|].
    by intros r [? _].
  - eexists _, _. split; [vm_compute; reflexivity|]. split.
    + eapply Forall_impl;
        [eapply (Has 5%nat paged_appstore apple_account "6446" None empty_world);
         vm_compute; reflexivity|].
      by intros r [? _].
    + eapply (Hreq 5%nat paged_appstore apple_account "6446" None empty_world).
      vm_compute. reflexivity.
  - edestruct (Hpoll 3%nat demo_vendors notes_with_account alice demo_world)
      as (saved & Hrows & Hsaved); [vm_compute; reflexivity|].
    eexists _, _, saved. split; [vm_compute; reflexivity|].
    split; [exact Hrows|]. split.
    + apply (f_equal length) in Hrows. rewrite length_app, length_fmap in Hrows.
      change (length (reviews (db demo_world)) + length saved)%nat
        with (length saved) in Hrows.
      rewrite <- Hrows. vm_compute. reflexivity.
    + destruct Hsaved as [->|(acc & fetched & w0 & _ & _ & _ & _ & Hall)]; [constructor|].
      eapply Forall_impl; [exact Hall|]. by intros r [? _].
  - eexists _, _. split; [vm_compute; reflexivity|].
    apply Forall_forall. intros row Hrow.
    eapply (Hids 3%nat demo_vendors (with_account (db demo_world) mail_app) alice demo_world
              _ _ google_account row); [vm_compute; reflexivity|reflexivity..|exact Hrow].
Defined.

End UnrespondedClaim.

Section SummaryProps.
Import JS SupabaseService Env Reference ReviewScheduler.

Lemma summaries_app xs ys : summaries (xs ++ ys) = summaries xs ++ summaries ys.
Proof. apply filter_app. Qed.

Lemma summaries_none msgs : Forall (λ m, is_summary m = false) msgs → summaries msgs = [].
Proof.
  intros Hall. apply filter_nil_not_Exists. intros Hex.
  apply Exists_exists in Hex as (m & Hin & Hm).
  eapply Forall_forall in Hall; [|done]. congruence.
Qed.

Lemma owner_rows_all u rows :
  Forall (λ row, review_user_id row = user_id u) rows → owner_rows u rows = rows.
Proof.
  induction 1 as [|row rows Hrow _ IH]; [done|].
  unfold owner_rows in *. by rewrite filter_cons, decide_True, IH.
Qed.

Lemma owner_rows_none u rows :
  Forall (λ row, review_user_id row ≠ user_id u) rows → owner_rows u rows = [].
Proof.
  induction 1 as [|row rows Hrow _ IH]; [done|].
  unfold owner_rows in *. by rewrite filter_cons, decide_False, IH.
Qed.

(** One owner's apps: the total grows by the rows added, all of them the
    owner's, and no summary is sent meanwhile. *)
Lemma poll_user_apps_effect fuel V apps user total w total' w1 :
  poll_user_apps fuel V apps user total w = (Returned total', w1) →
  ∃ added msgs,
    reviews (db w1) = reviews (db w) ++ added
    ∧ total' = total + Z.of_nat (length added)
    ∧ Forall (λ row, review_user_id row = user_id user) added
    ∧ outbox w1 = outbox w ++ msgs
    ∧ Forall (λ m, is_summary m = false) msgs.
Proof.
  revert total w. induction apps as [|a apps IH]; intros total w; simpl.
  - intros [= <- <-]. exists [], []. rewrite !app_nil_r. repeat split; [simpl; lia|done..].
  - destruct (pollAppReviews fuel V a user w) as [[n|m|] w0] eqn:Hp; [| |done].
    + apply pollAppReviews_effect in Hp
        as (_ & _ & (added0 & Hrows0 & Hn & Hall0) & (msgs0 & Hout0 & Hns0) & _).
      intros Hrest. apply IH in Hrest as (added & msgs & Hrows & Ht & Hall & Hout & Hns).
      exists (added0 ++ added), (msgs0 ++ msgs).
      rewrite Hrows, Hrows0, Hout, Hout0, !app_assoc. split; [done|].
      split; [rewrite length_app; lia|]. split; [|split; [done|by apply Forall_app]].
      apply Forall_app. split; [|done].
      eapply Forall_impl; [exact Hall0|]. intros row (r & _ & ->).
      apply review_row_user.
    + by apply pollAppReviews_never_throws in Hp.
Qed.

Lemma poll_user_apps_never_throws fuel V apps user total w m w1 :
  poll_user_apps fuel V apps user total w ≠ (Thrown m, w1).
Proof.
  revert total w. induction apps as [|a apps IH]; intros total w; simpl; [done|].
  destruct (pollAppReviews fuel V a user w) as [[n|e|] w0] eqn:Hp; [apply IH| |done].
  by apply pollAppReviews_never_throws in Hp.
Qed.

Lemma omap_cons_eq {A B} (f : A → option B) (x : A) (xs : list A) :
  omap f (x :: xs) = match f x with Some y => y :: omap f xs | None => omap f xs end.
Proof. done. Qed.

Lemma omap_ext_in {A B} (f g : A → option B) (xs : list A) :
  (∀ x, x ∈ xs → f x = g x) → omap f xs = omap g xs.
Proof.
  induction xs as [|x xs IH]; intros Hfg; [done|].
  rewrite !omap_cons_eq.
  rewrite (Hfg x) by by left. rewrite IH; [done|]. intros y Hy. apply Hfg. by right.
Qed.

Lemma summarize_effect user total w :
  db (summarize user total w) = db w
  ∧ outbox (summarize user total w)
    = outbox w ++ (if total >? 0 then [(telegram_id user, SummaryMessage total)] else []).
Proof. unfold summarize. destruct (total >? 0); simpl; by rewrite ?app_nil_r. Qed.

(** A cycle over owner groups with distinct owners: the summaries sent are
    exactly the ones owed for the rows added. *)
Lemma poll_users_effect fuel V groups w w1 :
  NoDup ((λ g, user_id (owner_of g)) <$> groups) →
  poll_users fuel V groups w = (Returned (), w1) →
  ∃ added msgs,
    reviews (db w1) = reviews (db w) ++ added
    ∧ outbox w1 = outbox w ++ msgs
    ∧ Forall (λ row, ∃ g, g ∈ groups ∧ review_user_id row = user_id (owner_of g)) added
    ∧ summaries msgs = omap (expected_summary added) groups.
Proof.
  revert w. induction groups as [|[k [u apps]] rest IH]; intros w Hnd; cbn [poll_users].
  - intros [= <-]. exists [], []. rewrite !app_nil_r. by repeat split.
  - rewrite fmap_cons in Hnd. apply NoDup_cons in Hnd as [Hfresh Hnd].
    change (user_id (owner_of (k, (u, apps)))) with (user_id u) in Hfresh.
    destruct (poll_user_apps fuel V apps u 0 w) as [[total|m|] w0] eqn:Hp; [|done..].
    apply poll_user_apps_effect in Hp as (added1 & msgs1 & Hrows1 & Ht & Hall1 & Hout1 & Hns1).
    destruct (summarize_effect u total w0) as [Hdb Hout].
    intros Hrest. apply IH in Hrest as (added2 & msgs2 & Hrows2 & Hout2 & Hall2 & Hsum2);
      [|done].
    exists (added1 ++ added2),
      (msgs1 ++ (if total >? 0 then [(telegram_id u, SummaryMessage total)] else []) ++ msgs2).
    rewrite Hrows2, Hdb, Hrows1, Hout2, Hout, Hout1, <- !app_assoc.
    split; [done|]. split; [done|].
    assert (Hother : ∀ g, g ∈ rest → user_id (owner_of g) ≠ user_id u).
    { intros g Hg Heq. apply Hfresh. rewrite <- Heq.
      apply list_elem_of_fmap. by exists g. }
    split.
    + apply Forall_app. split.
      * eapply Forall_impl; [exact Hall1|]. intros row Hrow.
        exists (k, (u, apps)). split; [by left|done].
      * eapply Forall_impl; [exact Hall2|]. intros row (g & Hg & Hrow).
        exists g. split; [by right|done].
    + rewrite !summaries_app, (summaries_none msgs1), Hsum2 by done.
      assert (Hmine : owner_rows u (added1 ++ added2) = added1).
      { unfold owner_rows. rewrite filter_app.
        fold (owner_rows u added1). fold (owner_rows u added2).
        rewrite owner_rows_all by done. rewrite owner_rows_none; [by rewrite app_nil_r|].
        eapply Forall_impl; [exact Hall2|]. intros row (g & Hg & ->). by apply Hother. }
      assert (Hhead : expected_summary (added1 ++ added2) (k, (u, apps))
                      = if total >? 0 then Some (telegram_id u, SummaryMessage total)
                        else None).
      { unfold expected_summary. change (owner_of (k, (u, apps))) with u.
        rewrite Hmine. by replace (Z.of_nat (length added1)) with total by lia. }
      assert (Hrest : omap (expected_summary (added1 ++ added2)) rest
                      = omap (expected_summary added2) rest).
      { apply omap_ext_in. intros g Hg. unfold expected_summary.
        replace (owner_rows (owner_of g) (added1 ++ added2))
          with (owner_rows (owner_of g) added2); [done|].
        unfold owner_rows. rewrite filter_app.
        fold (owner_rows (owner_of g) added1).
        rewrite owner_rows_none; [done|].
        eapply Forall_impl; [exact Hall1|]. intros row ->. intros Heq.
        by apply (Hother g Hg). }
      rewrite omap_cons_eq, Hhead, Hrest. by destruct (total >? 0).
Qed.

Lemma push_app_keyed k u a m :
  k = user_id u →
  Forall (λ g, g.1 = user_id (owner_of g)) m → NoDup (m.*1) →
  Forall (λ g, g.1 = user_id (owner_of g)) (push_app k u a m) ∧ NoDup ((push_app k u a m).*1)
  ∧ ∀ x, x ∈ (push_app k u a m).*1 ↔ x = k ∨ x ∈ m.*1.
Proof.
  intros Hk. induction m as [|[k' [u' apps]] m IH]; intros Hall Hnd; simpl.
  - split; [by repeat constructor|]. split; [apply NoDup_singleton|].
    intros x. rewrite list_elem_of_singleton, elem_of_nil. tauto.
  - apply Forall_cons in Hall as [Hhd Hall]. apply NoDup_cons in Hnd as [Hfresh Hnd].
    destruct (decide (k' = k)) as [->|Hne]; simpl.
    + split; [by constructor|]. split; [by constructor|].
      intros x. rewrite elem_of_cons. tauto.
    + destruct (IH Hall Hnd) as (Hall' & Hnd' & Hin').
      split; [by constructor|]. split.
      * constructor; [|done]. rewrite Hin'. intros [->|?]; done.
      * intros x. rewrite !elem_of_cons, Hin'. tauto.
Qed.

Lemma group_apps_keyed d apps :
  Forall (λ g, g.1 = user_id (owner_of g)) (group_apps d apps)
  ∧ NoDup ((group_apps d apps).*1).
Proof.
  unfold group_apps.
  assert (Hgen : ∀ m, Forall (λ g, g.1 = user_id (owner_of g)) m → NoDup (m.*1) →
            Forall (λ g, g.1 = user_id (owner_of g)) (foldl (λ m a, group_app d a m) m apps)
            ∧ NoDup ((foldl (λ m a, group_app d a m) m apps).*1)).
  { induction apps as [|a apps IH]; intros m Hall Hnd; simpl; [done|].
    apply IH; unfold group_app;
      destruct (getUserById _ d) as [u|]; try done;
      destruct (user_is_active u); try done;
      by destruct (push_app_keyed (user_id u) u a m eq_refl Hall Hnd) as (? & ? & _). }
  apply Hgen; constructor.
Qed.

Lemma group_apps_owners_distinct d apps :
  NoDup ((λ g, user_id (owner_of g)) <$> group_apps d apps).
Proof.
  destruct (group_apps_keyed d apps) as [Hall Hnd].
  replace ((λ g, user_id (owner_of g)) <$> group_apps d apps)
    with ((group_apps d apps).*1); [done|].
  by apply Forall_fmap_ext_1.
Qed.

Lemma poll_users_never_throws fuel V groups w m w1 :
  poll_users fuel V groups w ≠ (Thrown m, w1).
Proof.
  revert w. induction groups as [|[k [u apps]] rest IH]; intros w; simpl; [done|].
  destruct (poll_user_apps fuel V apps u 0 w) as [[total|e|] w0] eqn:Hp; [apply IH| |done].
  by apply poll_user_apps_never_throws in Hp.
Qed.

Lemma pollAllApps_runs_cycle fuel V s s1 :
  isPolling s = false → pollAllApps fuel V s = (Returned (), s1) →
  isPolling s1 = false ∧ poll_cycle fuel V (world s) = (Returned (), world s1).
Proof.
  intros Hidle. unfold pollAllApps. rewrite Hidle.
  destruct (poll_cycle fuel V (world s)) as [[[]|m|] w1] eqn:Hc.
  - by intros [= <-].
  - by apply poll_users_never_throws in Hc.
  - done.
Qed.

(** C5. One summary per owner and cycle.
    (1) In a full cycle the owner groups have distinct owners, and the
    summary messages sent during the cycle are, in group order, exactly one
    message per owner whose newly persisted reviews are not zero, reporting
    their number, and none for the others.
    (2) While one owner's resources are processed no summary is sent; the
    total handed to the summary step is the number of rows added for that
    owner's resources, and that step sends one message when the total is
    positive and nothing when it is zero.
    (3) Three resources of one owner yielding 2, 0 and 5 new reviews end in
    one summary reporting 7. *)
Theorem one_summary_per_owner :
  (∀ fuel V s s1,
     isPolling s = false → pollAllApps fuel V s = (Returned (), s1) →
     let groups := group_apps (db (world s)) (getAllActiveAppsWithAccounts (db (world s))) in
     NoDup ((λ g, user_id (owner_of g)) <$> groups)
     ∧ summaries (new_messages (world s) (world s1))
       = omap (expected_summary (new_reviews (world s) (world s1))) groups)
  ∧ (∀ fuel V apps user w total w1,
       poll_user_apps fuel V apps user 0 w = (Returned total, w1) →
       total = Z.of_nat (length (new_reviews w w1))
       ∧ summaries (new_messages w w1) = []
       ∧ new_messages w1 (summarize user total w1)
         = if total >? 0 then [(telegram_id user, SummaryMessage total)] else [])
  ∧ (∀ fuel V a1 a2 a3 user w w1 w2 w3,
       pollAppReviews fuel V a1 user w = (Returned 2, w1) →
       pollAppReviews fuel V a2 user w1 = (Returned 0, w2) →
       pollAppReviews fuel V a3 user w2 = (Returned 5, w3) →
       poll_users fuel V [(user_id user, (user, [a1; a2; a3]))] w
         = (Returned (), sendSummaryNotification (telegram_id user) 7 w3)).
Proof.
  repeat apply conj.
  - intros fuel V s s1 Hidle Hrun. cbv zeta.
    apply pollAllApps_runs_cycle in Hrun as [_ Hc]; [|done].
    split; [apply group_apps_owners_distinct|].
    unfold poll_cycle in Hc.
    apply poll_users_effect in Hc as (added & msgs & Hrows & Hout & _ & Hsum);
      [|apply group_apps_owners_distinct].
    unfold new_messages, new_reviews. by rewrite Hrows, Hout, !drop_app_length.
  - intros fuel V apps user w total w1 Hp.
    apply poll_user_apps_effect in Hp as (added & msgs & Hrows & Ht & _ & Hout & Hns).
    unfold new_messages, new_reviews. repeat apply conj.
    + rewrite Hrows, drop_app_length. lia.
    + rewrite Hout, drop_app_length. by apply summaries_none.
    + destruct (summarize_effect user total w1) as [_ ->]. by rewrite drop_app_length.
  - intros fuel V a1 a2 a3 user w w1 w2 w3 H1 H2 H3. simpl.
    rewrite H1. simpl. rewrite H2. simpl. by rewrite H3.
Qed.

Lemma one_summary_per_owner_witness :
  (* the demo cycle: Alice's three apps yield 2, 0 and 5 new reviews, Bob's
     app none; one message, to Alice, reporting 7 *)
  (∃ s1, pollAllApps 3 Examples.demo_vendors (Examples.idle Examples.demo_world)
         = (Returned (), s1)
         ∧ outbox (world s1) = [(1001, SummaryMessage 7)]
         ∧ summaries (new_messages Examples.demo_world (world s1))
           = omap (expected_summary (new_reviews Examples.demo_world (world s1)))
                  (group_apps (db Examples.demo_world)
                     (getAllActiveAppsWithAccounts (db Examples.demo_world))))
  ∧ (∃ total w1,
       poll_user_apps 3 Examples.demo_vendors
         (with_account (db Examples.demo_world)
            <$> [Examples.notes_app; Examples.tasks_app; Examples.mail_app])
         Examples.alice 0 Examples.demo_world = (Returned total, w1)
       ∧ total = 7
       ∧ summaries (new_messages Examples.demo_world w1) = []
       ∧ new_messages w1 (summarize Examples.alice total w1) = [(1001, SummaryMessage 7)])
  ∧ (∃ w3, poll_users 3 Examples.demo_vendors
             [("u-alice", (Examples.alice,
                 with_account (db Examples.demo_world)
                   <$> [Examples.notes_app; Examples.tasks_app; Examples.mail_app]))]
             Examples.demo_world
           = (Returned (), sendSummaryNotification 1001 7 w3)).
Proof.
  destruct one_summary_per_owner as (Hcycle & Howner & Hsum).
  split; [|split].
  - edestruct (Hcycle 3%nat Examples.demo_vendors (Examples.idle Examples.demo_world))
      as [_ Heq]; [reflexivity | vm_compute; reflexivity |].
    eexists. split; [vm_compute; reflexivity|]. split; [reflexivity|]. exact Heq.
  - edestruct (Howner 3%nat Examples.demo_vendors
                 (with_account (db Examples.demo_world)
                    <$> [Examples.notes_app; Examples.tasks_app; Examples.mail_app])
                 Examples.alice Examples.demo_world)
      as (Ht & Hnone & Hone); [vm_compute; reflexivity|].
    eexists _, _. split; [vm_compute; reflexivity|]. split; [reflexivity|].
    split; [exact Hnone | exact Hone].
  - eexists.
    eapply (Hsum 3%nat Examples.demo_vendors
              (with_account (db Examples.demo_world) Examples.notes_app)
              (with_account (db Examples.demo_world) Examples.tasks_app)
              (with_account (db Examples.demo_world) Examples.mail_app)
              Examples.alice Examples.demo_world);
      vm_compute; reflexivity.
Defined.

End SummaryProps.

Section ExclusivityClaim.
Import JS SupabaseService Env Reference ReviewScheduler Examples.

Lemma running_count_cons p ts : running_count (p :: ts) = (b2n (running p) + running_count ts)%nat.
Proof.
  unfold running_count. rewrite filter_cons.
  destruct (running p); simpl; by rewrite ?decide_True, ?decide_False by done.
Qed.

Lemma running_count_app ts ts' :
  running_count (ts ++ ts') = (running_count ts + running_count ts')%nat.
Proof. unfold running_count. by rewrite filter_app, length_app. Qed.

Lemma running_count_insert ts i p p' :
  ts !! i = Some p →
  (running_count (<[i := p']> ts) + b2n (running p)
   = running_count ts + b2n (running p'))%nat.
Proof.
  revert i. induction ts as [|q ts IH]; intros [|i] Hi; simplify_eq/=.
  - rewrite !running_count_cons. lia.
  - rewrite !running_count_cons. specialize (IH i Hi). lia.
Qed.

(** One stretch of an invocation: how the guard and its own status move. *)
Lemma step_guard fuel V p s p' s' :
  step fuel V p s = Some (p', s') →
  (p = Called ∧ isPolling s = true ∧ p' = Settled ∧ s' = s)
  ∨ (p = Called ∧ isPolling s = false ∧ running p' = true ∧ isPolling s' = true
     ∧ world s' = world s)
  ∨ (running p = true ∧ running p' = true ∧ isPolling s' = isPolling s)
  ∨ (running p = true ∧ p' = Settled ∧ isPolling s' = false).
Proof.
  destruct p as [| |[|a todo] m|[|[k [u apps]] rest]|u [|a todo] total rest|]; simpl.
  - destruct (isPolling s) eqn:Hg; intros [= <- <-]; [left|right; left]; done.
  - intros [= <- <-]. right; right; left. done.
  - intros [= <- <-]. right; right; left. done.
  - intros [= <- <-]. right; right; left. done.
  - intros [= <- <-]. right; right; right. done.
  - intros [= <- <-]. right; right; left. done.
  - intros [= <- <-]. right; right; left. done.
  - destruct (pollAppReviews fuel V a u (world s)) as [[n|m|] w1];
      intros [= <- <-]; right; right; left; done.
  - done.
Qed.

Lemma guard_invariant_step fuel V sys sys' :
  guard_invariant sys → sys_step fuel V sys sys' → guard_invariant sys'.
Proof.
  unfold guard_invariant. intros Hinv Hstep.
  destruct Hstep as [sys|sys i p p' s' Hi Hs|sys w']; simpl.
  - rewrite running_count_app, Hinv. unfold running_count. simpl. lia.
  - pose proof (running_count_insert _ _ _ p' Hi) as Hcount.
    assert (Hle : (b2n (running p) ≤ running_count (tasks sys))%nat).
    { apply list_elem_of_split_length in Hi as (l1 & l2 & -> & _).
      rewrite running_count_app, running_count_cons. lia. }
    destruct (step_guard _ _ _ _ _ _ Hs)
      as [(-> & Hg & -> & ->)|[(-> & Hg & Hr & Hg' & _)|[(Hr & Hr' & Hg)|(Hr & -> & Hg)]]].
    + simpl in Hcount. lia.
    + rewrite Hg', Hr in *. rewrite Hg in Hinv. simpl in Hcount. lia.
    + rewrite Hg, Hr, Hr' in *. lia.
    + rewrite Hg, Hr in *. simpl in *. destruct (isPolling (state sys)); lia.
  - done.
Qed.

Lemma guard_invariant_reachable fuel V w sys :
  rtc (sys_step fuel V) (initial w) sys → guard_invariant sys.
Proof.
  revert sys. apply rtc_ind_r; [done|].
  intros y z _ Hstep IH. by eapply guard_invariant_step.
Qed.

Lemma running_count_pos ts i p :
  ts !! i = Some p → running p = true → (1 ≤ running_count ts)%nat.
Proof.
  intros Hi Hp. apply list_elem_of_split_length in Hi as (l1 & l2 & -> & _).
  rewrite running_count_app, running_count_cons, Hp. simpl. lia.
Qed.

Lemma two_running ts i j p q :
  ts !! i = Some p → ts !! j = Some q → running p = true → running q = true →
  i ≠ j → (2 ≤ running_count ts)%nat.
Proof.
  revert i j. induction ts as [|r ts IH]; intros [|i] [|j] Hi Hj Hp Hq Hne;
    simplify_eq/=; rewrite running_count_cons.
  - rewrite Hp. pose proof (running_count_pos _ _ _ Hj Hq). simpl. lia.
  - rewrite Hq. pose proof (running_count_pos _ _ _ Hi Hp). simpl. lia.
  - assert (i ≠ j) by congruence. specialize (IH i j Hi Hj Hp Hq). lia.
Qed.

(** C1. Triggering the full cycle while one is in progress does nothing,
    and two cycles never run at once.
    (1) With [isPolling] set, [pollAllApps] returns at once with the same
    scheduler state and the same world: no request is issued, no cursor
    moves, no message is sent.
    (2) The first stretch of an invocation that finds [isPolling] set is its
    last, and leaves state and world as they were.
    (3) In every interleaving of invocations with whatever else runs on the
    event loop, at most one invocation is between the guard and its
    [finally], and one is there exactly when [isPolling] is set.
    (4) Hence an invocation triggered while another one is in progress
    settles at its first stretch without changing anything. *)
Theorem cycle_exclusivity :
  (∀ fuel V s, isPolling s = true → pollAllApps fuel V s = (Returned (), s))
  ∧ (∀ fuel V s, isPolling s = true → step fuel V Called s = Some (Settled, s))
  ∧ (∀ fuel V w sys,
       rtc (sys_step fuel V) (initial w) sys →
       (running_count (tasks sys) ≤ 1)%nat
       ∧ (isPolling (state sys) = true ↔ running_count (tasks sys) = 1%nat)
       ∧ ∀ i j p q, tasks sys !! i = Some p → tasks sys !! j = Some q →
                    running p = true → running q = true → i = j)
  ∧ (∀ fuel V w sys i j q,
       rtc (sys_step fuel V) (initial w) sys →
       tasks sys !! i = Some Called →
       tasks sys !! j = Some q → running q = true →
       step fuel V Called (state sys) = Some (Settled, state sys)
       ∧ sys_step fuel V sys {| state := state sys; tasks := <[i := Settled]> (tasks sys) |}).
Proof.
  assert (Hnoop : ∀ fuel V s, isPolling s = true → step fuel V Called s = Some (Settled, s)).
  { intros fuel V s Hg. simpl. by rewrite Hg. }
  assert (Hinv : ∀ fuel V w sys,
             rtc (sys_step fuel V) (initial w) sys →
             (running_count (tasks sys) ≤ 1)%nat
             ∧ (isPolling (state sys) = true ↔ running_count (tasks sys) = 1%nat)).
  { intros fuel V w sys Hreach. apply guard_invariant_reachable in Hreach.
    unfold guard_invariant in Hreach. rewrite Hreach.
    destruct (isPolling (state sys)); split; try lia; split; done. }
  split; [|split; [|split]].
  - intros fuel V s Hg. unfold pollAllApps. by rewrite Hg.
  - exact Hnoop.
  - intros fuel V w sys Hreach. destruct (Hinv fuel V w sys Hreach) as [Hle Hiff].
    split; [done|]. split; [done|].
    intros i j p q Hi Hj Hp Hq. destruct (decide (i = j)) as [|Hne]; [done|].
    pose proof (two_running _ _ _ _ _ Hi Hj Hp Hq Hne). lia.
  - intros fuel V w sys i j q Hreach Hi Hj Hq.
    destruct (Hinv fuel V w sys Hreach) as [Hle Hiff].
    assert (Hg : isPolling (state sys) = true).
    { apply Hiff. pose proof (running_count_pos _ _ _ Hj Hq). lia. }
    split; [by apply Hnoop|]. eapply Resume; [done|]. by apply Hnoop.
Qed.

Lemma cycle_exclusivity_witness :
  (* a cycle in progress: a second trigger changes nothing *)
  pollAllApps 3 demo_vendors (busy demo_world) = (Returned (), busy demo_world)
  ∧ step 3 demo_vendors Called (busy demo_world) = Some (Settled, busy demo_world)
  (* two triggers, the first past the guard, the second resumed after it *)
  ∧ rtc (sys_step 3 demo_vendors) (initial demo_world)
        {| state := busy demo_world; tasks := [AwaitApps; Called] |}
  ∧ (running_count [AwaitApps; Called] ≤ 1)%nat
  ∧ sys_step 3 demo_vendors
      {| state := busy demo_world; tasks := [AwaitApps; Called] |}
      {| state := busy demo_world; tasks := [AwaitApps; Settled] |}.
Proof.
  destruct cycle_exclusivity as (Hnoop & Hstep & Hinv & Hlate).
  assert (Hreach : rtc (sys_step 3 demo_vendors) (initial demo_world)
                     {| state := busy demo_world; tasks := [AwaitApps; Called] |}).
  { eapply rtc_l; [apply Trigger|]. eapply rtc_l; [apply Trigger|].
    eapply rtc_l;
      [apply (Resume _ _ _ 0%nat Called AwaitApps (busy demo_world)); reflexivity|].
    apply rtc_refl. }
  split; [apply Hnoop; reflexivity|].
  split; [apply Hstep; reflexivity|].
  split; [exact Hreach|].
  split; [apply (Hinv _ _ _ _ Hreach)|].
  apply (Hlate 3%nat demo_vendors demo_world
           {| state := busy demo_world; tasks := [AwaitApps; Called] |}
           1%nat 0%nat AwaitApps Hreach); reflexivity.
Defined.

End ExclusivityClaim.

Section SoloRun.
Import JS SupabaseService Env Reference ReviewScheduler.

Lemma solo_grouping fuel V todo m s :
  rtc (solo_step fuel V) (Grouping todo m, s)
      (NextUser (foldl (λ m a, group_app (db (world s)) a m) m todo), s).
Proof.
  revert m. induction todo as [|a todo IH]; intros m; simpl.
  - by apply rtc_once.
  - eapply rtc_l; [|apply IH]. done.
Qed.

Lemma solo_polling_user fuel V todo u total rest g w total' w1 :
  poll_user_apps fuel V todo u total w = (Returned total', w1) →
  rtc (solo_step fuel V)
      (PollingUser u todo total rest, {| isPolling := g; world := w |})
      (NextUser rest, {| isPolling := g; world := summarize u total' w1 |}).
Proof.
  revert total w. induction todo as [|a todo IH]; intros total w; simpl.
  - intros [= <- <-]. by apply rtc_once.
  - destruct (pollAppReviews fuel V a u w) as [[n|m|] w0] eqn:Hp; [| |done].
    + intros Hrest. eapply rtc_l; [|by apply IH].
      unfold solo_step; simpl. by rewrite Hp.
    + intros Hrest. eapply rtc_l; [|by apply IH].
      unfold solo_step; simpl. by rewrite Hp.
Qed.

Lemma solo_polling_users fuel V groups g w w1 :
  poll_users fuel V groups w = (Returned (), w1) →
  rtc (solo_step fuel V)
      (NextUser groups, {| isPolling := g; world := w |})
      (NextUser [], {| isPolling := g; world := w1 |}).
Proof.
  revert w. induction groups as [|[k [u apps]] rest IH]; intros w; simpl.
  - intros [= <-]. apply rtc_refl.
  - destruct (poll_user_apps fuel V apps u 0 w) as [[total|m|] w0] eqn:Hp; [|done..].
    intros Hrest. eapply rtc_l; [done|].
    etrans; [by apply solo_polling_user|]. by apply IH.
Qed.

(** The uninterrupted [pollAllApps] is the run of a lone invocation: it
    takes the guard, goes through grouping and polling, and releases the
    guard with the world the function computes. *)
Lemma pollAllApps_is_a_solo_run fuel V w s1 :
  pollAllApps fuel V {| isPolling := false; world := w |} = (Returned (), s1) →
  rtc (solo_step fuel V) (Called, {| isPolling := false; world := w |}) (Settled, s1).
Proof.
  intros Hrun. apply pollAllApps_runs_cycle in Hrun as [Hg Hc]; [|done].
  destruct s1 as [g1 w1]. simpl in *. subst g1. unfold poll_cycle in Hc.
  eapply rtc_l; [done|]. eapply rtc_l; [done|].
  etrans; [apply solo_grouping|]. simpl.
  etrans; [by apply solo_polling_users|]. by apply rtc_once.
Qed.

End SoloRun.

(* ===================================================================== *)
(** * Further properties of the code                                      *)
(* ===================================================================== *)

Section EscapeHtmlProps.
Import JS Reference ReviewScheduler.

Lemma string_app_nil (b : string) : EmptyString +:+ b = b.
Proof. reflexivity. Qed.

Lemma string_app_cons x (a b : string) : String x a +:+ b = String x (a +:+ b).
Proof. reflexivity. Qed.

Lemma string_app_assoc (a b c : string) : (a +:+ b) +:+ c = a +:+ (b +:+ c).
Proof.
  induction a as [|x a IH]; [done|]. by rewrite !string_app_cons, IH.
Qed.

Lemma replace_all_app c r a b :
  replace_all c r (a +:+ b) = replace_all c r a +:+ replace_all c r b.
Proof.
  induction a as [|x a IH]; [done|]. rewrite string_app_cons. cbn [replace_all].
  destruct (decide (x = c)); rewrite IH; [|done].
  by rewrite string_app_assoc.
Qed.

Lemma escapeHtml_cons c rest : escapeHtml (String c rest) = entity c +:+ escapeHtml rest.
Proof.
  unfold escapeHtml, entity. cbn [replace_all].
  destruct (decide (c = "&"%char)) as [->|Hamp].
  { by rewrite !replace_all_app. }
  cbn [replace_all].
  destruct (decide (c = "<"%char)) as [->|Hlt].
  { by rewrite !replace_all_app. }
  cbn [replace_all].
  destruct (decide (c = ">"%char)) as [->|Hgt]; [done|done].
Qed.

Lemma escapeHtml_escape_each text : escapeHtml text = escape_each text.
Proof.
  induction text as [|c rest IH]; [done|].
  by rewrite escapeHtml_cons, IH.
Qed.

Lemma escape_each_app a b : escape_each (a +:+ b) = escape_each a +:+ escape_each b.
Proof.
  induction a as [|c a IH]; [done|].
  rewrite string_app_cons. cbn [escape_each]. by rewrite IH, string_app_assoc.
Qed.

(** X1. The three global replacements of [escapeHtml], applied one after
    the other, amount to one pass that writes [&amp;], [&lt;] or [&gt;] for
    each of the three characters and copies every other character: the
    ampersands the later replacements introduce are never escaped again.
    Hence escaping distributes over concatenation (the notifications
    concatenate escaped parts), and the escaped text determines the
    original: reading the three entities back returns it. *)
Theorem escapeHtml_is_one_pass :
  (∀ text, escapeHtml text = escape_each text)
  ∧ (∀ a b, escapeHtml (a +:+ b) = escapeHtml a +:+ escapeHtml b)
  ∧ (∀ text, unescape (escapeHtml text) = text).
Proof.
  split; [exact escapeHtml_escape_each|]. split.
  - intros a b. by rewrite !escapeHtml_escape_each, escape_each_app.
  - intros text. rewrite escapeHtml_escape_each.
    induction text as [|c rest IH]; [done|].
    cbn [escape_each]. unfold entity.
    destruct (decide (c = "&"%char)) as [->|Hamp];
      [rewrite !string_app_cons, string_app_nil; cbn; by rewrite IH|].
    destruct (decide (c = "<"%char)) as [->|Hlt];
      [rewrite !string_app_cons, string_app_nil; cbn; by rewrite IH|].
    destruct (decide (c = ">"%char)) as [->|Hgt];
      [rewrite !string_app_cons, string_app_nil; cbn; by rewrite IH|].
    rewrite string_app_cons, string_app_nil. cbn [unescape].
    rewrite decide_False by done. by rewrite IH.
Qed.

Lemma escape_each_no_markup text :
  ("<"%char ∉ String.list_ascii_of_string (escape_each text))
  ∧ (">"%char ∉ String.list_ascii_of_string (escape_each text)).
Proof.
  induction text as [|c rest [IH1 IH2]]; [split; apply not_elem_of_nil|].
  cbn [escape_each]. unfold entity.
  destruct (decide (c = "&"%char)) as [->|Hamp];
    [|destruct (decide (c = "<"%char)) as [->|Hlt];
      [|destruct (decide (c = ">"%char)) as [->|Hgt]]];
    rewrite ?string_app_cons, ?string_app_nil; cbn;
    rewrite ?not_elem_of_cons; repeat split; try done; congruence.
Qed.

Lemma escape_each_ampersands text : ampersands_are_entities (escape_each text).
Proof.
  induction text as [|c rest IH]; intros pre post Heq.
  { by destruct pre. }
  cbn [escape_each] in Heq. unfold entity in Heq.
  destruct (decide (c = "&"%char)) as [->|Hamp];
    [|destruct (decide (c = "<"%char)) as [->|Hlt];
      [|destruct (decide (c = ">"%char)) as [->|Hgt]]];
    rewrite ?string_app_cons, ?string_app_nil in Heq.
  - destruct pre as [|x1 pre]; rewrite ?string_app_cons, ?string_app_nil in Heq;
      [injection Heq as <-; by exists (escape_each rest); left|].
    injection Heq as _ Heq.
    do 4 (destruct pre as [|? pre]; rewrite ?string_app_cons, ?string_app_nil in Heq;
          [done|injection Heq as _ Heq]).
    by apply (IH pre).
  - destruct pre as [|x1 pre]; rewrite ?string_app_cons, ?string_app_nil in Heq;
      [injection Heq as <-; by exists (escape_each rest); right; left|].
    injection Heq as _ Heq.
    do 3 (destruct pre as [|? pre]; rewrite ?string_app_cons, ?string_app_nil in Heq;
          [done|injection Heq as _ Heq]).
    by apply (IH pre).
  - destruct pre as [|x1 pre]; rewrite ?string_app_cons, ?string_app_nil in Heq;
      [injection Heq as <-; by exists (escape_each rest); right; right|].
    injection Heq as _ Heq.
    do 3 (destruct pre as [|? pre]; rewrite ?string_app_cons, ?string_app_nil in Heq;
          [done|injection Heq as _ Heq]).
    by apply (IH pre).
  - destruct pre as [|x1 pre]; rewrite ?string_app_cons, ?string_app_nil in Heq;
      [injection Heq as ? _; congruence|].
    injection Heq as _ Heq. by apply (IH pre).
Qed.

(** X2. Text escaped by [escapeHtml] carries no markup of its own: it
    contains neither [<] nor [>], and every [&] in it is the first
    character of [&amp;], [&lt;] or [&gt;]. *)
Theorem escapeHtml_leaves_no_markup text :
  ("<"%char ∉ String.list_ascii_of_string (escapeHtml text))
  ∧ (">"%char ∉ String.list_ascii_of_string (escapeHtml text))
  ∧ ampersands_are_entities (escapeHtml text).
Proof.
  rewrite escapeHtml_escape_each.
  destruct (escape_each_no_markup text). split; [done|]. split; [done|].
  apply escape_each_ampersands.
Qed.

End EscapeHtmlProps.

Section RateLimiterCoverage.
Import RateLimiter Reference.

Lemma tryConsume_static now key rl :
  limit (tryConsume now key rl).2 = limit rl
  ∧ windowMs (tryConsume now key rl).2 = windowMs rl.
Proof.
  unfold tryConsume. destruct (buckets rl !! key) as [ex|]; [|done].
  destruct (now >=? resetAt ex); [done|].
  by destruct (count ex + 1 <=? limit rl).
Qed.

Lemma tryConsume_other_key now key key' rl :
  key ≠ key' → buckets (tryConsume now key rl).2 !! key' = buckets rl !! key'.
Proof.
  intros Hne. unfold tryConsume.
  destruct (buckets rl !! key) as [ex|]; simpl; [|by rewrite lookup_insert_ne].
  destruct (now >=? resetAt ex); simpl; [by rewrite lookup_insert_ne|].
  destruct (count ex + 1 <=? limit rl); simpl; [by rewrite lookup_insert_ne|done].
Qed.

(** What [tryConsume] answers and stores depends on the limiter only
    through its two settings and the bucket of the key. *)
Lemma tryConsume_local now key rl rl' :
  limit rl = limit rl' → windowMs rl = windowMs rl' →
  buckets rl !! key = buckets rl' !! key →
  (tryConsume now key rl).1 = (tryConsume now key rl').1
  ∧ buckets (tryConsume now key rl).2 !! key = buckets (tryConsume now key rl').2 !! key.
Proof.
  intros Hl Hw Hb. unfold tryConsume. rewrite <- Hb, <- Hl, <- Hw.
  destruct (buckets rl !! key) as [ex|] eqn:Hex; simpl;
    [|by rewrite !lookup_insert_eq].
  destruct (now >=? resetAt ex); simpl; [by rewrite !lookup_insert_eq|].
  destruct (count ex + 1 <=? limit rl); simpl; [by rewrite !lookup_insert_eq|].
  by rewrite Hex, <- Hb.
Qed.

Lemma limiter_eq rl rl' :
  limit rl = limit rl' → windowMs rl = windowMs rl' → buckets rl = buckets rl' → rl = rl'.
Proof. destruct rl, rl'; simpl. by intros -> -> ->. Qed.

(** X3. The buckets of distinct keys do not interact: consuming [key]
    leaves the bucket of any other key as it was, so the answer to a later
    consumption of [key'] is the one the limiter would have given without
    it, and two consumptions of distinct keys lead to the same limiter in
    either order. *)
Theorem tryConsume_keys_are_independent rl now now' key key' :
  key ≠ key' →
  buckets (tryConsume now key rl).2 !! key' = buckets rl !! key'
  ∧ (tryConsume now' key' (tryConsume now key rl).2).1 = (tryConsume now' key' rl).1
  ∧ (tryConsume now' key' (tryConsume now key rl).2).2
    = (tryConsume now key (tryConsume now' key' rl).2).2.
Proof.
  intros Hne.
  pose proof (tryConsume_other_key now key key' rl Hne) as Hk'.
  pose proof (tryConsume_other_key now' key' key rl (not_eq_sym Hne)) as Hk.
  destruct (tryConsume_static now key rl) as [Hl Hw].
  destruct (tryConsume_static now' key' rl) as [Hl' Hw'].
  destruct (tryConsume_local now' key' (tryConsume now key rl).2 rl Hl Hw Hk') as [Hr' Hb'].
  destruct (tryConsume_local now key (tryConsume now' key' rl).2 rl Hl' Hw' Hk) as [Hr Hb].
  split; [done|]. split; [done|].
  apply limiter_eq.
  - destruct (tryConsume_static now' key' (tryConsume now key rl).2) as [-> _].
    destruct (tryConsume_static now key (tryConsume now' key' rl).2) as [-> _].
    congruence.
  - destruct (tryConsume_static now' key' (tryConsume now key rl).2) as [_ ->].
    destruct (tryConsume_static now key (tryConsume now' key' rl).2) as [_ ->].
    congruence.
  - apply map_eq. intros k.
    destruct (decide (k = key')) as [->|Hk1].
    + rewrite Hb'. by rewrite (tryConsume_other_key now key key').
    + rewrite (tryConsume_other_key now' key' k) by done.
      destruct (decide (k = key)) as [->|Hk2].
      * by rewrite Hb.
      * by rewrite !(tryConsume_other_key _ _ k).
Qed.

Lemma tryConsume_keys_are_independent_witness :
  buckets (tryConsume 5 "chat:1" (new 3 1000)).2 !! "chat:2" = buckets (new 3 1000) !! "chat:2"
  ∧ (tryConsume 7 "chat:2" (tryConsume 5 "chat:1" (new 3 1000)).2).1
    = (tryConsume 7 "chat:2" (new 3 1000)).1
  ∧ (tryConsume 7 "chat:2" (tryConsume 5 "chat:1" (new 3 1000)).2).2
    = (tryConsume 5 "chat:1" (tryConsume 7 "chat:2" (new 3 1000)).2).2.
Proof. apply (tryConsume_keys_are_independent (new 3 1000) 5 7 "chat:1" "chat:2"). done. Defined.

Lemma limiter_ok_new l w : limiter_ok (new l w).
Proof. split; simpl; [lia|]. intros key st. by rewrite lookup_empty. Qed.

Lemma limiter_ok_tryConsume now key rl :
  limiter_ok rl → limiter_ok (tryConsume now key rl).2.
Proof.
  intros [Hl Hb]. destruct (tryConsume_static now key rl) as [Hl' _].
  split; [by rewrite Hl'|]. rewrite Hl'. intros k st.
  destruct (decide (k = key)) as [->|Hne]; [|rewrite tryConsume_other_key by done; apply Hb].
  unfold tryConsume. destruct (buckets rl !! key) as [ex|] eqn:Hex; simpl.
  - destruct (now >=? resetAt ex); simpl.
    + rewrite lookup_insert_eq. intros [= <-]. simpl. lia.
    + destruct (Z.leb_spec (count ex + 1) (limit rl)); simpl.
      * rewrite lookup_insert_eq. intros [= <-]. simpl. apply (Hb key) in Hex. lia.
      * rewrite Hex. intros [= <-]. by apply (Hb key).
  - rewrite lookup_insert_eq. intros [= <-]. simpl. lia.
Qed.

Lemma limiter_ok_consume_each calls rl : limiter_ok rl → limiter_ok (consume_each calls rl).
Proof.
  revert rl. induction calls as [|[now key] calls IH]; intros rl Hok; [done|].
  apply IH. by apply limiter_ok_tryConsume.
Qed.

Lemma consume_each_static calls rl :
  limit (consume_each calls rl) = limit rl ∧ windowMs (consume_each calls rl) = windowMs rl.
Proof.
  revert rl. induction calls as [|[now key] calls IH]; intros rl; [done|].
  simpl. destruct (IH (tryConsume now key rl).2) as [-> ->].
  apply tryConsume_static.
Qed.

(** X4. Whatever consumptions a limiter built by the constructor has
    served, of any keys at any instants, the next [tryConsume] keeps the
    settings of the constructor (the limit clamped at 0), reports a
    [remaining] between 0 and the limit that is 0 when the attempt is
    rejected, and leaves a bucket for the key whose count lies between 1 and
    the limit (1 for a limit of 0), whose reset time is the one reported and
    whose count, when the attempt is allowed, is the limit minus the
    reported [remaining]. *)
Theorem tryConsume_reports_the_stored_bucket l w calls now key :
  let rl := consume_each calls (new l w) in
  let r := (tryConsume now key rl).1 in
  let rl' := (tryConsume now key rl).2 in
  limit rl' = Z.max 0 l ∧ windowMs rl' = w
  ∧ 0 ≤ remaining r ≤ limit rl'
  ∧ (allowed r = false → remaining r = 0)
  ∧ ∃ st, buckets rl' !! key = Some st
          ∧ 1 ≤ count st ≤ Z.max 1 (limit rl')
          ∧ result_resetAt r = resetAt st
          ∧ (allowed r = true → remaining r = limit rl' - count st).
Proof.
  intros rl r rl'.
  assert (Hset : limit rl = Z.max 0 l ∧ windowMs rl = w)
    by apply (consume_each_static calls (new l w)).
  destruct Hset as [HL HW].
  assert (Hok : limiter_ok rl) by apply limiter_ok_consume_each, limiter_ok_new.
  pose proof (limiter_ok_tryConsume now key rl Hok) as [_ Hok'].
  destruct (tryConsume_static now key rl) as [Hl' Hw'].
  fold rl' in Hl', Hw', Hok'. rewrite Hl', Hw'.
  split; [done|]. split; [done|].
  destruct Hok as [Hpos Hb].
  unfold r, rl', tryConsume in *.
  destruct (buckets rl !! key) as [ex|] eqn:Hex.
  - destruct (now >=? resetAt ex); simpl.
    + split; [lia|]. split; [intros ?%Z.ltb_ge; lia|].
      eexists. rewrite lookup_insert_eq. split; [done|]. simpl.
      split; [lia|]. split; [done|]. intros ?%Z.ltb_lt. lia.
    + apply (Hb key) in Hex as Hc.
      destruct (Z.leb_spec (count ex + 1) (limit rl)); simpl.
      * split; [lia|]. split; [done|].
        eexists. rewrite lookup_insert_eq. split; [done|]. simpl.
        split; [lia|]. split; [done|]. done.
      * split; [lia|]. split; [done|].
        exists ex. split; [done|]. split; [lia|]. split; [done|]. done.
  - simpl. split; [lia|]. split; [intros ?%Z.ltb_ge; lia|].
    eexists. rewrite lookup_insert_eq. split; [done|]. simpl.
    split; [lia|]. split; [done|]. intros ?%Z.ltb_lt. lia.
Qed.

Lemma consume_all_within key times rl c r :
  buckets rl !! key = Some {| count := c; resetAt := r |} →
  Forall (λ t, t < r) times →
  (consume_all key times rl).1
  = replicate (length times `min` Z.to_nat (limit rl - c)) true
    ++ replicate (length times - Z.to_nat (limit rl - c)) false.
Proof.
  revert rl c. induction times as [|t times IH]; intros rl c Hb Hall; [done|].
  apply Forall_cons in Hall as [Ht Hall].
  cbn [consume_all].
  rewrite (tryConsume_within t key rl {| count := c; resetAt := r |}); cycle 1.
  { unfold open_window. rewrite Hb. simpl. by destruct (Z.ltb_spec t r); [|lia]. }
  simpl count. simpl resetAt.
  destruct (Z.leb_spec (c + 1) (limit rl)) as [Hle|Hgt].
  - specialize (IH (set_bucket key {| count := c + 1; resetAt := r |} rl) (c + 1)).
    destruct (consume_all key times _) as [bs rl2]. simpl in *.
    rewrite IH; [|by rewrite lookup_insert_eq|done].
    replace (Z.to_nat (limit rl - c)) with (S (Z.to_nat (limit rl - (c + 1)))) by lia.
    done.
  - specialize (IH rl c Hb Hall).
    destruct (consume_all key times rl) as [bs rl2]. simpl in *.
    rewrite IH. replace (Z.to_nat (limit rl - c)) with 0%nat by lia.
    by rewrite Nat.min_0_r, !Nat.sub_0_r.
Qed.

(** X5. Within one window a key is allowed exactly as often as the limit
    says, for every limit: when no window is open for the key at [t0], the
    attempts made at [t0] and at any later instants before [t0 + windowMs]
    are answered with [allowed] for the first [limit] of them and with a
    rejection for all the others (for all of them when the limit is 0 or
    less). *)
Theorem at_most_limit_per_window rl key t0 times :
  open_window t0 key rl = None →
  Forall (λ t, t < t0 + windowMs rl) times →
  (consume_all key (t0 :: times) rl).1
  = replicate (S (length times) `min` Z.to_nat (limit rl)) true
    ++ replicate (S (length times) - Z.to_nat (limit rl)) false.
Proof.
  intros Hopen Hall. cbn [consume_all].
  rewrite (tryConsume_opens _ _ _ Hopen).
  pose proof (consume_all_within key times
    (set_bucket key {| count := 1; resetAt := t0 + windowMs rl |} rl)
    1 (t0 + windowMs rl)) as Hin.
  destruct (consume_all key times _) as [bs rl2]. simpl in *.
  rewrite Hin; [|by rewrite lookup_insert_eq|done].
  destruct (Z.ltb_spec 0 (limit rl)).
  - replace (Z.to_nat (limit rl)) with (S (Z.to_nat (limit rl - 1))) by lia. done.
  - replace (Z.to_nat (limit rl - 1)) with 0%nat by lia.
    replace (Z.to_nat (limit rl)) with 0%nat by lia.
    by rewrite Nat.min_0_r, !Nat.sub_0_r.
Qed.

Lemma at_most_limit_per_window_witness :
  (consume_all "chat:42" [5; 7; 400; 1004; 9] (new 3 1000)).1 = [true; true; true; false; false].
Proof.
  apply (at_most_limit_per_window (new 3 1000) "chat:42" 5 [7; 400; 1004; 9]).
  - reflexivity.
  - repeat constructor.
Defined.

End RateLimiterCoverage.

Section DraftCoverage.
Import JS LLMService Env.

Lemma slice0_is_take {A} (xs : list A) e : ∃ n, slice0 xs e = take n xs.
Proof. unfold slice0. destruct (e <? 0); by eexists. Qed.

Lemma slice0_whole {A} (xs : list A) e : Z.of_nat (length xs) ≤ e → slice0 xs e = xs.
Proof. intros. rewrite slice0_nonneg by lia. apply take_ge. lia. Qed.

(** X6. [generateReviewResponse] only ever cuts: for every store, every
    [maxLength] (given or defaulted, sensible or not) and every generated
    text, the result is a prefix of the text, or a prefix of the text
    followed by the three dots; no other character is added and none is
    changed. *)
Theorem generateReviewResponse_only_cuts store maxLength (text : chars) :
  ∃ n, generateReviewResponse store maxLength text = take n text
       ∨ generateReviewResponse store maxLength text = take n text ++ dots.
Proof.
  unfold generateReviewResponse.
  set (L := match maxLength with Some m => m | None => _ end).
  destruct (Z.of_nat (length text) >? L).
  - destruct (slice0_is_take text (L - 3)) as [m ->].
    destruct (gt_times _ L lit_0_7).
    + destruct (slice0_is_take (take m text) (lastIndexOf (take m text) "."%char + 1))
        as [k ->].
      exists (k `min` m)%nat. left. apply take_take.
    + destruct (gt_times _ L lit_0_8).
      * destruct (slice0_is_take (take m text) (lastIndexOf (take m text) " "%char))
          as [k ->].
        exists (k `min` m)%nat. right. by rewrite take_take.
      * exists m. by right.
  - exists (length text). left. by rewrite take_ge.
Qed.

Lemma play_draft_fits maxLength (text : chars) :
  (maxLength = None ∨ ∃ L, maxLength = Some L ∧ 3 ≤ L ≤ 350) →
  Z.of_nat (length (generateReviewResponse play_store maxLength text)) ≤ 350.
Proof.
  intros Hm.
  assert (∃ L, 3 ≤ L ≤ 350
               ∧ generateReviewResponse play_store maxLength text
                 = generateReviewResponse play_store (Some L) text) as (L & HL & ->).
  { destruct Hm as [->|(L & -> & HL)]; [exists 350; split; [lia|done]|by exists L]. }
  destruct (Z.le_gt_cases (Z.of_nat (length text)) L) as [Hshort|Hlong].
  - unfold generateReviewResponse.
    destruct (Z.gtb_spec (Z.of_nat (length text)) L); lia.
  - pose proof (generateReviewResponse_length play_store L text). lia.
Qed.

(** X7. What the drafting service produces for the Play Store reaches the
    vendor whole: a draft of [generateReviewResponse] for the Play Store,
    with the default limit or any limit from 3 to 350, and a revision of
    [refineResponse] with its default limit are at most 350 characters long,
    so the cut [replyToReview] applies leaves them as they are and the
    request it issues carries exactly that text. *)
Theorem play_store_drafts_are_posted_whole api pkg reviewId cred w maxLength
    (text refined : chars) :
  PlayStoreClient.createClient_error api cred = None →
  (maxLength = None ∨ ∃ L, maxLength = Some L ∧ 3 ≤ L ≤ 350) →
  let draft := generateReviewResponse play_store maxLength text in
  let revised := refineResponse None refined in
  requests (PlayStoreClient.replyToReview api pkg reviewId draft cred w).2
    = requests w ++ [PlayReviewsReply pkg reviewId draft]
  ∧ requests (PlayStoreClient.replyToReview api pkg reviewId revised cred w).2
    = requests w ++ [PlayReviewsReply pkg reviewId revised].
Proof.
  intros Hclient Hm draft revised.
  assert (Hsent : ∀ reply : chars, Z.of_nat (length reply) ≤ 350 →
            requests (PlayStoreClient.replyToReview api pkg reviewId reply cred w).2
            = requests w ++ [PlayReviewsReply pkg reviewId reply]).
  { intros reply Hlen. unfold PlayStoreClient.replyToReview.
    rewrite Hclient, slice0_whole by done.
    by destruct (PlayStoreClient.reviews_reply_error _ _ _ _ _). }
  split; apply Hsent.
  - by apply play_draft_fits.
  - unfold revised, refineResponse. simpl. by apply length_slice0_le.
Qed.

Lemma play_store_drafts_are_posted_whole_witness :
  let draft := generateReviewResponse play_store None Examples.draft_400 in
  let revised := refineResponse None Examples.draft_400 in
  requests (PlayStoreClient.replyToReview Examples.quiet_play "com.example.mail" "ps-210"
              draft "{}" Examples.empty_world).2
    = [PlayReviewsReply "com.example.mail" "ps-210" draft]
  ∧ requests (PlayStoreClient.replyToReview Examples.quiet_play "com.example.mail" "ps-210"
                revised "{}" Examples.empty_world).2
    = [PlayReviewsReply "com.example.mail" "ps-210" revised].
Proof.
  apply (play_store_drafts_are_posted_whole Examples.quiet_play "com.example.mail" "ps-210"
           "{}" Examples.empty_world None Examples.draft_400 Examples.draft_400).
  - reflexivity.
  - by left.
Defined.

End DraftCoverage.

Section AppStoreListingCoverage.
Import JS SupabaseService Env Reference Examples.

Lemma as_fetch_limited_pages_spec fuel api query key L page acc w o w1 :
  AppStoreClient.fetch_limited_pages fuel api query key L page acc w = (o, w1) →
  clock w1 = clock w ∧ db w1 = db w ∧ outbox w1 = outbox w
  ∧ (∃ k, requests w1 = requests w ++ (AppStoreReviewsGet query <$> seq page k))
  ∧ ∀ rs, o = Returned rs →
      Forall (as_listed_from api query key) acc →
      (0 ≤ L → Z.of_nat (length rs) ≤ L) ∧ Forall (as_listed_from api query key) rs.
Proof.
  revert page acc w. induction fuel as [|fuel IH]; intros page acc w; simpl.
  { intros [= <- <-]. split; [done|]. split; [done|]. split; [done|]. split; [|done].
    exists 0%nat. by rewrite app_nil_r. }
  destruct (AppStoreClient.get_customerReviews _ _ _ _) as [m|resp] eqn:Hget.
  { intros [= <- <-]. split; [done|]. split; [done|]. split; [done|]. split; [|done].
    by exists 1%nat. }
  assert (Hacc' : Forall (as_listed_from api query key) acc →
            Forall (as_listed_from api query key)
                   (acc ++ (AppStoreClient.parse <$> AppStoreClient.data resp))).
  { intros Hacc. apply Forall_app. split; [done|]. apply Forall_fmap, Forall_forall.
    intros review Hin. exists review. split; [|done]. by exists page, resp. }
  destruct (_ && _).
  - intros Hf. apply IH in Hf as (Hc & Hd & Ho & [k Hreq] & Hrs).
    split; [done|]. split; [done|]. split; [done|]. split.
    + exists (S k). rewrite Hreq. simpl. by rewrite <- app_assoc.
    + intros rs -> Hacc. apply Hrs; [done|]. by apply Hacc'.
  - intros [= <- <-]. split; [done|]. split; [done|]. split; [done|].
    split; [by exists 1%nat|].
    intros rs [= <-] Hacc. split.
    + intros HL. by apply length_slice0_le.
    + by apply slice0_sublist, Hacc'.
Qed.

(** X8. [AppStoreClient.fetchReviews] respects its limit (100 when none is
    given): it returns at most [limit] reviews, none for a limit of 0 or
    less, which it answers without a request; every review returned is the
    parse of a review the vendor served for the query, with [hasResponse]
    telling whether that review carries a response, so answered reviews are
    included; the call changes neither the clock, the database nor the
    outbox, and the requests it issues are the pages 0, 1, ... of the one
    query, in order. *)
Theorem fetchReviews_respects_its_limit fuel api appId key keyId issuerId limit w rs w1 :
  AppStoreClient.fetchReviews fuel api appId key keyId issuerId limit w = (Returned rs, w1) →
  let L := default 100 limit in
  Z.of_nat (length rs) ≤ Z.max 0 L
  ∧ Forall (λ r, ∃ review,
              as_served api (AppStoreClient.reviews_query appId L) key review
              ∧ r = AppStoreClient.parse review
              ∧ AppStoreClient.hasResponse r = AppStoreClient.response_data review) rs
  ∧ clock w1 = clock w ∧ db w1 = db w ∧ outbox w1 = outbox w
  ∧ ∃ k, requests w1
         = requests w ++ (AppStoreReviewsGet (AppStoreClient.reviews_query appId L) <$> seq 0 k)
         ∧ (L ≤ 0 → k = 0%nat).
Proof.
  intros Hf L. unfold AppStoreClient.fetchReviews in Hf. fold L in Hf.
  destruct (AppStoreClient.generateToken_error _ _ _ _); [done|].
  destruct (Z.ltb_spec 0 L) as [Hpos|Hneg].
  - apply as_fetch_limited_pages_spec in Hf as (Hc & Hd & Ho & [k Hreq] & Hrs).
    destruct (Hrs rs eq_refl (Forall_nil_2 _)) as [Hlen Hall].
    split; [lia|]. split.
    { eapply Forall_impl; [exact Hall|]. intros r (review & Hs & ->). by exists review. }
    split; [done|]. split; [done|]. split; [done|].
    exists k. split; [done|]. lia.
  - injection Hf as <- <-.
    replace (slice0 [] L) with (@nil AppStoreClient.ParsedAppStoreReview)
      by (unfold slice0; destruct (L <? 0); by rewrite take_nil).
    split; [simpl; lia|]. split; [constructor|]. repeat split.
    exists 0%nat. by rewrite app_nil_r.
Qed.

Lemma fetchReviews_respects_its_limit_witness :
  ∃ rs w1,
    AppStoreClient.fetchReviews 5 paged_appstore "6446" "p8-key" "KEY1" "ISSUER1" (Some 4)
      empty_world = (Returned rs, w1)
    ∧ Z.of_nat (length rs) ≤ 4
    ∧ db w1 = db empty_world.
Proof.
  eexists _, _. split; [vm_compute; reflexivity|].
  edestruct (fetchReviews_respects_its_limit 5 paged_appstore "6446" "p8-key" "KEY1" "ISSUER1"
               (Some 4) empty_world) as (Hlen & _ & _ & Hdb & _); [vm_compute; reflexivity|].
  split; [exact Hlen | exact Hdb].
Defined.

Lemma as_fetch_limited_pages_bounded api query key L fuel page acc w :
  as_productive api query key →
  (Z.to_nat (L - Z.of_nat (length acc)) ≤ fuel)%nat → (1 ≤ fuel)%nat →
  ∃ o w1,
    AppStoreClient.fetch_limited_pages fuel api query key L page acc w = (o, w1)
    ∧ o ≠ Pending
    ∧ (length (requests w1)
       ≤ length (requests w) + Nat.max 1 (Z.to_nat (L - Z.of_nat (length acc))))%nat.
Proof.
  intros Hprod. revert page acc w.
  induction fuel as [|fuel IH]; intros page acc w Hfuel H1; [lia|]. simpl.
  destruct (AppStoreClient.get_customerReviews _ _ _ _) as [m|resp] eqn:Hget.
  { eexists _, _. split; [done|]. split; [done|]. simpl. rewrite length_app. simpl. lia. }
  pose proof (Hprod _ _ Hget) as Hne.
  set (acc' := acc ++ _).
  assert (Hlen : (length acc + 1 ≤ length acc')%nat).
  { unfold acc'. rewrite length_app, length_fmap.
    destruct (AppStoreClient.data resp); [done|]. simpl. lia. }
  destruct (_ && _) eqn:Hcont.
  - apply andb_true_iff in Hcont as [_ Hlt]. apply Z.ltb_lt in Hlt.
    destruct (IH (S page) acc' (issue (AppStoreReviewsGet query page) w))
      as (o & w1 & -> & Ho & Hreq); [lia..|].
    eexists _, _. split; [done|]. split; [done|].
    simpl in Hreq. rewrite length_app in Hreq. simpl in Hreq. lia.
  - eexists _, _. split; [done|]. split; [done|]. simpl. rewrite length_app. simpl. lia.
Qed.

(** X9. Unlike the cursor-based fetch, [AppStoreClient.fetchReviews] is
    bounded by its limit also in the number of requests: when every page
    the vendor serves holds at least one review, the call settles (returns
    or throws) within [limit] requests, however long the listing is. *)
Theorem fetchReviews_settles_within_its_limit fuel api appId key keyId issuerId limit w :
  let L := default 100 limit in
  as_productive api (AppStoreClient.reviews_query appId L) key →
  (Z.to_nat L ≤ fuel)%nat → (1 ≤ fuel)%nat →
  ∃ o w1,
    AppStoreClient.fetchReviews fuel api appId key keyId issuerId limit w = (o, w1)
    ∧ o ≠ Pending
    ∧ (length (issued w w1) ≤ Z.to_nat L)%nat.
Proof.
  intros L Hprod Hfuel H1. unfold AppStoreClient.fetchReviews. fold L.
  destruct (AppStoreClient.generateToken_error _ _ _ _).
  { eexists _, _. split; [done|]. split; [done|].
    unfold issued. rewrite length_drop. lia. }
  destruct (Z.ltb_spec 0 L) as [Hpos|Hneg].
  - destruct (as_fetch_limited_pages_bounded api (AppStoreClient.reviews_query appId L)
                key L fuel 0 [] w Hprod) as (o & w1 & -> & Ho & Hreq); [simpl; lia|done|].
    eexists _, _. split; [done|]. split; [done|].
    unfold issued. rewrite length_drop. simpl in Hreq. lia.
  - eexists _, _. split; [done|]. split; [done|].
    unfold issued. rewrite length_drop. lia.
Qed.

Lemma paged_appstore_productive query key : as_productive paged_appstore query key.
Proof. intros [|[|page]] resp [= <-]; done. Qed.

Lemma fetchReviews_settles_within_its_limit_witness :
  ∃ o w1,
    AppStoreClient.fetchReviews 4 paged_appstore "6446" "p8-key" "KEY1" "ISSUER1" (Some 4)
      empty_world = (o, w1)
    ∧ o ≠ Pending
    ∧ (length (issued empty_world w1) ≤ 4)%nat.
Proof.
  apply (fetchReviews_settles_within_its_limit 4 paged_appstore "6446" "p8-key" "KEY1"
           "ISSUER1" (Some 4) empty_world).
  - apply paged_appstore_productive.
  - simpl. lia.
  - lia.
Defined.

Lemma status_line_401 statusText :
  includes (AppStoreClient.request_error_message 401 statusText None) "401" = true.
Proof. reflexivity. Qed.

Lemma status_line_403 statusText :
  includes (AppStoreClient.request_error_message 403 statusText None) "403" = true.
Proof. reflexivity. Qed.

(** X10. A response with status 401 or 403 whose body carries no error
    detail is an auth failure: the message [request] throws for it is the
    status line, which the test of the account-based fetch recognises by the
    status code, so that [fetchReviewsWithAccount] invalidates the account
    with that message and surfaces the credentials error. *)
Theorem bare_auth_statuses_invalidate_the_account fuel api account storeId lastPollAt w
    keyId issuerId status statusText :
  is_valid account = true →
  or_undefined (apple_key_id account) = Some keyId →
  or_undefined (apple_issuer_id account) = Some issuerId →
  AppStoreClient.generateToken_error api (credential_data account) keyId issuerId = None →
  status = 401 ∨ status = 403 →
  AppStoreClient.get_customerReviews api (AppStoreClient.unresponded_query storeId)
    (credential_data account) 0
    = inl (AppStoreClient.request_error_message status statusText None) →
  AppStoreClient.is_auth_error (AppStoreClient.request_error_message status statusText None)
  = true
  ∧ AppStoreClient.fetchReviewsWithAccount (S fuel) api account storeId lastPollAt w
    = (Thrown (AppStoreClient.invalid_credentials_message
                 (AppStoreClient.request_error_message status statusText None)),
       with_db (invalidateAccount (account_id account)
                  (AppStoreClient.request_error_message status statusText None))
         (issue (AppStoreReviewsGet (AppStoreClient.unresponded_query storeId) 0) w)).
Proof.
  intros Hv Hk Hi Htoken Hstatus Hget.
  assert (Hauth : AppStoreClient.is_auth_error
                    (AppStoreClient.request_error_message status statusText None) = true).
  { unfold AppStoreClient.is_auth_error. destruct Hstatus as [->| ->].
    - by rewrite status_line_401.
    - rewrite status_line_403. by rewrite orb_true_r. }
  split; [done|].
  unfold AppStoreClient.fetchReviewsWithAccount. rewrite Hv, Hk, Hi. cbn [negb].
  unfold AppStoreClient.fetchUnrespondedReviews. rewrite Htoken.
  cbn [AppStoreClient.fetch_pages]. by rewrite Hget, Hauth.
Qed.

Lemma bare_auth_statuses_invalidate_the_account_witness :
  ∃ m w1,
    AppStoreClient.fetchReviewsWithAccount 1 unauthorized_appstore
      apple_account "6446" None accounts_world = (Thrown m, w1)
    ∧ is_valid <$> accounts (db w1) = [false; true].
Proof.
  edestruct (bare_auth_statuses_invalidate_the_account 0 unauthorized_appstore
               apple_account "6446" None accounts_world
               "KEY1" "ISSUER1" 401 "Unauthorized") as [_ Hf];
    [reflexivity | reflexivity | reflexivity | reflexivity | by left | reflexivity |].
  eexists _, _. split; [exact Hf|]. vm_compute. reflexivity.
Defined.

End AppStoreListingCoverage.

Section PlayListingCoverage.
Import JS SupabaseService Env Reference.

Lemma ps_fetch_pages_sized fuel api pkg cred M lastPollAt page acc w o w1 :
  Z.of_nat (length acc) < M →
  PlayStoreClient.fetch_pages fuel api pkg cred M lastPollAt page acc w = (o, w1) →
  ∃ reqs, requests w1 = requests w ++ reqs
          ∧ Forall (sized_listing_request pkg M) reqs
          ∧ (length reqs ≤ fuel)%nat
          ∧ (o = Pending → length reqs = fuel).
Proof.
  revert page acc w. induction fuel as [|fuel IH]; intros page acc w Hacc; simpl.
  { intros [= <- <-]. exists []. by rewrite app_nil_r. }
  assert (Hreq : sized_listing_request pkg M
                   (PlayReviewsList pkg (Z.min (M - Z.of_nat (length acc)) 100) page)).
  { eexists _, _. split; [done|]. lia. }
  destruct (PlayStoreClient.reviews_list _ _ _ _ _) as [m|resp].
  { intros [= <- <-]. eexists. split; [done|]. split; [by constructor|].
    split; [simpl; lia|done]. }
  destruct (match PlayStoreClient.reviews resp with
            | Some rs0 => PlayStoreClient.scan_page _ _ rs0 acc
            | None => (acc, false)
            end) as [acc' reached].
  destruct (_ && _ && _) eqn:Hcont.
  - apply andb_true_iff in Hcont as [Hcont _].
    apply andb_true_iff in Hcont as [_ Hlt]. apply Z.ltb_lt in Hlt.
    intros Hf. apply IH in Hf as (reqs & Hreqs & Hall & Hlen & Hpend); [|done].
    exists (PlayReviewsList pkg (Z.min (M - Z.of_nat (length acc)) 100) page :: reqs).
    rewrite Hreqs. simpl. rewrite <- app_assoc. split; [done|].
    split; [by constructor|]. split; [lia|]. intros Ho. by rewrite Hpend.
  - intros [= <- <-]. eexists. split; [done|]. split; [by constructor|].
    split; [simpl; lia|done].
Qed.

(** X11. For a positive [maxResults], every request [fetchReviews] sends
    to the Play Store is a listing request for the package that asks for at
    least 1 and at most 100 reviews, and for no more than [maxResults]: the
    page size is what is still missing, capped at 100.  The call is still
    awaiting the vendor only when every round trip of the budget was
    spent on such a request. *)
Theorem play_listing_requests_are_sized fuel api pkg cred M lastPollAt w o w1 :
  1 ≤ M →
  PlayStoreClient.fetchReviews fuel api pkg cred M lastPollAt w = (o, w1) →
  Forall (sized_listing_request pkg M) (issued w w1)
  ∧ (length (issued w w1) ≤ fuel)%nat
  ∧ (o = Pending → length (issued w w1) = fuel).
Proof.
  intros HM. unfold PlayStoreClient.fetchReviews, issued.
  destruct (PlayStoreClient.createClient_error api cred).
  { intros [= <- <-]. rewrite drop_all. split; [constructor|]. split; [simpl; lia|done]. }
  intros Hf. apply ps_fetch_pages_sized in Hf as (reqs & -> & Hall & Hlen & Hpend);
    [|simpl; lia].
  by rewrite drop_app_length.
Qed.

Lemma play_listing_requests_are_sized_witness :
  ∃ o w1,
    PlayStoreClient.fetchReviews 5 Examples.paged_play "com.example.mail" "{}" 4 None
      Examples.empty_world = (o, w1)
    ∧ Forall (sized_listing_request "com.example.mail" 4) (issued Examples.empty_world w1)
    ∧ issued Examples.empty_world w1
      = [PlayReviewsList "com.example.mail" 4 0; PlayReviewsList "com.example.mail" 2 1].
Proof.
  eexists _, _. split; [vm_compute; reflexivity|].
  edestruct (play_listing_requests_are_sized 5 Examples.paged_play "com.example.mail" "{}" 4
               None Examples.empty_world) as (Hall & _ & _);
    [lia | vm_compute; reflexivity |].
  split; [exact Hall|]. vm_compute. reflexivity.
Defined.

End PlayListingCoverage.

Section ListingCoverage.
Import JS SupabaseService Env Reference.

Lemma invalidate_id e acc : account_id (invalidate e acc) = account_id acc.
Proof. done. Qed.

Lemma with_account_invalidated id e d a :
  app_account_id a ≠ id → with_account (invalidateAccount id e d) a = with_account d a.
Proof.
  intros Hne. unfold with_account. f_equal. f_equal. simpl.
  induction (accounts d) as [|acc accs IH]; [done|].
  rewrite fmap_cons, !filter_cons, IH.
  destruct (decide (account_id acc = id)) as [Hid|Hid]; [|done].
  rewrite invalidate_id.
  destruct (decide (account_id acc = app_account_id a)); [congruence|done].
Qed.

Lemma with_account_of_invalidated id e d a :
  app_account_id a = id → account_is_valid (with_account (invalidateAccount id e d) a) = false.
Proof.
  intros Heq. unfold account_is_valid, with_account. simpl.
  destruct (single _) as [acc|] eqn:Hs; [|done].
  apply single_Some in Hs.
  assert (Hin : acc ∈ [acc]) by left. rewrite <- Hs in Hin.
  apply list_elem_of_filter in Hin as [Hid Hin].
  apply list_elem_of_fmap in Hin as (acc0 & -> & _).
  destruct (decide (account_id acc0 = id)); [done|]. simpl in Hid. congruence.
Qed.

(** X12. Once [invalidateAccount] has run for an account, the apps of that
    account are no longer handed to a cycle, and nothing else changes in
    the listing: [getAllActiveAppsWithAccounts] returns what it returned
    before, in the same order and with the same accounts, less the apps
    whose [account_id] is the invalidated one. *)
Theorem invalidated_account_leaves_the_listing id e d :
  getAllActiveAppsWithAccounts (invalidateAccount id e d)
  = filter (λ a, app_account_id (app a) ≠ id) (getAllActiveAppsWithAccounts d).
Proof.
  unfold getAllActiveAppsWithAccounts.
  change (apps (invalidateAccount id e d)) with (apps d).
  induction (filter (λ a, is_active a = true) (apps d)) as [|a l IH]; [done|].
  rewrite !fmap_cons, !filter_cons, IH.
  destruct (decide (app_account_id a = id)) as [Heq|Hne].
  - rewrite with_account_of_invalidated by done.
    rewrite decide_False by done.
    destruct (decide (account_is_valid (with_account d a) = true)); [|done].
    rewrite filter_cons, decide_False; [done|]. simpl. tauto.
  - rewrite with_account_invalidated by done.
    destruct (decide (account_is_valid (with_account d a) = true)); [|done].
    by rewrite filter_cons, decide_True.
Qed.

Lemma toggled_off_listing appId (l : list App) :
  filter (λ a, is_active a = true)
         ((λ a, if decide (app_id a = appId) then set_is_active false a else a) <$> l)
  = filter (λ a, app_id a ≠ appId) (filter (λ a, is_active a = true) l).
Proof.
  induction l as [|a l IH]; [done|].
  rewrite fmap_cons, !filter_cons, IH.
  destruct (decide (app_id a = appId)) as [Heq|Hne]; simpl.
  - destruct (decide (is_active a = true)); [|done].
    rewrite filter_cons, decide_False; [done|tauto].
  - destruct (decide (is_active a = true)); [|done].
    by rewrite filter_cons, decide_True.
Qed.

Lemma toggled_off_owner_listing appId userId (l : list App) :
  filter (λ a, app_user_id a = userId ∧ is_active a = true)
         ((λ a, if decide (app_id a = appId) then set_is_active false a else a) <$> l)
  = filter (λ a, app_id a ≠ appId)
           (filter (λ a, app_user_id a = userId ∧ is_active a = true) l).
Proof.
  induction l as [|a l IH]; [done|].
  rewrite fmap_cons, !filter_cons, IH.
  destruct (decide (app_id a = appId)) as [Heq|Hne]; simpl.
  - rewrite decide_False by (intros [_ ?]; done).
    destruct (decide (app_user_id a = userId ∧ is_active a = true)); [|done].
    rewrite filter_cons, decide_False; [done|tauto].
  - destruct (decide (app_user_id a = userId ∧ is_active a = true)); [|done].
    by rewrite filter_cons, decide_True.
Qed.

(** X13. An app switched off with [toggleAppActive(appId, false)] is
    polled no more, by a cycle or by a manual poll, and the listings are
    otherwise as before: both [getAllActiveAppsWithAccounts] and
    [getAppsByUser] return what they returned before, in the same order,
    less the rows with that id. *)
Theorem deactivated_app_leaves_the_listings appId userId d :
  getAllActiveAppsWithAccounts (toggleAppActive appId false d)
  = filter (λ a, app_id (app a) ≠ appId) (getAllActiveAppsWithAccounts d)
  ∧ getAppsByUser userId (toggleAppActive appId false d)
    = filter (λ a, app_id a ≠ appId) (getAppsByUser userId d).
Proof.
  split.
  - unfold getAllActiveAppsWithAccounts. simpl apps. rewrite toggled_off_listing.
    induction (filter (λ a, is_active a = true) (apps d)) as [|a l IH]; [done|].
    change (with_account (toggleAppActive appId false d)) with (with_account d) in *.
    rewrite filter_cons.
    destruct (decide (app_id a ≠ appId)) as [Hne|Heq].
    + rewrite !fmap_cons, !filter_cons, IH.
      destruct (decide (account_is_valid (with_account d a) = true)); [|done].
      by rewrite filter_cons, decide_True.
    + rewrite IH, fmap_cons, filter_cons.
      destruct (decide (account_is_valid (with_account d a) = true)); [|done].
      by rewrite filter_cons, decide_False.
  - unfold getAppsByUser. simpl apps. rewrite toggled_off_owner_listing.
    generalize (filter (λ a, app_user_id a = userId ∧ is_active a = true) (apps d)).
    intros l. induction l as [|a l IH]; [done|].
    rewrite filter_cons, !reverse_cons, filter_app, <- IH.
    destruct (decide (app_id a ≠ appId)).
    + by rewrite reverse_cons, filter_cons, decide_True.
    + by rewrite filter_cons, decide_False, app_nil_r.
Qed.

End ListingCoverage.

Section PendingReviewsCoverage.
Import JS SupabaseService Env Reference.

#[local] Instance date_desc_total : Total date_desc.
Proof.
  intros r1 r2. unfold date_desc.
  destruct (review_date r1) as [t1|], (review_date r2) as [t2|]; try tauto.
  lia.
Qed.

#[local] Instance date_desc_trans : Transitive date_desc.
Proof.
  intros r1 r2 r3. unfold date_desc.
  destruct (review_date r1), (review_date r2), (review_date r3); try done. lia.
Qed.

(** Rows of one date are tied; rows of different dates are not. *)
Lemma date_desc_antisym r1 r2 :
  date_desc r1 r2 → date_desc r2 r1 → review_date r1 = review_date r2.
Proof.
  unfold date_desc. destruct (review_date r1), (review_date r2); try done.
  intros. f_equal. lia.
Qed.

Lemma NoDup_fmap_inj {A B} (f : A → B) (l : list A) x y :
  NoDup (f <$> l) → x ∈ l → y ∈ l → f x = f y → x = y.
Proof.
  induction l as [|z l IH]; [by intros _ ?%not_elem_of_nil|].
  rewrite fmap_cons, NoDup_cons, !elem_of_cons, list_elem_of_fmap.
  intros [Hz Hnd] [->|Hx] [->|Hy] Heq; [done| | |by apply IH].
  - destruct Hz. by exists y.
  - destruct Hz. by exists x.
Qed.

(** Without ties the order by date is fixed: all statements list the
    rows alike. *)
Lemma untied_listing_unique (rows l1 l2 : list Review) :
  NoDup (review_date <$> rows) →
  l1 ≡ₚ rows → Sorted date_desc l1 → l2 ≡ₚ rows → Sorted date_desc l2 → l1 = l2.
Proof.
  intros Hnd H1 Hs1 H2 Hs2.
  apply (Sorted_unique_strong date_desc); [|done|done|by rewrite H1, H2].
  intros x1 x2 Hx1 Hx2 H12 H21.
  rewrite H1 in Hx1. rewrite H2 in Hx2.
  by apply (NoDup_fmap_inj review_date rows); [| | |apply date_desc_antisym].
Qed.

(** The loop over a listing that every statement returns alike. *)
Lemma pending_pages_whole fuel ordering userId appIds d listing (statement offset : nat) :
  (∀ n, ordering n (pending_selection userId appIds d) = listing) →
  (offset ≤ length listing)%nat →
  (length listing - offset < fuel * 1000)%nat →
  pending_pages fuel ordering userId appIds d statement (Z.of_nat offset)
                (take offset listing)
  = Returned listing.
Proof.
  intros Hsame. revert statement offset.
  induction fuel as [|fuel IH]; intros statement offset Hoff Hfuel; [lia|].
  cbn [pending_pages]. rewrite Hsame.
  unfold range, pageSize.
  replace (Z.to_nat (Z.of_nat offset + 1000 - 1 - Z.of_nat offset + 1)) with 1000%nat by lia.
  rewrite Nat2Z.id.
  destruct (Z.ltb_spec (Z.of_nat (length (take 1000 (drop offset listing)))) 1000)
    as [Hshort|Hfull].
  - f_equal. rewrite length_take, length_drop in Hshort.
    rewrite (take_ge (drop offset listing)) by (rewrite length_drop; lia).
    apply take_drop.
  - rewrite length_take, length_drop in Hfull.
    rewrite take_take_drop.
    replace (Z.of_nat offset + 1000) with (Z.of_nat (offset + 1000)) by lia.
    apply IH; lia.
Qed.

Lemma sorting_orders_by_date rows : orders_by_date Examples.sorting rows.
Proof.
  intros n. unfold Examples.sorting. split.
  - apply merge_sort_Permutation.
  - apply Sorted_merge_sort, _.
Qed.

(** X14. [getPendingReviewsByUser] pages through a query whose order is
    fixed up to ties only, the database being free to list rows of one
    [review_date], and undated rows, differently from one statement to the
    next.
    (1) When no two selected rows share a [review_date] (and at most one
    has none), the loop returns the whole selection, newest first, given
    one statement per 1000 rows and one more, the table not changing
    between the statements: no row is lost and none is repeated at a page
    boundary.
    (2) A selection of fewer than 1000 rows is returned whole by the first
    statement, ordered by date, ties or not.
    (3) The selection holds exactly the reviews of the user whose status is
    [pending] or [notified], restricted to the given apps when a non-empty
    list of ids is given; (4) an empty list of ids selects as no list
    does.
    (5) Ties can not be left out of (1): for 1001 pending reviews of one
    date, listed in the order of the table by the first statement and in
    the reverse by the second, the first row is returned twice and the
    last one is not returned. *)
Theorem getPendingReviewsByUser_returns_the_untied_selection :
  (∀ fuel ordering userId appIds d,
     orders_by_date ordering (pending_selection userId appIds d) →
     NoDup (review_date <$> pending_selection userId appIds d) →
     (length (pending_selection userId appIds d) < fuel * 1000)%nat →
     getPendingReviewsByUser fuel ordering userId appIds d
     = Returned (merge_sort date_desc (pending_selection userId appIds d)))
  ∧ (∀ fuel ordering userId appIds d,
       orders_by_date ordering (pending_selection userId appIds d) →
       (1 ≤ fuel)%nat →
       (length (pending_selection userId appIds d) < 1000)%nat →
       ∃ listing,
         getPendingReviewsByUser fuel ordering userId appIds d = Returned listing
         ∧ listing ≡ₚ pending_selection userId appIds d
         ∧ Sorted date_desc listing)
  ∧ (∀ userId appIds d r,
       r ∈ pending_selection userId appIds d
       ↔ r ∈ reviews d ∧ review_user_id r = userId
         ∧ (status r = pending ∨ status r = notified)
         ∧ match appIds with
           | Some (appId :: others) => review_app_id r ∈ appId :: others
           | _ => True
           end)
  ∧ (∀ userId d, pending_selection userId (Some []) d = pending_selection userId None d)
  ∧ (let selection := pending_selection "u-alice" None Examples.tied_db in
     orders_by_date Examples.alternating selection
     ∧ NoDup (external_review_id <$> selection)
     ∧ ∃ listing first,
         getPendingReviewsByUser 2 Examples.alternating "u-alice" None Examples.tied_db
         = Returned listing
         ∧ length listing = length selection
         ∧ listing !! 0%nat = Some first ∧ listing !! 1000%nat = Some first
         ∧ "1000" ∈ external_review_id <$> selection
         ∧ "1000" ∉ external_review_id <$> listing).
Proof.
  split; [|split; [|split; [|split; [done|]]]].
  - intros fuel ordering userId appIds d Hord Hnd Hfuel.
    set (selection := pending_selection userId appIds d) in *.
    unfold getPendingReviewsByUser.
    apply (pending_pages_whole fuel ordering userId appIds d
             (merge_sort date_desc selection) 0 0).
    + intros n. destruct (Hord n) as [Hperm Hsorted].
      apply (untied_listing_unique selection); [done..| |].
      * apply merge_sort_Permutation.
      * apply Sorted_merge_sort, _.
    + lia.
    + rewrite merge_sort_Permutation. lia.
  - intros fuel ordering userId appIds d Hord Hfuel Hshort.
    set (selection := pending_selection userId appIds d) in *.
    destruct (Hord 0%nat) as [Hperm Hsorted].
    exists (ordering 0%nat selection). split; [|done].
    destruct fuel as [|fuel]; [lia|].
    unfold getPendingReviewsByUser. cbn [pending_pages]. fold selection.
    unfold range, pageSize. simpl (Z.to_nat _). rewrite drop_0.
    rewrite take_ge by (rewrite Hperm; lia).
    rewrite (proj2 (Z.ltb_lt _ _)) by (rewrite Hperm; lia). done.
  - intros userId appIds d r. unfold pending_selection.
    assert (Hst : awaits_decision r = true ↔ status r = pending ∨ status r = notified).
    { unfold awaits_decision.
      destruct (status r); split; intros Hs; try done; try (by left); try (by right);
        by destruct Hs. }
    destruct appIds as [[|appId others]|];
      rewrite ?list_elem_of_filter, Hst; tauto.
  - intros selection. split; [|split].
    + intros n. unfold Examples.alternating. split.
      * destruct (Nat.even n); [done|apply reverse_Permutation].
      * destruct (Nat.even n); apply (bool_decide_unpack _); vm_compute; exact I.
    + apply (bool_decide_unpack _). vm_compute. exact I.
    + eexists _, _. split; [vm_compute; reflexivity|].
      split; [vm_compute; reflexivity|]. split; [reflexivity|]. split; [reflexivity|].
      split; apply (bool_decide_unpack _); vm_compute; exact I.
Qed.

Lemma getPendingReviewsByUser_returns_the_untied_selection_witness :
  getPendingReviewsByUser 1 Examples.sorting "u-alice" None Examples.reviewed_db
  = Returned [Examples.notes_row "r4" (Some 200) pending;
              Examples.notes_row "r1" (Some 100) pending;
              Examples.notes_row "r2" None notified]
  ∧ ∃ listing,
      getPendingReviewsByUser 1 Examples.sorting "u-alice" (Some ["app-notes"])
                              Examples.reviewed_db
      = Returned listing
      ∧ Sorted date_desc listing.
Proof.
  destruct getPendingReviewsByUser_returns_the_untied_selection as (Hall & Hpage & _).
  split.
  - rewrite (Hall 1%nat Examples.sorting "u-alice" None Examples.reviewed_db).
    + vm_compute. reflexivity.
    + apply sorting_orders_by_date.
    + apply (bool_decide_unpack _). vm_compute. exact I.
    + vm_compute. lia.
  - destruct (Hpage 1%nat Examples.sorting "u-alice" (Some ["app-notes"])
                Examples.reviewed_db) as (listing & Hl & _ & Hsorted).
    + apply sorting_orders_by_date.
    + lia.
    + vm_compute. lia.
    + by exists listing.
Defined.

End PendingReviewsCoverage.

Section GroupingCoverage.
Import JS SupabaseService Env Reference ReviewScheduler.

Lemma getUserById_id userId d user : getUserById userId d = Some user → user_id user = userId.
Proof.
  unfold getUserById. intros Hs%single_Some.
  assert (Hin : user ∈ filter (λ u, user_id u = userId) (users d)) by (rewrite Hs; left).
  by apply list_elem_of_filter in Hin as [? _].
Qed.

Lemma group_apps_snoc d apps a :
  group_apps d (apps ++ [a]) = group_app d a (group_apps d apps).
Proof. unfold group_apps. by rewrite foldl_app. Qed.

Lemma push_app_elem k u a m g :
  NoDup (m.*1) → g ∈ push_app k u a m →
  (g ∈ m ∧ g.1 ≠ k)
  ∨ (∃ u' apps, (k, (u', apps)) ∈ m ∧ g = (k, (u', apps ++ [a])))
  ∨ ((k ∉ m.*1) ∧ g = (k, (u, [a]))).
Proof.
  induction m as [|[k' [u' apps]] m IH]; simpl; intros Hnd Hin.
  - apply list_elem_of_singleton in Hin as ->. right; right. split; [apply not_elem_of_nil|done].
  - apply NoDup_cons in Hnd as [Hfresh Hnd].
    destruct (decide (k' = k)) as [->|Hne].
    + apply elem_of_cons in Hin as [->|Hin].
      * right; left. exists u', apps. split; [left|done].
      * left. split; [by right|]. intros <-. apply Hfresh.
        apply list_elem_of_fmap. by exists g.
    + apply elem_of_cons in Hin as [->|Hin].
      * left. split; [left|done].
      * destruct (IH Hnd Hin) as [[? ?]|[(u0 & apps0 & ? & ->)|[Hk ->]]].
        -- left. split; [by right|done].
        -- right; left. exists u0, apps0. split; [by right|done].
        -- right; right. split; [|done]. rewrite not_elem_of_cons. done.
Qed.

Lemma polled_push_app k u a m : polled (push_app k u a m) ≡ₚ polled m ++ [a].
Proof.
  unfold polled. induction m as [|[k' [u' apps]] m IH]; simpl; [done|].
  destruct (decide (k' = k)); simpl.
  - rewrite <- !app_assoc. f_equiv. apply Permutation_app_comm.
  - rewrite IH. by rewrite app_assoc.
Qed.

Lemma grouped_step d apps a m : grouped d apps m → grouped d (apps ++ [a]) (group_app d a m).
Proof.
  intros (Hnd & Hg & Hcov & Hperm). unfold group_app.
  destruct (getUserById (app_user_id (app a)) d) as [u|] eqn:Hu;
    [destruct (user_is_active u) eqn:Hact|].
  - (* the owner is active: the app joins the owner's group *)
    pose proof (getUserById_id _ _ _ Hu) as Hk.
    destruct (push_app_keyed (user_id u) u a m eq_refl) as (_ & Hnd' & Hkeys); [|done|].
    { apply Forall_forall. intros g Hin. destruct (Hg g Hin) as (Hget & _).
      by apply getUserById_id in Hget. }
    split; [done|]. split; [|split].
    + intros g Hin.
      destruct (push_app_elem _ _ _ _ _ Hnd Hin)
        as [[Hold Hne]|[(u' & apps' & Hold & ->)|[Hfresh ->]]].
      * destruct (Hg g Hold) as (? & ? & Hf & ?). split; [done|]. split; [done|].
        split; [|done]. rewrite filter_app, filter_cons, decide_False, filter_nil, app_nil_r;
          [done|congruence].
      * destruct (Hg _ Hold) as (? & ? & Hf & ?). simpl in *. split; [done|]. split; [done|].
        split; [|by destruct apps'].
        rewrite filter_app, filter_cons, decide_True, filter_nil by done. by rewrite Hf.
      * simpl. unfold owner_of; simpl. rewrite Hk. split; [done|]. split; [done|].
        split; [|done].
        rewrite filter_app, filter_cons, decide_True, filter_nil by done.
        replace (filter _ apps) with (@nil AppWithAccount); [done|].
        symmetry. apply filter_nil_not_Exists. intros Hex.
        apply Exists_exists in Hex as (a' & Hin' & Heq). simpl in Heq.
        apply Hfresh. rewrite Hk, <- Heq. apply Hcov; [done|].
        unfold owner_is_active. by rewrite Heq, Hu.
    + intros a' Hin' Hact'. apply Hkeys.
      apply elem_of_app in Hin' as [Hin'|Hin'%list_elem_of_singleton].
      * right. by apply Hcov.
      * left. by subst a'.
    + rewrite polled_push_app, filter_app, filter_cons, decide_True, filter_nil;
        [by rewrite Hperm|].
      unfold owner_is_active. by rewrite Hu.
  - (* the owner is inactive: the app is left out *)
    assert (Hout : owner_is_active d a = false) by (unfold owner_is_active; by rewrite Hu).
    split; [done|]. split; [|split].
    + intros g Hin. destruct (Hg g Hin) as (Hget & Hgact & Hf & ?).
      split; [done|]. split; [done|]. split; [|done].
      rewrite filter_app, filter_cons, decide_False, filter_nil, app_nil_r; [done|].
      intros Heq. rewrite <- Heq, Hu in Hget. congruence.
    + intros a' Hin' Hact'.
      apply elem_of_app in Hin' as [Hin'|Hin'%list_elem_of_singleton]; [by apply Hcov|].
      subst a'. congruence.
    + rewrite filter_app, filter_cons, decide_False, filter_nil, app_nil_r; [done|].
      congruence.
  - (* the owner is unknown: the app is left out *)
    assert (Hout : owner_is_active d a = false) by (unfold owner_is_active; by rewrite Hu).
    split; [done|]. split; [|split].
    + intros g Hin. destruct (Hg g Hin) as (Hget & Hgact & Hf & ?).
      split; [done|]. split; [done|]. split; [|done].
      rewrite filter_app, filter_cons, decide_False, filter_nil, app_nil_r; [done|].
      intros Heq. rewrite <- Heq, Hu in Hget. congruence.
    + intros a' Hin' Hact'.
      apply elem_of_app in Hin' as [Hin'|Hin'%list_elem_of_singleton]; [by apply Hcov|].
      subst a'. congruence.
    + rewrite filter_app, filter_cons, decide_False, filter_nil, app_nil_r; [done|].
      congruence.
Qed.

Lemma group_apps_grouped d apps : grouped d apps (group_apps d apps).
Proof.
  induction apps as [|a apps IH] using rev_ind.
  - split; [constructor|]. split; [by intros g ?%elem_of_nil|].
    split; [by intros a ?%elem_of_nil|done].
  - rewrite group_apps_snoc. by apply grouped_step.
Qed.

(** X15. The grouping loop of a cycle partitions the listed apps by
    owner: the groups have distinct keys; the key of a group is the id of
    its owner, who exists and is active; the apps of a group are exactly
    the listed apps of that owner, in the order of the listing, and there
    is at least one; every listed app whose owner exists and is active is
    in a group, and the apps of unknown or inactive owners are in none: the
    apps of all groups together are the listed apps with an active owner,
    each once. *)
Theorem grouping_partitions_by_owner d apps :
  let groups := group_apps d apps in
  NoDup (groups.*1)
  ∧ (∀ g, g ∈ groups →
       getUserById g.1 d = Some (owner_of g) ∧ user_is_active (owner_of g) = true
       ∧ g.2.2 = filter (λ a, app_user_id (app a) = g.1) apps ∧ g.2.2 ≠ [])
  ∧ (∀ a, a ∈ apps → owner_is_active d a = true → app_user_id (app a) ∈ groups.*1)
  ∧ polled groups ≡ₚ filter (λ a, owner_is_active d a = true) apps.
Proof. apply group_apps_grouped. Qed.

End GroupingCoverage.

Section CycleCoverage.
Import JS SupabaseService Env Reference ReviewScheduler.

Lemma advance_cursors_cons now appId appIds a :
  advance_cursors now appIds (advance_cursor now appId a)
  = advance_cursors now (appId :: appIds) a.
Proof.
  unfold advance_cursors, advance_cursor.
  destruct (decide (app_id a = appId)) as [Heq|Hne].
  - rewrite (decide_True (P := app_id a ∈ appId :: appIds)) by (rewrite Heq; left).
    simpl. by destruct (decide _).
  - destruct (decide (app_id a ∈ appIds)) as [Hin|Hnin].
    + by rewrite decide_True by by right.
    + rewrite decide_False; [done|]. rewrite not_elem_of_cons. done.
Qed.

Lemma advance_cursors_nil now a : advance_cursors now [] a = a.
Proof. unfold advance_cursors. rewrite decide_False; [done|]. apply not_elem_of_nil. Qed.

Lemma advance_cursors_app now ids ids' a :
  advance_cursors now ids' (advance_cursors now ids a) = advance_cursors now (ids ++ ids') a.
Proof.
  unfold advance_cursors.
  destruct (decide (app_id a ∈ ids)) as [Hin|Hnin]; simpl.
  - rewrite (decide_True (P := app_id a ∈ ids ++ ids')) by (apply elem_of_app; by left).
    by destruct (decide _).
  - destruct (decide (app_id a ∈ ids')) as [Hin'|Hnin'].
    + by rewrite decide_True by (apply elem_of_app; by right).
    + rewrite decide_False; [done|]. rewrite elem_of_app. tauto.
Qed.

Lemma advance_cursors_ext now ids ids' a :
  (∀ x, x ∈ ids ↔ x ∈ ids') → advance_cursors now ids a = advance_cursors now ids' a.
Proof.
  intros Heq. unfold advance_cursors.
  destruct (decide (app_id a ∈ ids)) as [Hin|Hnin].
  - by rewrite decide_True by by apply Heq.
  - by rewrite decide_False by by rewrite <- Heq.
Qed.

Lemma accounts_decayed_refl accs : Forall2 account_decayed accs accs.
Proof. apply Forall_Forall2_diag, Forall_forall. intros. by left. Qed.

Lemma accounts_decayed_trans a b c :
  Forall2 account_decayed a b → Forall2 account_decayed b c → Forall2 account_decayed a c.
Proof.
  intros Hab. revert c. induction Hab as [|x y xs ys Hxy Hab IH]; intros c Hbc.
  - by inversion Hbc.
  - inversion Hbc as [|y' z ys' zs Hyz Hbc']; subst. constructor; [|by apply IH].
    destruct Hxy as [->|[e ->]]; [done|].
    destruct Hyz as [->|[e' ->]]; [right; by exists e|right; by exists e'].
Qed.

Lemma accounts_decayed_invalidate id e d :
  Forall2 account_decayed (accounts d) (accounts (invalidateAccount id e d)).
Proof.
  simpl. apply Forall2_fmap_r, Forall_Forall2_diag, Forall_forall. intros acc _. simpl.
  destruct (decide _); [right; by exists e|by left].
Qed.

Lemma fetch_for_accounts fuel V a acc lastPollAt w o w1 :
  fetch_for fuel V a acc lastPollAt w = (o, w1) →
  Forall2 account_decayed (accounts (db w)) (accounts (db w1)).
Proof.
  unfold fetch_for. destruct (store (app a)).
  - destruct (AppStoreClient.fetchReviewsWithAccount _ _ _ _ _ _) as [o' w'] eqn:Hf.
    intros Heq. assert (w' = w1) as -> by (by destruct o'; injection Heq). clear Heq.
    revert Hf. unfold AppStoreClient.fetchReviewsWithAccount.
    destruct (negb _); [intros [= _ <-]; apply accounts_decayed_refl|].
    destruct (or_undefined (apple_key_id acc));
      [|intros [= _ <-]; apply accounts_decayed_refl].
    destruct (or_undefined (apple_issuer_id acc));
      [|intros [= _ <-]; apply accounts_decayed_refl].
    destruct (AppStoreClient.fetchUnrespondedReviews _ _ _ _ _ _ _ _) as [[rs|m|] w0] eqn:Hu;
      apply as_fetchUnresponded_frame in Hu as (_ & Hd & _).
    + intros [= _ <-]. rewrite Hd. apply accounts_decayed_refl.
    + destruct (AppStoreClient.is_auth_error m); intros [= _ <-]; simpl db; rewrite Hd;
        [apply accounts_decayed_invalidate|apply accounts_decayed_refl].
    + intros [= _ <-]. rewrite Hd. apply accounts_decayed_refl.
  - destruct (PlayStoreClient.fetchReviewsWithAccount _ _ _ _ _ _) as [o' w'] eqn:Hf.
    intros Heq. assert (w' = w1) as -> by (by destruct o'; injection Heq). clear Heq.
    revert Hf. unfold PlayStoreClient.fetchReviewsWithAccount.
    destruct (negb _); [intros [= _ <-]; apply accounts_decayed_refl|].
    destruct (PlayStoreClient.fetchUnrespondedReviews _ _ _ _ _ _ _) as [[rs|m|] w0] eqn:Hu;
      apply ps_fetchUnresponded_frame in Hu as (_ & Hd & _).
    + intros [= _ <-]. rewrite Hd. apply accounts_decayed_refl.
    + destruct (PlayStoreClient.is_auth_error m); intros [= _ <-]; simpl db; rewrite Hd;
        [apply accounts_decayed_invalidate|apply accounts_decayed_refl].
    + intros [= _ <-]. rewrite Hd. apply accounts_decayed_refl.
Qed.

Lemma pollAppReviews_accounts fuel V a user w o w1 :
  pollAppReviews fuel V a user w = (o, w1) →
  Forall2 account_decayed (accounts (db w)) (accounts (db w1)).
Proof.
  unfold pollAppReviews.
  destruct (account a) as [acc|]; [|intros [= _ <-]; apply accounts_decayed_refl].
  destruct (negb _); [intros [= _ <-]; apply accounts_decayed_refl|].
  destruct (fetch_for _ _ _ _ _ _) as [[rs|e|] w0] eqn:Hf;
    apply fetch_for_accounts in Hf.
  - destruct (save_reviews _ _ _ _ _) as [[n thrown] w2] eqn:Hs.
    apply save_reviews_effect in Hs as [(_ & _ & _ & _ & Ha & _) _].
    intros [= _ <-]. simpl. rewrite <- Ha in Hf.
    destruct thrown as [e|]; [|done].
    by destruct (on_poll_error_effect a user e w2) as (_ & -> & _).
  - intros [= _ <-]. simpl.
    by destruct (on_poll_error_effect a user e w0) as (_ & -> & _).
  - by intros [= _ <-].
Qed.

Lemma account_is_valid_Some a :
  account_is_valid a = true → ∃ acc, account a = Some acc ∧ is_valid acc = true.
Proof. unfold account_is_valid. destruct (account a) as [acc|]; [by exists acc|done]. Qed.

Lemma poll_user_apps_advances fuel V apps user total w total' w1 :
  Forall (λ a, account_is_valid a = true) apps →
  poll_user_apps fuel V apps user total w = (Returned total', w1) →
  clock w1 = clock w ∧ users (db w1) = users (db w)
  ∧ SupabaseService.apps (db w1)
    = advance_cursors (clock w) ((λ a, app_id (app a)) <$> apps) <$> SupabaseService.apps (db w)
  ∧ Forall2 account_decayed (accounts (db w)) (accounts (db w1)).
Proof.
  revert total w. induction apps as [|a apps IH]; intros total w Hvalid; simpl.
  - intros [= <- <-]. split; [done|]. split; [done|]. split; [|apply accounts_decayed_refl].
    rewrite <- (list_fmap_id (SupabaseService.apps (db w))) at 1.
    apply list_fmap_ext. intros _ row _. by rewrite advance_cursors_nil.
  - apply Forall_cons in Hvalid as [Hv Hvalid].
    destruct (pollAppReviews fuel V a user w) as [[n|m|] w0] eqn:Hp; [| |done].
    + pose proof (pollAppReviews_accounts _ _ _ _ _ _ _ Hp) as Hacc.
      pose proof (pollAppReviews_effect _ _ _ _ _ _ _ Hp) as (_ & Hu & _).
      destruct (account_is_valid_Some a Hv) as (acc & Ha & Hval).
      destruct (pollAppReviews_advances _ _ _ _ _ _ _ _ Ha Hval Hp) as [Hc Happs].
      intros Hrest. apply IH in Hrest as (Hc' & Hu' & Happs' & Hacc'); [|done].
      split; [congruence|]. split; [congruence|]. split.
      * rewrite Happs', Happs, Hc, <- list_fmap_compose.
        apply list_fmap_ext. intros _ row _. simpl. apply advance_cursors_cons.
      * by eapply accounts_decayed_trans.
    + by apply pollAppReviews_never_throws in Hp.
Qed.

Lemma summarize_frame user total w :
  clock (summarize user total w) = clock w ∧ db (summarize user total w) = db w.
Proof. unfold summarize. by destruct (total >? 0). Qed.

Lemma poll_users_advances fuel V groups w w1 :
  Forall (λ a, account_is_valid a = true) (polled groups) →
  poll_users fuel V groups w = (Returned (), w1) →
  clock w1 = clock w ∧ users (db w1) = users (db w)
  ∧ apps (db w1)
    = advance_cursors (clock w) ((λ a, app_id (app a)) <$> polled groups) <$> apps (db w)
  ∧ Forall2 account_decayed (accounts (db w)) (accounts (db w1)).
Proof.
  revert w. induction groups as [|[k [u userAppList]] rest IH]; intros w Hvalid;
    cbn [poll_users].
  - intros [= <-]. split; [done|]. split; [done|]. split; [|apply accounts_decayed_refl].
    rewrite <- (list_fmap_id (apps (db w))) at 1.
    apply list_fmap_ext. intros _ row _. by rewrite advance_cursors_nil.
  - change (polled ((k, (u, userAppList)) :: rest)) with (userAppList ++ polled rest)
      in Hvalid |- *.
    apply Forall_app in Hvalid as [Hv Hvalid].
    destruct (poll_user_apps fuel V userAppList u 0 w) as [[total|m|] w0] eqn:Hp; [|done..].
    apply poll_user_apps_advances in Hp as (Hc & Hu & Happs & Hacc); [|done].
    destruct (summarize_frame u total w0) as [Hsc Hsd].
    intros Hrest. apply IH in Hrest as (Hc' & Hu' & Happs' & Hacc'); [|done].
    rewrite Hsc, Hsd in *.
    split; [congruence|]. split; [congruence|]. split.
    + rewrite Happs', Happs, Hc, <- list_fmap_compose, fmap_app.
      apply list_fmap_ext. intros _ row _. simpl. apply advance_cursors_app.
    + by eapply accounts_decayed_trans.
Qed.

Lemma polled_listed_valid d :
  Forall (λ a, account_is_valid a = true)
         (polled (group_apps d (getAllActiveAppsWithAccounts d))).
Proof.
  destruct (group_apps_grouped d (getAllActiveAppsWithAccounts d)) as (_ & _ & _ & Hperm).
  rewrite Hperm. apply Forall_forall. intros a Hin.
  apply list_elem_of_filter in Hin as [_ Hin].
  unfold getAllActiveAppsWithAccounts in Hin. by apply list_elem_of_filter in Hin as [? _].
Qed.

Lemma poll_cycle_advances fuel V w w1 :
  poll_cycle fuel V w = (Returned (), w1) →
  clock w1 = clock w ∧ users (db w1) = users (db w)
  ∧ apps (db w1)
    = advance_cursors (clock w)
        ((λ a, app_id (app a))
           <$> filter (λ a, owner_is_active (db w) a = true)
                      (getAllActiveAppsWithAccounts (db w)))
      <$> apps (db w)
  ∧ Forall2 account_decayed (accounts (db w)) (accounts (db w1)).
Proof.
  unfold poll_cycle. intros Hc.
  apply poll_users_advances in Hc as (Hc & Hu & Happs & Hacc); [|apply polled_listed_valid].
  split; [done|]. split; [done|]. split; [|done].
  rewrite Happs. apply list_fmap_ext. intros _ row _.
  apply advance_cursors_ext. intros x.
  destruct (group_apps_grouped (db w) (getAllActiveAppsWithAccounts (db w)))
    as (_ & _ & _ & Hperm).
  by rewrite Hperm.
Qed.

(** X16. A full cycle moves exactly the cursors of the apps it polls, and
    moves them to the time of the cycle: when [pollAllApps] returns, the
    apps table is the one it started from with [last_poll_at] set to the
    clock reading in every row whose id is that of a listed app (active,
    with a valid account) of an existing, active owner, whether the fetch
    of that app succeeded or threw, and with every other row untouched. *)
Theorem cycle_advances_the_cursors_it_polls fuel V s s1 :
  isPolling s = false → pollAllApps fuel V s = (Returned (), s1) →
  let polled_ids :=
    (λ a, app_id (app a))
      <$> filter (λ a, owner_is_active (db (world s)) a = true)
                 (getAllActiveAppsWithAccounts (db (world s))) in
  clock (world s1) = clock (world s)
  ∧ apps (db (world s1))
    = advance_cursors (clock (world s)) polled_ids <$> apps (db (world s))
  ∧ (∀ row, row ∈ apps (db (world s1)) →
       app_id row ∈ polled_ids → last_poll_at row = Some (clock (world s)))
  ∧ (∀ row, row ∈ apps (db (world s)) → app_id row ∉ polled_ids →
       row ∈ apps (db (world s1))).
Proof.
  intros Hidle Hrun polled_ids.
  apply pollAllApps_runs_cycle in Hrun as [_ Hc]; [|done].
  apply poll_cycle_advances in Hc as (Hc & _ & Happs & _). fold polled_ids in Happs.
  split; [done|]. split; [done|]. rewrite Happs. split.
  - intros row Hin Hid. apply list_elem_of_fmap in Hin as (row0 & -> & _).
    unfold advance_cursors in *. destruct (decide (app_id row0 ∈ polled_ids)); [done|].
    done.
  - intros row Hin Hid. apply list_elem_of_fmap. exists row. split; [|done].
    unfold advance_cursors. by rewrite decide_False.
Qed.

Lemma cycle_advances_the_cursors_it_polls_witness :
  ∃ s1, pollAllApps 3 Examples.demo_vendors (Examples.idle Examples.demo_world)
        = (Returned (), s1)
        ∧ apps (db (world s1))
          = set_last_poll_at 300000
              <$> [Examples.notes_app; Examples.tasks_app; Examples.mail_app;
                   Examples.bobs_app].
Proof.
  edestruct (cycle_advances_the_cursors_it_polls 3%nat Examples.demo_vendors
               (Examples.idle Examples.demo_world))
    as (_ & Happs & _); [reflexivity | vm_compute; reflexivity |].
  eexists. split; [vm_compute; reflexivity|]. rewrite Happs. vm_compute. reflexivity.
Defined.

(** X17. What a full cycle never does: it leaves the users table as it
    is; it deletes and rewrites no review and no message, the reviews table
    and the outbox only growing at their ends; it deletes no account and
    makes none valid, every account row being as it was or invalidated; and
    it changes no app row but in its cursor. *)
Theorem cycle_only_adds_and_invalidates fuel V s s1 :
  isPolling s = false → pollAllApps fuel V s = (Returned (), s1) →
  users (db (world s1)) = users (db (world s))
  ∧ Forall2 account_decayed (accounts (db (world s))) (accounts (db (world s1)))
  ∧ reviews (db (world s)) `prefix_of` reviews (db (world s1))
  ∧ outbox (world s) `prefix_of` outbox (world s1)
  ∧ Forall2 (λ row row', row' = row ∨ row' = set_last_poll_at (clock (world s)) row)
            (apps (db (world s))) (apps (db (world s1))).
Proof.
  intros Hidle Hrun.
  apply pollAllApps_runs_cycle in Hrun as [_ Hc]; [|done].
  pose proof (poll_cycle_advances _ _ _ _ Hc) as (_ & Hu & Happs & Hacc).
  unfold poll_cycle in Hc.
  apply poll_users_effect in Hc as (added & msgs & Hrows & Hout & _);
    [|apply group_apps_owners_distinct].
  split; [done|]. split; [done|]. split; [by exists added|]. split; [by exists msgs|].
  rewrite Happs. apply Forall2_fmap_r, Forall_Forall2_diag, Forall_forall.
  intros row _. simpl. unfold advance_cursors. destruct (decide _); [by right|by left].
Qed.

Lemma cycle_only_adds_and_invalidates_witness :
  ∃ s1, pollAllApps 3 Examples.demo_vendors (Examples.idle Examples.demo_world)
        = (Returned (), s1)
        ∧ users (db (world s1)) = [Examples.alice; Examples.bob]
        ∧ reviews (db Examples.demo_world) `prefix_of` reviews (db (world s1)).
Proof.
  edestruct (cycle_only_adds_and_invalidates 3%nat Examples.demo_vendors
               (Examples.idle Examples.demo_world))
    as (Hu & _ & Hrows & _); [reflexivity | vm_compute; reflexivity |].
  eexists. split; [vm_compute; reflexivity|]. split; [exact Hu | exact Hrows].
Defined.

Lemma credentials_message_is_recognised e :
  includes (PlayStoreClient.invalid_credentials_message e) "invalid"
  || includes (PlayStoreClient.invalid_credentials_message e) "Credentials" = true.
Proof. apply orb_true_iff. right. reflexivity. Qed.

(** One attempt of the cycle on a Play Store app whose account the vendor
    rejects. *)
Lemma pollAppReviews_rejected fuel V a user w acc e :
  store (app a) = play_store → account a = Some acc → is_valid acc = true →
  PlayStoreClient.createClient_error (playStore V) (credential_data acc) = None →
  (∀ pkg page asked,
     PlayStoreClient.reviews_list (playStore V) pkg (credential_data acc) page asked = inl e) →
  PlayStoreClient.is_auth_error e = true →
  pollAppReviews (S fuel) V a user w
  = (Returned 0,
     with_db (updateAppLastPoll (clock w) (app_id (app a)))
       (send (telegram_id user)
          (CredentialErrorMessage (app_name (app a))
             (PlayStoreClient.invalid_credentials_message e))
          (with_db (invalidateAccount (account_id acc) e)
             (issue (PlayReviewsList (store_id (app a)) 100 0) w)))).
Proof.
  intros Hs Ha Hv Hclient Hlist Hauth.
  unfold pollAppReviews, fetch_for. rewrite Ha, Hv, Hs. cbn [negb].
  unfold PlayStoreClient.fetchReviewsWithAccount. rewrite Hv. cbn [negb].
  unfold PlayStoreClient.fetchUnrespondedReviews, PlayStoreClient.fetchReviews.
  rewrite Hclient. cbn [PlayStoreClient.fetch_pages]. rewrite Hlist, Hauth.
  unfold on_poll_error. rewrite credentials_message_is_recognised.
  reflexivity.
Qed.

Lemma poll_user_apps_rejected fuel V apps user total w acc e :
  Forall (λ a, store (app a) = play_store ∧ account a = Some acc) apps →
  is_valid acc = true →
  PlayStoreClient.createClient_error (playStore V) (credential_data acc) = None →
  (∀ pkg page asked,
     PlayStoreClient.reviews_list (playStore V) pkg (credential_data acc) page asked = inl e) →
  PlayStoreClient.is_auth_error e = true →
  ∃ w1,
    poll_user_apps (S fuel) V apps user total w = (Returned total, w1)
    ∧ outbox w1
      = outbox w
        ++ ((λ a, (telegram_id user,
                   CredentialErrorMessage (app_name (app a))
                     (PlayStoreClient.invalid_credentials_message e))) <$> apps)
    ∧ requests w1
      = requests w ++ ((λ a, PlayReviewsList (store_id (app a)) 100 0) <$> apps)
    ∧ reviews (db w1) = reviews (db w).
Proof.
  intros Hall Hv Hclient Hlist Hauth. revert w.
  induction apps as [|a apps IH]; intros w; cbn [poll_user_apps].
  - exists w. by rewrite !app_nil_r.
  - apply Forall_cons in Hall as [[Hs Ha] Hall].
    rewrite (pollAppReviews_rejected fuel V a user w acc e) by done.
    replace (total + 0) with total by lia.
    edestruct (IH Hall) as (w1 & -> & Hout & Hreq & Hrows).
    exists w1. split; [done|].
    rewrite Hout, Hreq, Hrows. simpl. by rewrite <- !app_assoc.
Qed.

(** X18. Within a cycle the validity of an account is the one read when
    the apps were listed: when the Play Store rejects the credentials of an
    account, every app of an owner's list that carries that account is
    still attempted, the attempt on the first one having invalidated the
    account in the database notwithstanding; each attempt issues one
    listing request (for 100 reviews, page 0) and sends the owner one
    credential error message, no review is saved and no summary is due. *)
Theorem cycle_polls_on_the_account_snapshot fuel V apps user w acc e :
  (1 ≤ fuel)%nat →
  Forall (λ a, store (app a) = play_store ∧ account a = Some acc) apps →
  is_valid acc = true →
  PlayStoreClient.createClient_error (playStore V) (credential_data acc) = None →
  (∀ pkg page asked,
     PlayStoreClient.reviews_list (playStore V) pkg (credential_data acc) page asked = inl e) →
  PlayStoreClient.is_auth_error e = true →
  ∃ w1,
    poll_user_apps fuel V apps user 0 w = (Returned 0, w1)
    ∧ issued w w1 = (λ a, PlayReviewsList (store_id (app a)) 100 0) <$> apps
    ∧ new_messages w w1
      = (λ a, (telegram_id user,
               CredentialErrorMessage (app_name (app a))
                 (PlayStoreClient.invalid_credentials_message e))) <$> apps
    ∧ new_reviews w w1 = []
    ∧ summarize user 0 w1 = w1.
Proof.
  intros Hfuel Hall Hv Hclient Hlist Hauth.
  destruct fuel as [|fuel]; [lia|].
  destruct (poll_user_apps_rejected fuel V apps user 0 w acc e)
    as (w1 & Hp & Hout & Hreq & Hrows); [done..|].
  exists w1. split; [done|]. unfold issued, new_messages, new_reviews.
  rewrite Hout, Hreq, Hrows, !drop_app_length, drop_all. done.
Qed.

Lemma cycle_polls_on_the_account_snapshot_witness :
  ∃ w1,
    poll_user_apps 1 Examples.rejecting_vendors
      (with_account (db Examples.play_world) <$> [Examples.tasks_app; Examples.mail_app])
      Examples.alice 0 Examples.play_world = (Returned 0, w1)
    ∧ length (issued Examples.play_world w1) = 2%nat
    ∧ length (new_messages Examples.play_world w1) = 2%nat.
Proof.
  edestruct (cycle_polls_on_the_account_snapshot 1 Examples.rejecting_vendors
               (with_account (db Examples.play_world)
                  <$> [Examples.tasks_app; Examples.mail_app])
               Examples.alice Examples.play_world Examples.google_account
               Examples.permission_denied)
    as (w1 & Hp & Hreq & Hout & _).
  - lia.
  - by repeat constructor.
  - reflexivity.
  - reflexivity.
  - reflexivity.
  - vm_compute. reflexivity.
  - exists w1. split; [exact Hp|]. by rewrite Hreq, Hout.
Defined.

Lemma save_reviews_app pre rest a user n w :
  save_reviews (pre ++ rest) a user n w
  = match save_reviews pre a user n w with
    | (n', None, w') => save_reviews rest a user n' w'
    | stopped => stopped
    end.
Proof.
  revert n w. induction pre as [|r pre IH]; intros n w; simpl; [done|].
  destruct (saveReview r a user w) as [[m|saved] w0]; [done|]. apply IH.
Qed.

Lemma rating_violation_is_no_credential_error a user w :
  on_poll_error a user rating_check_violation w = w.
Proof. reflexivity. Qed.

(** X19. A row the database rejects ends the batch: when a fetched review
    that is not known yet carries a rating outside 1..5 (a Play Store
    review without a star rating is parsed with rating 0), [createReview]
    throws on the check constraint, the loop over the fetched reviews stops
    there, and [pollAppReviews] returns the number saved before it, with
    the reviews that follow in the batch unsaved, no message sent, and the
    cursor of the app advanced all the same. *)
Theorem a_rejected_row_ends_the_batch fuel V a user w acc pre r rest w0 n w1 :
  account a = Some acc → is_valid acc = true →
  fetch_for fuel V a acc (last_poll_at (app a)) w = (Returned (pre ++ r :: rest), w0) →
  save_reviews pre a user 0 w0 = (n, None, w1) →
  getReviewByExternalId (store (app a)) (externalId r) (db w1) = None →
  ¬ (1 ≤ rating (review_row r a user) ≤ 5) →
  pollAppReviews fuel V a user w
  = (Returned n, with_db (updateAppLastPoll (clock w1) (app_id (app a))) w1).
Proof.
  intros Ha Hv Hf Hpre Hnew Hrating.
  unfold pollAppReviews. rewrite Ha, Hv, Hf. cbn [negb].
  rewrite save_reviews_app, Hpre. cbn [save_reviews].
  unfold saveReview. rewrite Hnew. unfold createReview.
  destruct (Z.leb_spec 1 (rating (review_row r a user)));
    destruct (Z.leb_spec (rating (review_row r a user)) 5); simpl; try lia;
    by rewrite with_db_same, rating_violation_is_no_credential_error.
Qed.

Lemma a_rejected_row_ends_the_batch_witness :
  ∃ w1,
    pollAppReviews 2 Examples.unrated_first_vendors
      (with_account (db Examples.play_world) Examples.mail_app) Examples.alice
      Examples.play_world = (Returned 0, w1)
    ∧ reviews (db w1) = []
    ∧ last_poll_at <$> apps (db w1) = [Some 100000; Some 300000].
Proof.
  eexists. split.
  - eapply (a_rejected_row_ends_the_batch 2 Examples.unrated_first_vendors
              (with_account (db Examples.play_world) Examples.mail_app) Examples.alice
              Examples.play_world Examples.google_account []).
    + reflexivity.
    + reflexivity.
    + vm_compute. reflexivity.
    + reflexivity.
    + vm_compute. reflexivity.
    + vm_compute. intros [H _]. by apply H.
  - split; vm_compute; reflexivity.
Defined.

(** The errors the account-based fetches raise themselves, as the
    [catch] of [pollAppReviews] classifies them. *)
Lemma credential_messages_notify a user w e :
  on_poll_error a user (PlayStoreClient.invalid_credentials_message e) w
  = notifyCredentialError (telegram_id user) (app_name (app a))
      (PlayStoreClient.invalid_credentials_message e) w
  ∧ on_poll_error a user (AppStoreClient.invalid_credentials_message e) w
    = notifyCredentialError (telegram_id user) (app_name (app a))
        (AppStoreClient.invalid_credentials_message e) w
  ∧ on_poll_error a user PlayStoreClient.invalid_account_message w
    = notifyCredentialError (telegram_id user) (app_name (app a))
        PlayStoreClient.invalid_account_message w
  ∧ on_poll_error a user AppStoreClient.invalid_account_message w
    = notifyCredentialError (telegram_id user) (app_name (app a))
        AppStoreClient.invalid_account_message w
  ∧ on_poll_error a user AppStoreClient.missing_key_message w = w.
Proof.
  assert (Has : includes (AppStoreClient.invalid_credentials_message e) "invalid"
                || includes (AppStoreClient.invalid_credentials_message e) "Credentials"
                = true) by (apply orb_true_iff; right; reflexivity).
  unfold on_poll_error. rewrite (credentials_message_is_recognised e), Has. repeat split.
Qed.

(** X20. An App Store app whose valid account lacks the key id or the
    issuer id fails silently in every poll: [pollAppReviews] returns 0
    without a request to the vendor, without a message to the owner (the
    error raised for the missing ids is not one the scheduler reports) and
    without invalidating the account; it only advances the cursor. *)
Theorem missing_apple_keys_fail_silently fuel V a user w acc :
  account a = Some acc → is_valid acc = true → store (app a) = app_store →
  or_undefined (apple_key_id acc) = None ∨ or_undefined (apple_issuer_id acc) = None →
  pollAppReviews fuel V a user w
  = (Returned 0, with_db (updateAppLastPoll (clock w) (app_id (app a))) w).
Proof.
  intros Ha Hv Hs Hmissing.
  destruct (credential_messages_notify a user w EmptyString) as (_ & _ & _ & _ & Hquiet).
  unfold pollAppReviews, fetch_for. rewrite Ha, Hv, Hs. cbn [negb].
  unfold AppStoreClient.fetchReviewsWithAccount. rewrite Hv. cbn [negb].
  destruct Hmissing as [-> | ->].
  - by rewrite Hquiet.
  - destruct (or_undefined (apple_key_id acc)); by rewrite Hquiet.
Qed.

Lemma missing_apple_keys_fail_silently_witness :
  pollAppReviews 3 Examples.demo_vendors Examples.keyless_notes Examples.alice
    Examples.demo_world
  = (Returned 0, with_db (updateAppLastPoll 300000 "app-notes") Examples.demo_world).
Proof.
  apply (missing_apple_keys_fail_silently 3 Examples.demo_vendors Examples.keyless_notes
           Examples.alice Examples.demo_world Examples.keyless_account);
    [reflexivity | reflexivity | reflexivity | by left].
Defined.

(** X21. The credential errors of the connectors reach the owner: the
    message of the error [fetchReviewsWithAccount] raises after an auth
    failure, for any vendor error text, and the message it raises for an
    account already marked invalid, on either store, pass the test of the
    [catch] block; so when the fetch of a poll throws one of them,
    [pollAppReviews] returns 0 having sent the owner one credential error
    message naming the app and carrying that text, and having advanced the
    cursor. *)
Theorem credential_errors_reach_the_owner fuel V a user w acc m w0 :
  account a = Some acc → is_valid acc = true →
  fetch_for fuel V a acc (last_poll_at (app a)) w = (Thrown m, w0) →
  (∃ e, m = PlayStoreClient.invalid_credentials_message e
        ∨ m = AppStoreClient.invalid_credentials_message e)
  ∨ m = PlayStoreClient.invalid_account_message
  ∨ m = AppStoreClient.invalid_account_message →
  pollAppReviews fuel V a user w
  = (Returned 0,
     with_db (updateAppLastPoll (clock w0) (app_id (app a)))
       (send (telegram_id user) (CredentialErrorMessage (app_name (app a)) m) w0)).
Proof.
  intros Ha Hv Hf Hm.
  unfold pollAppReviews. rewrite Ha, Hv, Hf. cbn [negb].
  assert (Hnotify : on_poll_error a user m w0
                    = send (telegram_id user) (CredentialErrorMessage (app_name (app a)) m) w0).
  { destruct Hm as [[e [-> | ->]]|[-> | ->]].
    - by destruct (credential_messages_notify a user w0 e) as (? & _).
    - by destruct (credential_messages_notify a user w0 e) as (_ & ? & _).
    - by destruct (credential_messages_notify a user w0 EmptyString) as (_ & _ & ? & _).
    - by destruct (credential_messages_notify a user w0 EmptyString) as (_ & _ & _ & ? & _). }
  by rewrite Hnotify.
Qed.

Lemma credential_errors_reach_the_owner_witness :
  ∃ w1,
    pollAppReviews 1 Examples.rejecting_vendors
      (with_account (db Examples.play_world) Examples.tasks_app) Examples.alice
      Examples.play_world = (Returned 0, w1)
    ∧ outbox w1
      = [(1001, CredentialErrorMessage "Tasks"
                  (PlayStoreClient.invalid_credentials_message Examples.permission_denied))].
Proof.
  eexists. split.
  - eapply (credential_errors_reach_the_owner 1 Examples.rejecting_vendors
              (with_account (db Examples.play_world) Examples.tasks_app) Examples.alice
              Examples.play_world Examples.google_account).
    + reflexivity.
    + reflexivity.
    + vm_compute. reflexivity.
    + left. exists Examples.permission_denied. left. vm_compute. reflexivity.
  - vm_compute. reflexivity.
Defined.

End CycleCoverage.

Section ManualPollCoverage.
Import JS SupabaseService Env Reference ReviewScheduler.

Lemma totalNew_from total results :
  foldl (λ total result, total + newReviews result) total results = total + totalNew results.
Proof.
  unfold totalNew. revert total. induction results as [|r results IH]; intros total; simpl.
  - lia.
  - rewrite IH, (IH (0 + newReviews r)). lia.
Qed.

Lemma totalNew_app results extra : totalNew (results ++ extra) = totalNew results + totalNew extra.
Proof. unfold totalNew at 1. rewrite foldl_app. apply totalNew_from. Qed.

Lemma poll_listed_apps_never_throws fuel V apps user results w m w1 :
  poll_listed_apps fuel V apps user results w ≠ (Thrown m, w1).
Proof.
  revert results w. induction apps as [|a apps IH]; intros results w; simpl; [done|].
  destruct (getAppWithAccount _ _) as [awa|]; [|apply IH].
  destruct (negb _); [apply IH|].
  destruct (pollAppReviews fuel V awa user w) as [[n|e|] w0] eqn:Hp; [apply IH| |done].
  by apply pollAppReviews_never_throws in Hp.
Qed.

Lemma poll_listed_apps_effect fuel V apps user results w results' w1 :
  poll_listed_apps fuel V apps user results w = (Returned results', w1) →
  clock w1 = clock w ∧ users (db w1) = users (db w)
  ∧ ∃ added msgs extra,
      results' = results ++ extra
      ∧ reviews (db w1) = reviews (db w) ++ added
      ∧ totalNew extra = Z.of_nat (length added)
      ∧ Forall (λ row, review_user_id row = user_id user) added
      ∧ outbox w1 = outbox w ++ msgs
      ∧ Forall (λ m, is_summary m = false) msgs
      ∧ (appName <$> extra) `sublist_of` (app_name <$> apps).
Proof.
  revert results w. induction apps as [|a apps IH]; intros results w; simpl.
  - intros [= <- <-]. split; [done|]. split; [done|].
    exists [], [], []. rewrite !app_nil_r. repeat split; done.
  - assert (Hskip : poll_listed_apps fuel V apps user results w = (Returned results', w1) →
              clock w1 = clock w ∧ users (db w1) = users (db w)
              ∧ ∃ added msgs extra,
                  results' = results ++ extra
                  ∧ reviews (db w1) = reviews (db w) ++ added
                  ∧ totalNew extra = Z.of_nat (length added)
                  ∧ Forall (λ row, review_user_id row = user_id user) added
                  ∧ outbox w1 = outbox w ++ msgs
                  ∧ Forall (λ m, is_summary m = false) msgs
                  ∧ (appName <$> extra) `sublist_of` (app_name a :: (app_name <$> apps))).
    { intros Hrest.
      apply IH in Hrest as (? & ? & added & msgs & extra & ? & ? & ? & ? & ? & ? & ?).
      split; [done|]. split; [done|]. exists added, msgs, extra.
      repeat split; try done. by apply sublist_cons. }
    destruct (getAppWithAccount _ _) as [awa|]; [|exact Hskip].
    destruct (negb _); [exact Hskip|]. clear Hskip.
    destruct (pollAppReviews fuel V awa user w) as [[n|e|] w0] eqn:Hp; [| |done].
    + apply pollAppReviews_effect in Hp
        as (Hc & Hu & (added0 & Hrows0 & Hn & Hall0) & (msgs0 & Hout0 & Hns0) & _).
      intros Hrest.
      apply IH in Hrest
        as (Hc' & Hu' & added & msgs & extra & -> & Hrows & Ht & Hall & Hout & Hns & Hsub).
      split; [congruence|]. split; [congruence|].
      exists (added0 ++ added), (msgs0 ++ msgs),
             ({| appName := app_name a; newReviews := n |} :: extra).
      rewrite Hrows, Hrows0, Hout, Hout0, <- !app_assoc.
      split; [done|]. split; [done|]. split.
      { change (?x :: extra) with ([x] ++ extra). rewrite totalNew_app, length_app, Ht.
        unfold totalNew at 1. simpl. lia. }
      split.
      { apply Forall_app. split; [|done].
        eapply Forall_impl; [exact Hall0|]. intros row (r & _ & ->). apply review_row_user. }
      split; [done|]. split; [by apply Forall_app|].
      rewrite fmap_cons. simpl. by apply sublist_skip.
    + by apply pollAppReviews_never_throws in Hp.
Qed.

(** X22. A manual poll reports what it saves and stays silent:
    [pollUserApps] never throws; for an unknown user it returns the empty
    list and changes nothing; and whenever it returns, the counts of its
    entries add up (the total the [/poll] command shows) to the number of
    rows the poll added to the reviews table, all of them rows of that
    user; the entries name active apps of the user in the order of
    [getAppsByUser]; the users table and the clock are as before; and no
    summary notification is sent, unlike in a cycle. *)
Theorem manual_poll_counts_what_it_saves :
  (∀ fuel V userId w m w1, pollUserApps fuel V userId w ≠ (Thrown m, w1))
  ∧ (∀ fuel V userId w,
       getUserById userId (db w) = None → pollUserApps fuel V userId w = (Returned [], w))
  ∧ (∀ fuel V userId w results w1,
       pollUserApps fuel V userId w = (Returned results, w1) →
       clock w1 = clock w ∧ users (db w1) = users (db w)
       ∧ (∃ added,
            reviews (db w1) = reviews (db w) ++ added
            ∧ totalNew results = Z.of_nat (length added)
            ∧ Forall (λ row, review_user_id row = userId) added)
       ∧ summaries (new_messages w w1) = []
       ∧ (appName <$> results) `sublist_of` (app_name <$> getAppsByUser userId (db w))).
Proof.
  split; [|split].
  - intros fuel V userId w m w1. unfold pollUserApps.
    destruct (getUserById userId (db w)); [apply poll_listed_apps_never_throws|done].
  - intros fuel V userId w Hnone. unfold pollUserApps. by rewrite Hnone.
  - intros fuel V userId w results w1. unfold pollUserApps.
    destruct (getUserById userId (db w)) as [user|] eqn:Hu.
    + pose proof (getUserById_id _ _ _ Hu) as Hid.
      intros Hp. apply poll_listed_apps_effect in Hp
        as (Hc & Hus & added & msgs & extra & -> & Hrows & Ht & Hall & Hout & Hns & Hsub).
      split; [done|]. split; [done|]. split; [|split].
      * exists added. split; [done|]. split; [done|]. by rewrite <- Hid.
      * unfold new_messages. rewrite Hout, drop_app_length. by apply summaries_none.
      * done.
    + intros [= <- <-]. split; [done|]. split; [done|]. split; [|split].
      * exists []. by rewrite app_nil_r.
      * unfold new_messages. by rewrite drop_all.
      * apply sublist_nil_l.
Qed.

Lemma manual_poll_counts_what_it_saves_witness :
  ∃ results w1,
    pollUserApps 3 Examples.demo_vendors "u-alice" Examples.demo_world = (Returned results, w1)
    ∧ totalNew results = 7
    ∧ summaries (new_messages Examples.demo_world w1) = [].
Proof.
  destruct manual_poll_counts_what_it_saves as (_ & _ & Heffect).
  edestruct (Heffect 3%nat Examples.demo_vendors "u-alice" Examples.demo_world)
    as (_ & _ & _ & Hquiet & _); [vm_compute; reflexivity|].
  eexists _, _. split; [vm_compute; reflexivity|].
  split; [vm_compute; reflexivity | exact Hquiet].
Defined.

Lemma filter_by_key_unique {A B} `{EqDecision B} (f : A → B) (l : list A) (a : A) :
  NoDup (f <$> l) → a ∈ l → filter (λ x, f x = f a) l = [a].
Proof.
  induction l as [|x l IH]; intros Hnd Hin; [by apply elem_of_nil in Hin|].
  rewrite fmap_cons in Hnd. apply NoDup_cons in Hnd as [Hfresh Hnd].
  rewrite filter_cons. apply elem_of_cons in Hin as [->|Hin].
  - rewrite decide_True by done. f_equal.
    apply filter_nil_not_Exists. intros Hex. apply Exists_exists in Hex as (y & Hy & Heq).
    apply Hfresh. rewrite <- Heq. apply list_elem_of_fmap. by exists y.
  - rewrite decide_False; [by apply IH|].
    intros Heq. apply Hfresh. rewrite Heq. apply list_elem_of_fmap. by exists a.
Qed.

Lemma getAppsByUser_elem userId d a : a ∈ getAppsByUser userId d → a ∈ apps d.
Proof.
  unfold getAppsByUser. rewrite elem_of_reverse. by intros [_ ?]%list_elem_of_filter.
Qed.

(** Apps whose account is missing or invalid in the database are passed
    over: nothing is requested, nothing changes. *)
Lemma poll_listed_apps_skips fuel V apps user results w :
  Forall (λ b, ∀ awa, getAppWithAccount (app_id b) (db w) = Some awa →
                      account_is_valid awa = false) apps →
  poll_listed_apps fuel V apps user results w = (Returned results, w).
Proof.
  induction apps as [|b apps IH]; intros Hall; simpl; [done|].
  apply Forall_cons in Hall as [Hb Hall].
  destruct (getAppWithAccount _ _) as [awa|]; [|by apply IH].
  rewrite (Hb awa eq_refl). simpl. by apply IH.
Qed.

(** X23. A manual poll reads the account again for every app: when the
    fetch of the first app of a user's list throws and leaves the account
    of that app invalid in the database (what an auth failure does), the
    remaining apps of the list that use the same account are passed over,
    app ids being unique: [pollUserApps] returns the one entry of the first
    app, with count 0, and the world is the one its poll attempt left, no
    further request issued and no further message sent. *)
Theorem manual_poll_rereads_the_account fuel V userId user w a rest acc m w0 :
  getUserById userId (db w) = Some user →
  getAppsByUser userId (db w) = a :: rest →
  NoDup (app_id <$> apps (db w)) →
  Forall (λ b, app_account_id b = app_account_id a) rest →
  account (with_account (db w) a) = Some acc → is_valid acc = true →
  fetch_for fuel V (with_account (db w) a) acc (last_poll_at a) w = (Thrown m, w0) →
  Forall (λ x, account_id x = app_account_id a → is_valid x = false) (accounts (db w0)) →
  let w2 := on_poll_error (with_account (db w) a) user m w0 in
  pollUserApps fuel V userId w
  = (Returned [{| appName := app_name a; newReviews := 0 |}],
     with_db (updateAppLastPoll (clock w2) (app_id a)) w2).
Proof.
  intros Hu Hlist Hnd Hrest Ha Hv Hf Hinv w2.
  assert (Hins : ∀ b, b ∈ a :: rest → b ∈ apps (db w)).
  { intros b Hb. apply (getAppsByUser_elem userId). by rewrite Hlist. }
  unfold pollUserApps. rewrite Hu, Hlist. cbn [poll_listed_apps].
  unfold getAppWithAccount at 1.
  rewrite (filter_by_key_unique app_id (apps (db w)) a Hnd) by (apply Hins; left).
  simpl single. cbn [fmap option_fmap option_map].
  assert (Hvalid : account_is_valid (with_account (db w) a) = true)
    by (unfold account_is_valid; by rewrite Ha).
  rewrite Hvalid. cbn [negb].
  assert (Hp : pollAppReviews fuel V (with_account (db w) a) user w
               = (Returned 0, with_db (updateAppLastPoll (clock w2) (app_id a)) w2)).
  { unfold pollAppReviews. rewrite Ha, Hv. simpl negb. cbv iota.
    change (app (with_account (db w) a)) with a. by rewrite Hf. }
  rewrite Hp.
  apply poll_listed_apps_skips, Forall_forall. intros b Hb awa Hget.
  apply fetch_for_frame in Hf as (_ & _ & _ & Happs & _).
  destruct (on_poll_error_effect (with_account (db w) a) user m w0) as (_ & Hd2 & _).
  fold w2 in Hd2.
  unfold getAppWithAccount in Hget.
  destruct (single _) as [row|] eqn:Hrow; [|done]. injection Hget as <-.
  apply single_Some in Hrow.
  assert (Hin : row ∈ [row]) by left. rewrite <- Hrow in Hin.
  apply list_elem_of_filter in Hin as [Hid Hin]. simpl in Hin.
  apply list_elem_of_fmap in Hin as (row0 & -> & Hin0).
  rewrite Hd2, Happs in Hin0.
  assert (row0 = b) as ->.
  { assert (Hb' : b ∈ apps (db w)) by (apply Hins; by right).
    pose proof (filter_by_key_unique app_id (apps (db w)) b Hnd Hb') as Hone.
    assert (Hin1 : row0 ∈ filter (λ x, app_id x = app_id b) (apps (db w))).
    { apply list_elem_of_filter. split; [|done].
      by destruct (decide (app_id row0 = app_id a)). }
    rewrite Hone in Hin1. by apply list_elem_of_singleton in Hin1. }
  assert (Hacc : app_account_id (if decide (app_id b = app_id a)
                                 then set_last_poll_at (clock w2) b else b)
                 = app_account_id a).
  { eapply Forall_forall in Hrest; [|exact Hb]. by destruct (decide _). }
  unfold account_is_valid, with_account. cbn [account]. rewrite Hacc.
  destruct (single _) as [x|] eqn:Hx; [|done].
  apply single_Some in Hx.
  assert (Hinx : x ∈ [x]) by left. rewrite <- Hx in Hinx.
  apply list_elem_of_filter in Hinx as [Hidx Hinx]. simpl in Hinx. rewrite Hd2 in Hinx.
  eapply Forall_forall in Hinv; [|exact Hinx]. by apply Hinv.
Qed.

Lemma manual_poll_rereads_the_account_witness :
  ∃ w1,
    pollUserApps 1 Examples.rejecting_vendors "u-alice" Examples.play_world
    = (Returned [{| appName := "Mail"; newReviews := 0 |}], w1)
    ∧ length (requests w1) = 1%nat
    ∧ length (outbox w1) = 1%nat.
Proof.
  eexists.
  split.
  - eapply (manual_poll_rereads_the_account 1 Examples.rejecting_vendors "u-alice"
              Examples.alice Examples.play_world Examples.mail_app [Examples.tasks_app]
              Examples.google_account);
      try (vm_compute; reflexivity).
    + apply (bool_decide_unpack _). vm_compute. exact I.
    + by repeat constructor.
    + vm_compute. by repeat constructor.
  - split; vm_compute; reflexivity.
Defined.

End ManualPollCoverage.

Section LifeCycleCoverage.
Import JS SupabaseService Env Reference ReviewScheduler.

Lemma call_pollAllApps_steps fuel V sys :
  rtc (sys_step fuel V) sys (call_pollAllApps fuel V sys).
Proof.
  unfold call_pollAllApps.
  destruct (step fuel V Called (state sys)) as [[p s]|] eqn:Hstep.
  - eapply rtc_l; [apply Trigger|]. apply rtc_once.
    replace (tasks sys ++ [p]) with (<[length (tasks sys) := p]> (tasks sys ++ [Called])).
    + eapply (Resume fuel V {| state := state sys; tasks := tasks sys ++ [Called] |}
                     (length (tasks sys)) Called p s); [|done].
      simpl. by rewrite lookup_app_r, Nat.sub_diag by lia.
    + rewrite insert_app_r_alt, Nat.sub_diag by lia. done.
  - apply rtc_once, Trigger.
Qed.

Lemma live_after_stop (l : list ScheduledTask) i t :
  l !! i = Some t → task_started t = true →
  S (length (filter (λ t, task_started t = true) (alter stop_task i l)))
  = length (filter (λ t, task_started t = true) l).
Proof.
  revert i. induction l as [|x l IH]; intros i Hi Ht; [done|].
  destruct i as [|i]; simpl in *.
  - injection Hi as ->. rewrite !filter_cons.
    rewrite (decide_False (P := task_started (stop_task t) = true)) by done.
    by rewrite decide_True.
  - rewrite !filter_cons. destruct (decide (task_started x = true)); simpl.
    + f_equal. by apply IH.
    + by apply IH.
Qed.

(** The three ways [start()] can go. *)
Lemma start_cases fuel V cron s :
  (isRunning s = true ∧ start fuel V cron s = (None, s))
  ∨ (isRunning s = false
     ∧ schedule_error cron (cron_expression (pollIntervalMinutes s)) = None
     ∧ start fuel V cron s
       = (None,
          {| pollIntervalMinutes := pollIntervalMinutes s; isRunning := true;
             cronJob := Some (length (scheduled s));
             scheduled :=
               scheduled s
               ++ [{| cronExpression := cron_expression (pollIntervalMinutes s);
                      task_started := true |}];
             system := call_pollAllApps fuel V (system s) |}))
  ∨ (∃ message,
       isRunning s = false
       ∧ schedule_error cron (cron_expression (pollIntervalMinutes s)) = Some message
       ∧ start fuel V cron s
         = (Some message,
            {| pollIntervalMinutes := pollIntervalMinutes s; isRunning := false;
               cronJob := cronJob s; scheduled := scheduled s;
               system := call_pollAllApps fuel V (system s) |})).
Proof.
  unfold start. destruct (isRunning s) eqn:Hrun; [by left|right].
  destruct (schedule_error cron _) as [message|] eqn:Herr.
  - right. by exists message.
  - by left.
Qed.

Lemma life_cycle_ok_step fuel V cron s s' :
  life_step fuel V cron s s' → life_cycle_ok s → life_cycle_ok s'.
Proof.
  intros Hstep [Hlive Hjob]. unfold life_cycle_ok, live_tasks in *.
  destruct Hstep as [s|s|s i|s sys' _]; [| | |by simpl].
  - destruct (start_cases fuel V cron s)
      as [[Hrun ->]|[(Hrun & _ & ->)|(message & Hrun & _ & ->)]]; simpl.
    + done.
    + rewrite Hrun in Hlive.
      rewrite filter_app, length_app, Hlive. split; [reflexivity|]. split; [done|].
      eexists. split; [by rewrite lookup_app_r, Nat.sub_diag by lia|done].
    + rewrite Hrun in Hlive, Hjob. done.
  - simpl. split; [|done].
    destruct (cronJob s) as [job|]; [|by rewrite Hjob in Hlive].
    destruct Hjob as (Hrun & t & Ht & Hstarted). rewrite Hrun in Hlive.
    pose proof (live_after_stop _ _ _ Ht Hstarted). lia.
  - unfold tick. destruct (scheduled s !! i) as [t|]; [|done].
    by destruct (task_started t).
Qed.

Lemma life_step_system fuel V cron s s' :
  life_step fuel V cron s s' → rtc (sys_step fuel V) (system s) (system s').
Proof.
  intros [s0|s0|s0 i|s0 sys' Hsys].
  - destruct (start_cases fuel V cron s0)
      as [[_ ->]|[(_ & _ & ->)|(message & _ & _ & ->)]]; simpl;
      [done|apply call_pollAllApps_steps..].
  - done.
  - unfold tick. destruct (scheduled s0 !! i) as [t|]; [|done].
    destruct (task_started t); [apply call_pollAllApps_steps|done].
  - by apply rtc_once.
Qed.

(** X24. Through any sequence of [start()] and [stop()] calls, firings of
    scheduled tasks and progress of the event loop, and whatever node-cron
    makes of the expression, a scheduler has at most one started cron
    task: there is one exactly when [isRunning] holds, [cronJob] then
    designates it, and [cronJob] is null otherwise.  The invocations of
    [pollAllApps] that [start()] and the cron task make are triggers of the
    event loop, so the cycles they start stay mutually exclusive.  A second
    [stop()] changes nothing.  When [start()] returns, the scheduler is
    running, a second [start()] changes nothing, and [stop()] after it
    leaves no task started.  When node-cron rejects the expression, a
    [start()] of a stopped scheduler throws after it has launched the
    initial poll: the scheduler stays stopped without a task, and every
    further [start()] launches a poll and throws again. *)
Theorem scheduler_keeps_one_cron_task fuel V cron configured parsed w s :
  rtc (life_step fuel V cron) (new configured parsed w) s →
  let expression := cron_expression (pollIntervalMinutes s) in
  life_cycle_ok s
  ∧ (length (live_tasks s) ≤ 1)%nat
  ∧ rtc (sys_step fuel V) (initial w) (system s)
  ∧ stop (stop s) = stop s
  ∧ (∀ s1, start fuel V cron s = (None, s1) →
       isRunning s1 = true
       ∧ start fuel V cron s1 = (None, s1)
       ∧ isRunning (stop s1) = false ∧ live_tasks (stop s1) = [])
  ∧ (isRunning s = true ∨ schedule_error cron expression = None →
     ∃ s1, start fuel V cron s = (None, s1))
  ∧ (∀ message,
       isRunning s = false → schedule_error cron expression = Some message →
       ∃ s1,
         start fuel V cron s = (Some message, s1)
         ∧ isRunning s1 = false ∧ cronJob s1 = None ∧ live_tasks s1 = []
         ∧ scheduled s1 = scheduled s
         ∧ system s1 = call_pollAllApps fuel V (system s)
         ∧ (start fuel V cron s1).1 = Some message).
Proof.
  intros Hreach expression.
  assert (Hok : life_cycle_ok s ∧ rtc (sys_step fuel V) (initial w) (system s)).
  { revert s Hreach expression. apply rtc_ind_r; [by repeat split|].
    intros s s' _ Hstep [Hok Hsys]. split; [by eapply life_cycle_ok_step|].
    etrans; [exact Hsys|]. by eapply life_step_system. }
  destruct Hok as [Hok Hsys]. split; [done|]. split.
  { destruct Hok as [-> _]. destruct (isRunning s); lia. }
  split; [done|]. split; [done|]. split; [|split].
  - intros s1 Hstart.
    assert (Hrun1 : isRunning s1 = true).
    { destruct (start_cases fuel V cron s)
        as [[Hrun Hs]|[(_ & _ & Hs)|(message & _ & _ & Hs)]];
        rewrite Hs in Hstart; [|by injection Hstart as <-|done].
      by injection Hstart as <-. }
    split; [done|]. split; [unfold start; by rewrite Hrun1|].
    assert (Hok1 : life_cycle_ok s1).
    { apply (life_cycle_ok_step fuel V cron s); [|done].
      replace s1 with (start fuel V cron s).2 by (by rewrite Hstart). apply life_start. }
    pose proof (life_cycle_ok_step fuel V cron _ _ (life_stop fuel V cron s1) Hok1)
      as [Hlive _].
    split; [done|]. apply nil_length_inv. by rewrite Hlive.
  - intros Hgood.
    destruct (start_cases fuel V cron s)
      as [[_ ->]|[(_ & _ & ->)|(message & Hrun & Herr & _)]]; [by eexists..|].
    destruct Hgood as [Hgood|Hgood]; [congruence|]. unfold expression in Hgood. congruence.
  - intros message Hrun Herr.
    destruct (start_cases fuel V cron s)
      as [[Hrun' _]|[(_ & Herr' & _)|(message' & _ & Herr' & ->)]];
      [congruence|unfold expression in Herr; congruence|].
    assert (message' = message) as -> by (unfold expression in Herr; congruence).
    eexists. split; [done|]. simpl.
    destruct Hok as [Hlive Hjob]. rewrite Hrun in Hlive, Hjob.
    split; [done|]. split; [by destruct (cronJob s) as [job|]; [destruct Hjob|]|].
    split; [by apply nil_length_inv|]. split; [done|]. split; [done|].
    unfold start. simpl. unfold expression in Herr. by rewrite Herr.
Qed.

Lemma scheduler_keeps_one_cron_task_witness :
  let s := (start 1 Examples.demo_vendors Examples.strict_cron
              (stop (start 1 Examples.demo_vendors Examples.strict_cron
                       (new None (Some 15) Examples.demo_world)).2)).2 in
  (length (live_tasks s) ≤ 1)%nat
  ∧ cronExpression <$> scheduled s = ["*/15 * * * *"; "*/15 * * * *"]
  ∧ (∃ s1, start 1 Examples.demo_vendors Examples.strict_cron s = (None, s1))
  (* POLL_INTERVAL_MINUTES=0: the initial poll is launched, then [start()] throws *)
  ∧ (∃ s1, start 1 Examples.demo_vendors Examples.strict_cron
             (new None (Some 0) Examples.demo_world) = (Some "invalid expression", s1)
           ∧ isRunning s1 = false ∧ scheduled s1 = []
           ∧ length (tasks (system s1)) = 1%nat).
Proof.
  intros s.
  pose proof (scheduler_keeps_one_cron_task 1 Examples.demo_vendors Examples.strict_cron
                None (Some 15) Examples.demo_world s) as Hs.
  pose proof (scheduler_keeps_one_cron_task 1 Examples.demo_vendors Examples.strict_cron
                None (Some 0) Examples.demo_world
                (new None (Some 0) Examples.demo_world)) as H0.
  destruct Hs as (_ & Hle & _ & _ & _ & Hgood & _).
  { eapply rtc_l; [apply life_start|]. eapply rtc_l; [apply life_stop|].
    apply rtc_once, life_start. }
  destruct H0 as (_ & _ & _ & _ & _ & _ & Hbad); [done|].
  split; [exact Hle|]. split; [vm_compute; reflexivity|]. split.
  - apply Hgood. left. vm_compute. reflexivity.
  - destruct (Hbad "invalid expression") as (s1 & Hstart & Hrun & _ & _ & Hsched & Hsys & _);
      [reflexivity|vm_compute; reflexivity|].
    exists s1. split; [done|]. split; [done|]. split; [by rewrite Hsched|].
    rewrite Hsys. vm_compute. reflexivity.
Defined.

End LifeCycleCoverage.

Section SoloRunCoverage.
Import JS SupabaseService Env Reference ReviewScheduler.

Lemma solo_run_unique fuel V x y z :
  rtc (solo_step fuel V) x y → rtc (solo_step fuel V) x z →
  halted fuel V y → halted fuel V z → y = z.
Proof.
  intros Hxy. revert z. induction Hxy as [x|x x' y Hstep Hxy IH]; intros z Hxz Hy Hz.
  - destruct Hxz as [|x x' z Hstep _]; [done|].
    unfold solo_step in Hstep. unfold halted in Hy. congruence.
  - destruct Hxz as [|x x'' z Hstep' Hxz].
    + unfold solo_step in Hstep. unfold halted in Hz. congruence.
    + unfold solo_step in Hstep, Hstep'. rewrite Hstep in Hstep'.
      injection Hstep' as <-. by apply IH.
Qed.

Lemma solo_polling_user_pending fuel V todo u total rest g w w1 :
  poll_user_apps fuel V todo u total w = (Pending, w1) →
  ∃ x, rtc (solo_step fuel V)
           (PollingUser u todo total rest, {| isPolling := g; world := w |}) x
       ∧ halted fuel V x ∧ x.1 ≠ Settled.
Proof.
  revert total w. induction todo as [|a todo IH]; intros total w; simpl; [done|].
  destruct (pollAppReviews fuel V a u w) as [[n|m|] w0] eqn:Hp.
  - intros Hrest. destruct (IH _ _ Hrest) as (x & Hrun & Hx).
    exists x. split; [|done]. eapply rtc_l; [|exact Hrun].
    unfold solo_step; simpl. by rewrite Hp.
  - intros Hrest. destruct (IH _ _ Hrest) as (x & Hrun & Hx).
    exists x. split; [|done]. eapply rtc_l; [|exact Hrun].
    unfold solo_step; simpl. by rewrite Hp.
  - intros _. eexists. split; [apply rtc_refl|]. split; [|done].
    unfold halted; simpl. by rewrite Hp.
Qed.

Lemma solo_polling_users_pending fuel V groups g w w1 :
  poll_users fuel V groups w = (Pending, w1) →
  ∃ x, rtc (solo_step fuel V) (NextUser groups, {| isPolling := g; world := w |}) x
       ∧ halted fuel V x ∧ x.1 ≠ Settled.
Proof.
  revert w. induction groups as [|[k [u apps]] rest IH]; intros w; simpl; [done|].
  destruct (poll_user_apps fuel V apps u 0 w) as [[total|m|] w0] eqn:Hp.
  - intros Hrest. destruct (IH _ Hrest) as (x & Hrun & Hx).
    exists x. split; [|done]. eapply rtc_l; [done|].
    etrans; [by apply solo_polling_user|]. exact Hrun.
  - by apply poll_user_apps_never_throws in Hp.
  - intros _. destruct (solo_polling_user_pending _ _ _ _ _ rest g _ _ Hp) as (x & Hrun & Hx).
    exists x. split; [|done]. eapply rtc_l; [done|]. exact Hrun.
Qed.

(** X25. The function [pollAllApps] and the stepwise account of an
    invocation agree: started with the guard free, [pollAllApps] returns
    with state [s1] if and only if an invocation running alone on the event
    loop, from its call through the guard, the grouping and the polling of
    every owner, settles with state [s1]; when a vendor call is still
    awaited the lone invocation is stuck before settling, and does not
    settle. *)
Theorem pollAllApps_is_the_solo_run fuel V w s1 :
  pollAllApps fuel V {| isPolling := false; world := w |} = (Returned (), s1)
  ↔ rtc (solo_step fuel V) (Called, {| isPolling := false; world := w |}) (Settled, s1).
Proof.
  split; [apply pollAllApps_is_a_solo_run|]. intros Hrun.
  assert (Hsettled : ∀ s, halted fuel V (Settled, s)) by done.
  destruct (pollAllApps fuel V {| isPolling := false; world := w |}) as [o s1'] eqn:Hp.
  unfold pollAllApps in Hp. simpl in Hp.
  destruct (poll_cycle fuel V w) as [[[]|m|] w1] eqn:Hc.
  - injection Hp as <- <-.
    assert (Hrun' : rtc (solo_step fuel V) (Called, {| isPolling := false; world := w |})
                        (Settled, {| isPolling := false; world := w1 |})).
    { apply pollAllApps_is_a_solo_run. unfold pollAllApps. simpl. by rewrite Hc. }
    pose proof (solo_run_unique _ _ _ _ _ Hrun Hrun' (Hsettled _) (Hsettled _)) as Heq.
    by injection Heq as ->.
  - by apply poll_users_never_throws in Hc.
  - exfalso. unfold poll_cycle in Hc.
    destruct (solo_polling_users_pending _ _ _ true _ _ Hc) as (x & Hx & Hhalt & Hne).
    assert (Hrun' : rtc (solo_step fuel V) (Called, {| isPolling := false; world := w |}) x).
    { eapply rtc_l; [done|]. eapply rtc_l; [done|].
      etrans; [apply solo_grouping|]. exact Hx. }
    pose proof (solo_run_unique _ _ _ _ _ Hrun Hrun' (Hsettled _) Hhalt) as Heq.
    by rewrite <- Heq in Hne.
Qed.

Lemma pollAllApps_is_the_solo_run_witness :
  ∃ s1, rtc (solo_step 3 Examples.demo_vendors)
            (Called, Examples.idle Examples.demo_world) (Settled, s1)
        ∧ isPolling s1 = false.
Proof.
  eexists. split.
  - apply (proj1 (pollAllApps_is_the_solo_run 3 Examples.demo_vendors Examples.demo_world _)).
    vm_compute. reflexivity.
  - reflexivity.
Defined.

End SoloRunCoverage.
